(** * HookTuah: the EventForwarder, embedded and verified

    A shallow embedding of [EventForwarder] (subscribe / unsubscribe /
    unsubscribeAll, the three stream strategies and the per-event pipeline)
    together with the part of RxJS 7 it is built on (Subscriber closing,
    [interval], [from] on a promise, [webSocket], [catchError], [retry]).

    The forwarder is an object with mutable fields that reacts to calls of
    its API and to events of its environment (timer ticks, socket frames,
    settled promises).  It is modelled as a state-and-exception monad [M]
    over the record [Forwarder]; every reaction appends what it does to the
    outside world to a chronological [trace]. *)

From stdpp Require Import gmap strings list fin_maps pretty.
From Stdlib Require Import ZArith Lia.

Local Open Scope string_scope.
Local Open Scope list_scope.
Local Open Scope nat_scope.

(** ** JavaScript values *)

(** JSON-like run-time values.  Numbers are restricted to integers (NaN, the
    one falsy number besides zero, is not represented). *)
#[warnings="-register-all"]
Inductive jsval :=
| JUndefined
| JNull
| JBool (b : bool)
| JNum (n : Z)
| JStr (s : string)
| JObj (fields : list (string * jsval))
| JArr (items : list jsval).

(** JavaScript truthiness, as used by [if (x)], [!x] and [x ? a : b]. *)
Definition truthy (v : jsval) : bool :=
  match v with
  | JUndefined | JNull => false
  | JBool b => b
  | JNum n => negb (n =? 0)%Z
  | JStr s => match s with EmptyString => false | _ => true end
  | JObj _ | JArr _ => true
  end.

(** Errors that can be thrown or carried by a rejected promise.  The
    message of a [TypeError] is the engine's own and is left out. *)
Inductive JSError :=
| Error (msg : string)
| SyntaxError
| TypeError
| HttpStatusError (status : Z) (url text : string)
| WebhookError (status : Z)
| TransportError (desc : string)
| UserError (msg : string).

(** A settled promise, and a value that is either plain or a promise
    ([T | Promise<T>]). *)
Inductive settled (A : Type) :=
| Fulfilled (a : A)
| RejectedWith (e : JSError).
Arguments Fulfilled {A} a.
Arguments RejectedWith {A} e.

Inductive awaitable (A : Type) :=
| Immediate (a : A)
| Promise (p : settled A).
Arguments Immediate {A} a.
Arguments Promise {A} p.

(** A promise object is truthy whatever it settles to. *)
Definition awaitable_truthy (b : awaitable jsval) : bool :=
  match b with
  | Immediate v => truthy v
  | Promise _ => true
  end.

(** [x !== undefined] on an optional field holding a value or a promise. *)
Definition defined (b : option (awaitable jsval)) : bool :=
  match b with
  | None | Some (Immediate JUndefined) => false
  | Some _ => true
  end.

(** [JSON.stringify(v)] as the body of a request: [undefined] yields
    [undefined], and then no body is set; every other value yields a text,
    which the value itself stands for. *)
Definition stringify (v : jsval) : option jsval :=
  match v with
  | JUndefined => None
  | _ => Some v
  end.

(** *** Names that every plain object inherits

    The registry of the forwarder is a plain object ([subs = {}]), so
    reading [this.subs[id]] under a name the registry does not hold yields
    what [Object.prototype] has under that name: the prototype object
    itself for [__proto__], a method for the eleven other names.  The
    forwarder takes any such value for a subscription and, to tear it down,
    calls it: [sub.unsubscribe()] on the object, which has no such method,
    and [sub()] on a method, that is without receiver and without argument.
    [toString] then returns a text, [constructor] a new object and
    [isPrototypeOf] false; the other methods start by converting the missing
    receiver to an object and raise a TypeError. *)
Inductive Inherited :=
| InheritedObject
| InheritedMethod (needs_receiver : bool).

Definition object_prototype (id : string) : option Inherited :=
  if decide (id = "__proto__") then Some InheritedObject
  else if decide (id ∈ ["constructor"; "toString"; "isPrototypeOf"])
  then Some (InheritedMethod false)
  else if decide (id ∈ ["valueOf"; "hasOwnProperty"; "propertyIsEnumerable";
                        "toLocaleString"; "__defineGetter__"; "__defineSetter__";
                        "__lookupGetter__"; "__lookupSetter__"])
  then Some (InheritedMethod true)
  else None.

(** The outcome of [JSON.parse] on a text (socket frame, response body). *)
Inductive Parsed :=
| Malformed
| Json (v : jsval).

(** What the network answers to a request. *)
Inductive HttpReply :=
| NetworkError (e : JSError)
| HttpResponse (status : Z) (text : string) (json : Parsed).

(** [response.ok] *)
Definition ok (status : Z) : bool := (200 <=? status)%Z && (status <? 300)%Z.

(** ** utils.ts *)

(** [{ ...baseHeaders }] defines every header of the base on a new plain
    object; [Object.assign] then assigns the additional headers to it one by
    one.  Assigning to [__proto__] on an object that has no property of its
    own under that name reaches the setter inherited from
    [Object.prototype], which ignores a text: that one header is dropped. *)
Definition mergeHeaders (baseHeaders : gmap string string)
    (additionalHeaders : option (gmap string string)) : gmap string string :=
  match additionalHeaders with
  | Some extra =>
      match baseHeaders !! "__proto__" with
      | Some _ => extra
      | None => delete "__proto__" extra
      end ∪ baseHeaders
  | None => baseHeaders
  end.

Definition validateInput (data : jsval) : settled jsval :=
  if negb (truthy data) then RejectedWith (Error "Invalid input data")
  else Fulfilled data.

(** ** types.ts *)

Record RequestConfig := {
  method : option string;
  headers : option (gmap string string);
  body : option (awaitable jsval);
}.

Inductive SourceType := websocket | poll | custom.

(** An [Observable] handed over by a custom factory: what it emits
    synchronously when subscribed to.  Later emissions, errors and
    completion arrive as events of the environment. *)
Record ObservableSpec := {
  emits_on_subscribe : list jsval;
}.

(** What the promise of [createStream] resolves to. *)
Inductive FactoryYield :=
| YieldObservable (o : ObservableSpec)
| YieldCleanup.

(** A call of [createStream] either throws right away or returns a promise. *)
Inductive FactoryCall :=
| FactoryThrows (e : JSError)
| FactoryReturns (p : settled FactoryYield).

(** How a computation ends: with a value, or with an exception. *)
Inductive outcome (A : Type) :=
| Return (a : A)
| Throw (e : JSError).
Arguments Return {A} a.
Arguments Throw {A} e.

Section Model.

(** The caller's own mutable state, which its callbacks read and write
    (for instance the [processCount] of a gate that fires once). *)
Context {U : Type}.

(** A caller-supplied function: it may change the caller's state, and it
    returns, throws or returns a promise that settles either way.  A throw
    and a rejection are both seen by the [await] around the call. *)
Definition callback (A B : Type) : Type := A → U → settled B * U.

Record ForwarderConfig := {
  type : SourceType;
  sourceUrl : option string;
  webhookUrl : string;
  requestConfig : option RequestConfig;
  pollInterval : option Z;
  shouldFetch : option (callback jsval bool);
  (* called as [fetchFn(id, config.sourceUrl, config.requestConfig || ...)]:
     the arguments are the ones of that call site *)
  customFetch : option (callback (string * string * RequestConfig) jsval);
  transform : option (callback jsval jsval);
  createStream : option (U → FactoryCall * U);
}.

(** ** The forwarder's world *)

(** What [this.subs[id]] holds: an RxJS [Subscription] or a plain cleanup
    function, each naming the resource it stops.  Teardown callbacks are
    taken not to raise. *)
Inductive Handle :=
| SubscriptionHandle (r : nat)
| CleanupHandle (r : nat).

Definition handle_resource (h : Handle) : nat :=
  match h with SubscriptionHandle r | CleanupHandle r => r end.

(** A fetch started by a polling tick and not answered yet. *)
Inductive InFlight :=
| CustomPending (result : settled jsval)
| HttpPending.

Inductive SocketPhase :=
| Connected
| AwaitingRetry.

(** What a resource is doing. *)
Inductive Activity :=
| SocketStream (phase : SocketPhase) (soFar : nat)
| PollStream (inflight : list InFlight)
| FactorySetup (p : settled FactoryYield)
| CustomStream
| External.

(** A resource the forwarder holds a handle for: the subscription to a
    stream, or whatever stands behind a cleanup function it was handed
    ([External]; what a factory wires up before it hands anything over is
    the factory's own business and is not represented).  [closed] is the
    [closed] flag of the RxJS subscriber (set by error, completion or
    unsubscribe), or records that the cleanup function has been called. *)
Record Resource := {
  owner : string;
  config : ForwarderConfig;
  activity : Activity;
  closed : bool;
}.

Inductive Level := LogLevel | ErrorLevel.

(** What the forwarder does to the outside world, in order: console
    output, calls of the functions the caller supplied, requests, and what
    it opens, arms and releases. *)
Inductive Effect :=
| Console (lvl : Level) (msg : string) (arg : option JSError)
| GateCalled (ctx : jsval)
| TransformCalled (data : jsval)
| CustomFetchCalled (a1 a2 : string) (rc : RequestConfig)
| FactoryCalled
| HttpRequest (meth url : string) (hdrs : gmap string string) (payload : option jsval)
| HttpPost (url : string) (payload : jsval)
| SocketOpened (r : nat) (url : string)
| SocketClosed (r : nat)
| IntervalStarted (r : nat) (period : Z)
| IntervalCleared (r : nat)
| TimeoutSet (r : nat) (ms : Z)
| SourceSubscribed (r : nat)
| SourceUnsubscribed (r : nat)
| CleanupCalled (r : nat).

Record Forwarder := {
  subs : gmap string Handle;
  resources : list Resource;
  user : U;
  sent : nat;
  trace : list Effect;
}.

Definition set_subs (f : gmap string Handle → gmap string Handle) (s : Forwarder) : Forwarder :=
  {| subs := f (subs s); resources := resources s; user := user s;
     sent := sent s; trace := trace s |}.

Definition set_resources (f : list Resource → list Resource) (s : Forwarder) : Forwarder :=
  {| subs := subs s; resources := f (resources s); user := user s;
     sent := sent s; trace := trace s |}.

Definition set_user (u : U) (s : Forwarder) : Forwarder :=
  {| subs := subs s; resources := resources s; user := u;
     sent := sent s; trace := trace s |}.

Definition set_sent (n : nat) (s : Forwarder) : Forwarder :=
  {| subs := subs s; resources := resources s; user := user s;
     sent := n; trace := trace s |}.

Definition add_trace (e : Effect) (s : Forwarder) : Forwarder :=
  {| subs := subs s; resources := resources s; user := user s;
     sent := sent s; trace := trace s ++ [e] |}.

(** [new EventForwarder()] *)
Definition new_forwarder (u : U) : Forwarder :=
  {| subs := ∅; resources := []; user := u; sent := 0; trace := [] |}.

(** ** The monad: state and exceptions *)

Definition M (A : Type) : Type := Forwarder → Forwarder * outcome A.

#[export] Instance M_ret : MRet M := λ A a s, (s, Return a).

#[export] Instance M_bind : MBind M := λ A B k m s,
  match m s with
  | (s', Return a) => k a s'
  | (s', Throw e) => (s', Throw e)
  end.

Definition throw {A} (e : JSError) : M A := λ s, (s, Throw e).

(** [try { body } catch (error) { handler }] *)
Definition try_catch {A} (body : M A) (handler : JSError → M A) : M A := λ s,
  match body s with
  | (s', Return a) => (s', Return a)
  | (s', Throw e) => handler e s'
  end.

Definition get : M Forwarder := λ s, (s, Return s).
Definition modify (f : Forwarder → Forwarder) : M unit := λ s, (f s, Return tt).
Definition emit (e : Effect) : M unit := modify (add_trace e).

Definition console_log (msg : string) : M unit := emit (Console LogLevel msg None).
Definition console_error (msg : string) (error : option JSError) : M unit :=
  emit (Console ErrorLevel msg error).

(** [await p] *)
Definition await {A} (p : settled A) : M A :=
  match p with
  | Fulfilled a => mret a
  | RejectedWith e => throw e
  end.

(** [await Promise.resolve(x)] *)
Definition resolve {A} (x : awaitable A) : M A :=
  match x with
  | Immediate a => mret a
  | Promise p => await p
  end.

(** [await Promise.resolve(f(a))] for a caller-supplied [f]. *)
Definition call {A B} (f : callback A B) (a : A) : M B := λ s,
  let '(r, u) := f a (user s) in
  await r (set_user u s).

(** Run [f] on every element, in order, stopping at the first throw. *)
Fixpoint for_each {A} (l : list A) (f : A → M unit) : M unit :=
  match l with
  | [] => mret tt
  | x :: l' => f x;; for_each l' f
  end.

(** The webhook endpoint: what it answers to the [n]-th POST the forwarder
    issues, given the address and the payload. *)
Variable webhook : nat → string → jsval → HttpReply.

(** ** Resources *)

Definition lookup_resource (r : nat) : M (option Resource) := λ s,
  (s, Return (resources s !! r)).

Definition update_resource (r : nat) (f : Resource → Resource) : M unit :=
  modify (set_resources (λ l, match l !! r with
                              | Some x => <[r := f x]> l
                              | None => l
                              end)).

Definition with_activity (a : Activity) (x : Resource) : Resource :=
  {| owner := owner x; config := config x; activity := a; closed := closed x |}.

Definition with_closed (x : Resource) : Resource :=
  {| owner := owner x; config := config x; activity := activity x; closed := true |}.

(** Start a resource for subscription [id]; its number is the next free one. *)
Definition start (id : string) (cfg : ForwarderConfig) (a : Activity) : M nat := λ s,
  let r := length (resources s) in
  (set_resources (λ l, l ++ [ {| owner := id; config := cfg; activity := a; closed := false |} ]) s,
   Return r).

(** The finalizers RxJS runs when the subscriber of resource [r] closes:
    the socket is closed, the interval cleared, the custom source's
    teardown called.  A socket waiting to retry has no connection. *)
Definition finalize (r : nat) (x : Resource) : M unit :=
  match activity x with
  | SocketStream Connected _ => emit (SocketClosed r)
  | SocketStream AwaitingRetry _ => mret tt
  | PollStream _ => emit (IntervalCleared r)
  | FactorySetup _ => mret tt
  | CustomStream => emit (SourceUnsubscribed r)
  | External => mret tt
  end.

(** Close the subscriber of [r]: once closed it stays closed and its
    finalizers do not run again. *)
Definition close (r : nat) : M unit :=
  x ← lookup_resource r;
  match x with
  | Some x =>
      if closed x then mret tt
      else update_resource r with_closed;; finalize r x
  | None => mret tt
  end.

(** ** shouldProcessEvent *)

Definition request_body (cfg : ForwarderConfig) : option (awaitable jsval) :=
  requestConfig cfg ≫= body.

Definition shouldProcessEvent (id : string) (cfg : ForwarderConfig) : M bool :=
  match shouldFetch cfg with
  | None => mret true
  | Some gate =>
      resolvedBody ←
        match request_body cfg with
        | Some b => if awaitable_truthy b then resolve b else mret JUndefined
        | None => mret JUndefined
        end;
      emit (GateCalled resolvedBody);;
      should ← call gate resolvedBody;
      (if negb should then
         console_log ("[" +:+ id +:+ "] Skipping event processing based on shouldFetch condition")
       else mret tt);;
      mret should
  end.

(** ** forwardToWebhook *)

(** [fetch(webhookUrl, {method: 'POST', ...})]: the request goes out and the
    endpoint's answer to it comes back. *)
Definition post (url : string) (payload : jsval) : M Z := λ s,
  let s' := set_sent (S (sent s)) (add_trace (HttpPost url payload) s) in
  match webhook (sent s) url payload with
  | NetworkError e => (s', Throw e)
  | HttpResponse status _ _ => (s', Return status)
  end.

Definition forwardToWebhook (id webhookUrl : string) (data : jsval) : M unit :=
  try_catch
    (status ← post webhookUrl data;
     if negb (ok status) then throw (WebhookError status) else mret tt)
    (λ error,
       console_error ("[" +:+ id +:+ "] Error forwarding to webhook:") (Some error);;
       throw error).

(** ** The per-event pipeline

    The [next] handler that [subscribe] installs on the stream: lines
    289-309 for socket and polling streams, and the handler of lines
    240-266 for a custom stream, which has the same body. *)
Definition process_body (id : string) (cfg : ForwarderConfig) (data : jsval) : M unit :=
  should ← shouldProcessEvent id cfg;
  if negb should then
    console_log ("[" +:+ id +:+ "] Skipping process based on shouldFetch condition")
  else
    transformedData ←
      match transform cfg with
      | Some f => emit (TransformCalled data);; call f data
      | None => mret data
      end;
    forwardToWebhook id (webhookUrl cfg) transformedData.

Definition process_event (id : string) (cfg : ForwarderConfig) (data : jsval) : M unit :=
  try_catch (process_body id cfg data)
    (λ error, console_error ("[" +:+ id +:+ "] Error processing data:") (Some error)).

(** The [error] handler installed next to it. *)
Definition stream_error_handler (id : string) (error : JSError) : M unit :=
  console_error ("[" +:+ id +:+ "] Stream error:") (Some error).

(** [subscriber.next(data)]: nothing reaches a closed subscriber. *)
Definition subscriber_next (r : nat) (data : jsval) : M unit :=
  x ← lookup_resource r;
  match x with
  | Some x => if closed x then mret tt else process_event (owner x) (config x) data
  | None => mret tt
  end.

(** [subscriber.error(e)]: the error handler runs and the subscriber closes,
    which runs its finalizers; a closed subscriber ignores it. *)
Definition subscriber_error (r : nat) (error : JSError) : M unit :=
  x ← lookup_resource r;
  match x with
  | Some x =>
      if closed x then mret tt
      else stream_error_handler (owner x) error;; close r
  | None => mret tt
  end.

(** [subscriber.complete()]: no [complete] handler is installed. *)
Definition subscriber_complete (r : nat) : M unit := close r.

(** ** Stream strategies *)

(** [!x] on an optional string or number. *)
Definition falsy_string (x : option string) : bool :=
  match x with
  | None | Some EmptyString => true
  | Some _ => false
  end.

Definition falsy_number (x : option Z) : bool :=
  match x with
  | None | Some 0%Z => true
  | Some _ => false
  end.

(** The lazy observable a strategy returns; nothing runs until [subscribe]
    subscribes to it. *)
Inductive ColdStream :=
| ColdSocket (url : string)
| ColdPoll (period : Z) (url : string).

Definition createWebSocketStream (id : string) (cfg : ForwarderConfig) : M ColdStream :=
  if falsy_string (sourceUrl cfg) then
    throw (Error "sourceUrl is required for websocket sources")
  else mret (ColdSocket (default "" (sourceUrl cfg))).

Definition createPollingStream (id : string) (cfg : ForwarderConfig) : M ColdStream :=
  if falsy_number (pollInterval cfg) then
    throw (Error "Poll interval is required for polling sources")
  else if falsy_string (sourceUrl cfg) then
    throw (Error "sourceUrl is required for polling")
  else mret (ColdPoll (default 0%Z (pollInterval cfg)) (default "" (sourceUrl cfg))).

(** [stream$.subscribe({next, error})]: the socket is opened, or the
    interval started; [interval] takes a negative period for 0. *)
Definition subscribe_stream (id : string) (cfg : ForwarderConfig) (c : ColdStream) : M nat :=
  match c with
  | ColdSocket url =>
      r ← start id cfg (SocketStream Connected 0);
      emit (SocketOpened r url);;
      mret r
  | ColdPoll period url =>
      r ← start id cfg (PollStream []);
      emit (IntervalStarted r (Z.max 0 period));;
      mret r
  end.

(** *** Socket: deserializer, catchError, retry *)

(** The [deserializer] given to [webSocket]. *)
Definition deserializer (id : string) (msg : Parsed) : M jsval :=
  try_catch
    match msg with
    | Malformed => throw SyntaxError
    | Json v => await (validateInput v)
    end
    (λ error,
       console_error ("[" +:+ id +:+ "] WebSocket parse error:") (Some error);;
       throw error).

(** The arguments of [retry]: [count: 3], and a [delay] function whose
    notifier does one thing after [setTimeout(..., 5000)]. *)
Definition retry_count : nat := 3.
Definition retry_delay_ms : Z := 5000.

Inductive NotifierSignal :=
| NotifierNext
| NotifierComplete.

(** [setTimeout(() => subscriber.complete(), 5000)] *)
Definition delay_notifier_signal : NotifierSignal := NotifierComplete.

(** The source of [retry] fails with [error] while connected: [catchError]
    logs and rethrows; [retry] compares [soFar++] with [count] and either
    calls [delay] and subscribes to its notifier, or passes the error on.
    The failed connection is dropped. *)
Definition socket_error (r : nat) (x : Resource) (soFar : nat) (error : JSError) : M unit :=
  let id := owner x in
  console_error ("[" +:+ id +:+ "] WebSocket error:") (Some error);;
  if bool_decide (soFar < retry_count)%nat then
    console_log ("[" +:+ id +:+ "] Retrying connection... attempt " +:+ pretty (S soFar));;
    emit (TimeoutSet r retry_delay_ms);;
    emit (SocketClosed r);;
    update_resource r (with_activity (SocketStream AwaitingRetry (S soFar)))
  else
    update_resource r (with_activity (SocketStream Connected (S soFar)));;
    subscriber_error r error.

(** [socket.onmessage]: [try { observer.next(deserializer(e)) }
    catch (err) { observer.error(err) }] *)
Definition socket_message (r : nat) (x : Resource) (soFar : nat) (msg : Parsed) : M unit :=
  try_catch
    (data ← deserializer (owner x) msg;
     subscriber_next r data)
    (λ err, socket_error r x soFar err).

(** What [retry] does when the notifier it subscribed to signals (RxJS 7,
    [RetryConfig.delay]): when the notifier emits, [retry] resubscribes to
    the source (a new connection); when it completes without emitting, the
    resulting observable completes, without error. *)
Definition retry_resume (r : nat) (x : Resource) (soFar : nat) (signal : NotifierSignal) : M unit :=
  match signal with
  | NotifierNext =>
      update_resource r (with_activity (SocketStream Connected soFar));;
      emit (SocketOpened r (default "" (sourceUrl (config x))))
  | NotifierComplete => subscriber_complete r
  end.

(** *** Polling: one tick of [interval(config.pollInterval)] *)

(** [defaultFetch] up to the call of [fetch]. *)
Definition defaultFetch (id url : string) (rc : RequestConfig) : M InFlight :=
  if falsy_string (Some url) then throw (Error "URL is required for fetch")
  else
    let hdrs := mergeHeaders {[ "Content-Type" := "application/json" ]} (headers rc) in
    let meth := if falsy_string (method rc) then "GET" else default "GET" (method rc) in
    payload ←
      match body rc with
      | Some b => if defined (body rc) then v ← resolve b; mret (stringify v) else mret None
      | None => mret None
      end;
    emit (HttpRequest meth url hdrs payload);;
    mret HttpPending.

(** [defaultFetch] from the response on. *)
Definition defaultFetch_response (url : string) (reply : HttpReply) : M jsval :=
  match reply with
  | NetworkError e => throw e
  | HttpResponse status text json =>
      if negb (ok status) then throw (HttpStatusError status url text)
      else
        match json with
        | Malformed => throw SyntaxError
        | Json data => await (validateInput data)
        end
  end.

(** A call of [config.customFetch]: its promise is in flight. *)
Definition call_custom_fetch (f : callback (string * string * RequestConfig) jsval)
    (args : string * string * RequestConfig) : M InFlight := λ s,
  let '(res, u) := f args (user s) in
  (set_user u s, Return (CustomPending res)).

(** [fetchFn(id, config.sourceUrl, config.requestConfig || { headers: {} })]
    with [fetchFn = config.customFetch || this.defaultFetch]; the fetch then
    stays in flight. *)
Definition launch_fetch (r : nat) (id url : string) (cfg : ForwarderConfig) : M unit :=
  let rc := default {| method := None; headers := Some ∅; body := None |} (requestConfig cfg) in
  fl ←
    match customFetch cfg with
    | Some f =>
        emit (CustomFetchCalled id url rc);;
        call_custom_fetch f (id, url, rc)
    | None => defaultFetch id url rc
    end;
  update_resource r (λ x,
    match activity x with
    | PollStream inflight => with_activity (PollStream (inflight ++ [fl])) x
    | _ => x
    end).

Definition polling_error (r : nat) (id : string) (error : JSError) : M unit :=
  console_error ("[" +:+ id +:+ "] Polling error:") (Some error);;
  subscriber_error r error.

(** The callback of the interval, up to [await fetchFn(...)]. *)
Definition poll_tick (r : nat) (x : Resource) : M unit :=
  let id := owner x in
  let cfg := config x in
  try_catch
    (should ← shouldProcessEvent id cfg;
     if negb should then
       console_log ("[" +:+ id +:+ "] Skipping fetch based on shouldFetch condition")
     else if falsy_string (sourceUrl cfg) then
       throw (Error "sourceUrl is required for polling")
     else launch_fetch r id (default "" (sourceUrl cfg)) cfg)
    (polling_error r id).

(** The rest of the callback, once the fetch [fl] is answered. *)
Definition poll_fetch_done (r : nat) (x : Resource) (fl : InFlight) (reply : HttpReply) : M unit :=
  try_catch
    (result ←
       match fl with
       | CustomPending res => await res
       | HttpPending => defaultFetch_response (default "" (sourceUrl (config x))) reply
       end;
     subscriber_next r result)
    (polling_error r (owner x)).

(** *** Custom: the promise of the factory settles

    [from(promise)] delivers the value and completes, or delivers the
    error.  The [next] handler subscribes to the observable it is given and
    records that subscription, or records the cleanup function. *)
Definition setup_next (id : string) (cfg : ForwarderConfig) (result : FactoryYield) : M unit :=
  match result with
  | YieldObservable o =>
      streamSub ← start id cfg CustomStream;
      emit (SourceSubscribed streamSub);;
      for_each (emits_on_subscribe o) (subscriber_next streamSub);;
      modify (set_subs <[id := SubscriptionHandle streamSub]>)
  | YieldCleanup =>
      ext ← start id cfg External;
      modify (set_subs <[id := CleanupHandle ext]>)
  end.

Definition setup_settled (r : nat) (x : Resource) (p : settled FactoryYield) : M unit :=
  match p with
  | Fulfilled result =>
      setup_next (owner x) (config x) result;;
      subscriber_complete r
  | RejectedWith error =>
      console_error ("[" +:+ owner x +:+ "] Custom stream setup error:") (Some error);;
      close r
  end.

(** ** unsubscribe, unsubscribeAll, subscribe

    [unsubscribe] and [subscribe] are first written for a key under which
    [this.subs[id]] can only be an entry of the registry, that is for every
    key that is not a property name of [Object.prototype]; [unsubscribe_key]
    and [subscribe_key] below are the two methods on any key, and it is
    those that a caller of the forwarder runs.  [unsubscribeAll] goes
    through the keys the registry holds, for which [this.subs[id]] is the
    registry's entry. *)

(** [sub()] or [sub.unsubscribe()] *)
Definition teardown (sub : Handle) : M unit :=
  match sub with
  | CleanupHandle r => emit (CleanupCalled r);; close r
  | SubscriptionHandle r => close r
  end.

Definition unsubscribe (id : string) : M unit :=
  s ← get;
  match subs s !! id with
  | Some sub =>
      teardown sub;;
      modify (set_subs (delete id))
  | None => mret tt
  end.

(** [Object.keys(this.subs)], in the order the map lists its keys. *)
Definition keys (m : gmap string Handle) : list string := (map_to_list m).*1.

Definition unsubscribeAll : M unit :=
  s ← get;
  for_each (keys (subs s)) unsubscribe.

Definition call_factory (factory : U → FactoryCall * U) : M (settled FactoryYield) := λ s,
  let '(c, u) := factory (user s) in
  let s' := set_user u (add_trace FactoryCalled s) in
  match c with
  | FactoryThrows e => (s', Throw e)
  | FactoryReturns p => (s', Return p)
  end.

(** The private method [createCustomStream], which no method of the class
    calls: the check and the call of the factory that [subscribe] writes
    out again, with a message of its own. *)
Definition createCustomStream (cfg : ForwarderConfig) : M (settled FactoryYield) :=
  match createStream cfg with
  | None => throw (Error "createStream is required for custom sources")
  | Some factory => call_factory factory
  end.

Definition subscribe (id : string) (cfg : ForwarderConfig) : M string :=
  s ← get;
  match subs s !! id with
  | Some _ =>
      console_log ("[" +:+ id +:+ "] Cleaning up existing subscription before resubscribing");;
      unsubscribe id
  | None => mret tt
  end;;
  match type cfg with
  | custom =>
      promise ←
        match createStream cfg with
        | Some factory => call_factory factory
        | None => throw (Error ("[" +:+ id +:+ "] createStream is required for custom sources"))
        end;
      subscription ← start id cfg (FactorySetup promise);
      s ← get;
      match subs s !! id with
      | None => modify (set_subs <[id := SubscriptionHandle subscription]>)
      | Some _ => mret tt
      end
  | _ =>
      stream ←
        match type cfg with
        | websocket => createWebSocketStream id cfg
        | _ => createPollingStream id cfg
        end;
      subscription ← subscribe_stream id cfg stream;
      modify (set_subs <[id := SubscriptionHandle subscription]>)
  end;;
  mret id.

(** *** The two methods on any key *)

(** What [this.subs[id]] evaluates to when it is not undefined: the entry
    the registry holds, or else the value inherited under that name.  (The
    registry never comes to hold an entry of its own under [__proto__]:
    [subscribe] raises on that key before it starts or records anything.) *)
Inductive Slot :=
| OwnEntry (h : Handle)
| InheritedValue (i : Inherited).

Definition read_subs (m : gmap string Handle) (id : string) : option Slot :=
  match m !! id with
  | Some h => Some (OwnEntry h)
  | None => InheritedValue <$> object_prototype id
  end.

(** [sub()] or [sub.unsubscribe()] on an inherited value. *)
Definition call_inherited (i : Inherited) : M unit :=
  match i with
  | InheritedObject => throw TypeError
  | InheritedMethod needs_receiver =>
      if needs_receiver then throw TypeError else mret tt
  end.

(** [delete this.subs[id]] removes the registry's own entry, if any, and
    never what is inherited. *)
Definition unsubscribe_key (id : string) : M unit :=
  s ← get;
  match read_subs (subs s) id with
  | Some sub =>
      match sub with
      | OwnEntry h => teardown h
      | InheritedValue i => call_inherited i
      end;;
      modify (set_subs (delete id))
  | None => mret tt
  end.

Definition subscribe_key (id : string) (cfg : ForwarderConfig) : M string :=
  s ← get;
  match read_subs (subs s) id with
  | Some _ =>
      console_log ("[" +:+ id +:+ "] Cleaning up existing subscription before resubscribing");;
      unsubscribe_key id
  | None => mret tt
  end;;
  match type cfg with
  | custom =>
      promise ←
        match createStream cfg with
        | Some factory => call_factory factory
        | None => throw (Error ("[" +:+ id +:+ "] createStream is required for custom sources"))
        end;
      subscription ← start id cfg (FactorySetup promise);
      s ← get;
      match read_subs (subs s) id with
      | None => modify (set_subs <[id := SubscriptionHandle subscription]>)
      | Some _ => mret tt
      end
  | _ =>
      stream ←
        match type cfg with
        | websocket => createWebSocketStream id cfg
        | _ => createPollingStream id cfg
        end;
      subscription ← subscribe_stream id cfg stream;
      modify (set_subs <[id := SubscriptionHandle subscription]>)
  end;;
  mret id.

(** ** The forwarder as a reactive system *)

(** Calls of the API, and what the environment can make happen to a
    resource: its interval fires, a fetch of it is answered, its socket
    receives a frame, breaks or ends, its retry timer fires, the promise of
    its factory settles, its custom source emits, fails or completes.

    A reaction runs to its end before the next event is taken.  The one
    [await] that is left open across events is the fetch of a polling tick,
    which may be answered after later ticks; a pipeline run (gate,
    transform, forward) is one reaction, so the awaits inside it are not
    interleaved with other events. *)
Inductive Event :=
| CallSubscribe (id : string) (cfg : ForwarderConfig)
| CallUnsubscribe (id : string)
| CallUnsubscribeAll
| Tick (r : nat)
| FetchDone (r i : nat) (reply : HttpReply)
| Frame (r : nat) (msg : Parsed)
| SocketFailed (r : nat) (e : JSError)
| SocketEnded (r : nat)
| RetryTimer (r : nat)
| Settled (r : nat)
| Emitted (r : nat) (data : jsval)
| SourceFailed (r : nat) (e : JSError)
| SourceCompleted (r : nat).

(** An event of resource [r] that only matters while its subscriber is
    open. *)
Definition while_open (r : nat) (k : Resource → M unit) : M unit :=
  x ← lookup_resource r;
  match x with
  | Some x => if closed x then mret tt else k x
  | None => mret tt
  end.

Definition react (ev : Event) : M unit :=
  match ev with
  | CallSubscribe id cfg => subscribe_key id cfg;; mret tt
  | CallUnsubscribe id => unsubscribe_key id
  | CallUnsubscribeAll => unsubscribeAll
  | Tick r =>
      while_open r (λ x,
        match activity x with
        | PollStream _ => poll_tick r x
        | _ => mret tt
        end)
  | FetchDone r i reply =>
      (* the callback of the tick runs on even if the stream was closed *)
      x ← lookup_resource r;
      match x with
      | Some x =>
          match activity x with
          | PollStream inflight =>
              match inflight !! i with
              | Some fl =>
                  update_resource r (with_activity (PollStream (delete i inflight)));;
                  poll_fetch_done r x fl reply
              | None => mret tt
              end
          | _ => mret tt
          end
      | None => mret tt
      end
  | Frame r msg =>
      while_open r (λ x,
        match activity x with
        | SocketStream Connected soFar => socket_message r x soFar msg
        | _ => mret tt
        end)
  | SocketFailed r e =>
      while_open r (λ x,
        match activity x with
        | SocketStream Connected soFar => socket_error r x soFar e
        | _ => mret tt
        end)
  | SocketEnded r =>
      while_open r (λ x,
        match activity x with
        | SocketStream Connected _ => subscriber_complete r
        | _ => mret tt
        end)
  | RetryTimer r =>
      while_open r (λ x,
        match activity x with
        | SocketStream AwaitingRetry soFar => retry_resume r x soFar delay_notifier_signal
        | _ => mret tt
        end)
  | Settled r =>
      while_open r (λ x,
        match activity x with
        | FactorySetup p => setup_settled r x p
        | _ => mret tt
        end)
  | Emitted r data =>
      while_open r (λ x,
        match activity x with
        | CustomStream => subscriber_next r data
        | _ => mret tt
        end)
  | SourceFailed r e =>
      while_open r (λ x,
        match activity x with
        | CustomStream => subscriber_error r e
        | _ => mret tt
        end)
  | SourceCompleted r =>
      while_open r (λ x,
        match activity x with
        | CustomStream => subscriber_complete r
        | _ => mret tt
        end)
  end.

Definition step (s : Forwarder) (ev : Event) : Forwarder := (react ev s).1.

Definition run (evs : list Event) (s : Forwarder) : Forwarder := foldl step s evs.

End Model.

(** * Specification vocabulary *)

Section Specs.

Context {U : Type}.

Implicit Types (s : @Forwarder U) (x : @Resource U) (cfg : @ForwarderConfig U).

(** Every run of [m] relates the state before to the state after by [R]. *)
Definition preserves {A} (R : relation (@Forwarder U)) (m : M A) : Prop :=
  ∀ s, R s (m s).1.

(** [m] never ends with an exception. *)
Definition returns {A} (m : M A) : Prop :=
  ∀ s, ∃ a, (m s).2 = Return a.

(** The registry and the resources are left as they are. *)
Definition keeps : relation (@Forwarder U) := λ s s',
  subs s' = subs s ∧ resources s' = resources s.

(** Resource [r] is running in [s]. *)
Definition running (s : @Forwarder U) (r : nat) : Prop :=
  ∃ x, resources s !! r = Some x ∧ closed x = false.

(** Resource [r] exists in [s] and has been stopped. *)
Definition stopped (s : @Forwarder U) (r : nat) : Prop :=
  ∃ x, resources s !! r = Some x ∧ closed x = true.

(** How the list of resources may change: a resource stays where it is,
    keeps its owner and configuration, and once closed stays closed. *)
Definition evolves (l l' : list (@Resource U)) : Prop :=
  ∀ r x, l !! r = Some x →
    ∃ x', l' !! r = Some x' ∧ owner x' = owner x ∧ config x' = config x
          ∧ (closed x = true → closed x' = true).

(** What every reaction does: resources evolve and the trace grows. *)
Definition advances : relation (@Forwarder U) := λ s s',
  evolves (resources s) (resources s') ∧ trace s `prefix_of` trace s'.

(** A reaction that leaves the registry alone and starts nothing. *)
Definition quiet : relation (@Forwarder U) := λ s s',
  subs s' = subs s
  ∧ length (resources s') = length (resources s)
  ∧ advances s s'.




(** The states a forwarder can be in: those reached from a new forwarder by
    calls of its API and events of its environment. *)
Definition reachable (webhook : nat → string → jsval → HttpReply)
    (s : @Forwarder U) : Prop :=
  ∃ u evs, s = run webhook evs (new_forwarder u).



(** The events that may change the registry: the calls of the API, and the
    settling of a factory's promise. *)
Definition registry_event (ev : @Event U) : bool :=
  match ev with
  | CallSubscribe _ _ | CallUnsubscribe _ | CallUnsubscribeAll | Settled _ => true
  | _ => false
  end.

(** A frame the deserializer rejects, and the error it raises: the text
    does not parse, or it parses to a falsy value. *)
Inductive bad_frame : Parsed → JSError → Prop :=
| bad_frame_syntax : bad_frame Malformed SyntaxError
| bad_frame_falsy v :
    truthy v = false → bad_frame (Json v) (Error "Invalid input data").

(** A reply that makes [defaultFetch] fail, and the error it raises: the
    transport failed, or the status is not 2xx. *)
Inductive failed_reply (url : string) : HttpReply → JSError → Prop :=
| failed_transport e : failed_reply url (NetworkError e) e
| failed_status status text json :
    ok status = false →
    failed_reply url (HttpResponse status text json) (HttpStatusError status url text).

(** What the gate is given: the value of the request body when that body is
    a promise or a truthy plain value, and undefined when it is absent or a
    falsy plain value. *)
Inductive gate_context (cfg : @ForwarderConfig U) : jsval → Prop :=
| gate_context_absent :
    request_body cfg = None → gate_context cfg JUndefined
| gate_context_falsy v :
    request_body cfg = Some (Immediate v) → truthy v = false →
    gate_context cfg JUndefined
| gate_context_value v :
    request_body cfg = Some (Immediate v) → truthy v = true →
    gate_context cfg v
| gate_context_promise v :
    request_body cfg = Some (Promise (Fulfilled v)) → gate_context cfg v.

(** *** Accounting for what a reaction may do *)

Definition is_gate_call (e : Effect) : bool :=
  match e with GateCalled _ => true | _ => false end.

Definition is_post (e : Effect) : bool :=
  match e with HttpPost _ _ => true | _ => false end.

(** The number of times the gate has been called. *)
Definition gate_calls (t : list Effect) : nat :=
  length (List.filter is_gate_call t).

Definition is_poll (x : @Resource U) : Prop :=
  ∃ l, activity x = PollStream l.

(** The fetches of resource [r] that are in flight. *)
Definition inflight_of (s : @Forwarder U) (r : nat) : list InFlight :=
  match resources s !! r with
  | Some x => match activity x with PollStream l => l | _ => [] end
  | None => []
  end.

(** What a program is allowed to do besides logging: call the gate, post
    to the webhook, run caller code that changes the caller's state, change
    what a resource is doing. *)
Record Licence := {
  may_call_gate : bool;
  may_post : bool;
  may_change_user : bool;
  may_change_activity : bool;
}.

Definition permitted (lic : Licence) (e : Effect) : Prop :=
  (is_gate_call e = true → may_call_gate lic = true)
  ∧ (is_post e = true → may_post lic = true).

(** The state after differs from the state before by no more than the
    licence allows; the registry is untouched and nothing is started. *)
Definition within (lic : Licence) : relation (@Forwarder U) := λ s s',
  subs s' = subs s
  ∧ (∃ t, trace s' = trace s ++ t ∧ Forall (permitted lic) t)
  ∧ (may_post lic = false → sent s' = sent s)
  ∧ (may_change_user lic = false → user s' = user s)
  ∧ length (resources s') = length (resources s)
  ∧ (∀ r x', resources s' !! r = Some x' →
       ∃ x, resources s !! r = Some x
            ∧ owner x' = owner x ∧ config x' = config x
            ∧ (closed x = true → closed x' = true)
            ∧ (is_poll x → is_poll x')
            ∧ (may_change_activity lic = false → activity x' = activity x)).

(** Logging and closing only. *)
Definition no_licence : Licence :=
  {| may_call_gate := false; may_post := false;
     may_change_user := false; may_change_activity := false |}.

(** Launching a fetch: the default one, or the caller's. *)
Definition fetch_licence (caller_code : bool) : Licence :=
  {| may_call_gate := false; may_post := false;
     may_change_user := caller_code; may_change_activity := true |}.

(** Anything a reaction to the environment does. *)
Definition full_licence : Licence :=
  {| may_call_gate := true; may_post := true;
     may_change_user := true; may_change_activity := true |}.

(** Transforming and forwarding. *)
Definition forward_licence : Licence :=
  {| may_call_gate := false; may_post := true;
     may_change_user := true; may_change_activity := false |}.

(** How a fetch in flight ends, given what the network answers. *)
Definition fetch_outcome (url : string) (fl : InFlight) (reply : HttpReply) : settled jsval :=
  match fl with
  | CustomPending res => res
  | HttpPending =>
      match reply with
      | NetworkError e => RejectedWith e
      | HttpResponse status text json =>
          if negb (ok status) then RejectedWith (HttpStatusError status url text)
          else
            match json with
            | Malformed => RejectedWith SyntaxError
            | Json data => validateInput data
            end
      end
  end.

(** *** Keys *)

(** A key under which [this.subs[id]] can only be an entry of the registry:
    one that is no property name of [Object.prototype]. *)
Definition ordinary (id : string) : Prop := object_prototype id = None.

(** Tearing down what [this.subs[id]] yields in [s] raises: the registry
    holds no entry under [id], and what is inherited under that name is the
    prototype object or a method that needs a receiver. *)
Definition blocked (s : @Forwarder U) (id : string) : bool :=
  match read_subs (subs s) id with
  | Some (InheritedValue InheritedObject)
  | Some (InheritedValue (InheritedMethod true)) => true
  | _ => false
  end.

(** [subscribe] for a custom source records the setup subscription only if
    [this.subs[id]] is undefined once the key has been cleaned up, which an
    inherited name never is; the two other kinds always record. *)
Definition records (id : string) (cfg : @ForwarderConfig U) : bool :=
  match type cfg with
  | custom => bool_decide (ordinary id)
  | _ => true
  end.


(** *** Sentences of the specification, as they are worded *)



(** Poll-tick isolation: after a fetch of [r] has failed, the stream is
    still running and its next tick issues a fetch. *)
Definition survives_fetch_failure (webhook : nat → string → jsval → HttpReply)
    (s : @Forwarder U) (r i : nat) (reply : HttpReply) : Prop :=
  let s1 := step webhook s (FetchDone r i reply) in
  running s1 r
  ∧ ∃ t meth url hdrs payload,
      trace (step webhook s1 (Tick r)) = trace s1 ++ t
      ∧ HttpRequest meth url hdrs payload ∈ t.


(** After the frame [msg], the connection of [r] is still open. *)
Definition stays_open_after_frame (webhook : nat → string → jsval → HttpReply)
    (s : @Forwarder U) (r : nat) (msg : Parsed) : Prop :=
  let s1 := step webhook s (Frame r msg) in
  ∃ x soFar, resources s1 !! r = Some x ∧ closed x = false
             ∧ activity x = SocketStream Connected soFar.


(** The caller's [customFetch], if any, leaves the caller's state as it
    finds it (the state of the gate is the gate's own). *)
Definition private_fetch (cfg : @ForwarderConfig U) : Prop :=
  ∀ f, customFetch cfg = Some f → ∀ args u, (f args u).2 = u.

(** The only configuration the calls of [subscribe] in [evs] use is [cfg]. *)
Definition only_config (cfg : @ForwarderConfig U) (evs : list (@Event U)) : Prop :=
  Forall (λ ev, ∀ id c, ev = CallSubscribe id c → c = cfg) evs.

(** *** Further vocabulary *)

(** The values [validateInput] turns down. *)
Definition falsy_values : list jsval :=
  [JUndefined; JNull; JBool false; JNum 0; JStr ""].

Definition is_console (e : Effect) : bool :=
  match e with Console _ _ _ => true | _ => false end.

Definition is_request (e : Effect) : bool :=
  match e with HttpRequest _ _ _ _ => true | _ => false end.

(** The number of requests the forwarder has sent to sources. *)
Definition requests (t : list Effect) : nat :=
  length (List.filter is_request t).

Definition is_socket_open (r : nat) (e : Effect) : bool :=
  match e with SocketOpened r' _ => bool_decide (r' = r) | _ => false end.

(** The number of connections opened for resource [r]. *)
Definition connections (r : nat) (t : list Effect) : nat :=
  length (List.filter (is_socket_open r) t).

(** The effects that open no connection. *)
Definition opens_nothing (e : Effect) : Prop := ∀ r, is_socket_open r e = false.

(** The trace has grown by effects that all satisfy [P]. *)
Definition adds (P : Effect → Prop) : relation (@Forwarder U) := λ s s',
  ∃ t, trace s' = trace s ++ t ∧ Forall P t.

(** A call of the API, as opposed to an event of the environment. *)
Definition api_call (ev : @Event U) : bool :=
  match ev with
  | CallSubscribe _ _ | CallUnsubscribe _ | CallUnsubscribeAll => true
  | _ => false
  end.

(** The resource an event of the environment happens to. *)
Definition event_resource (ev : @Event U) : option nat :=
  match ev with
  | CallSubscribe _ _ | CallUnsubscribe _ | CallUnsubscribeAll => None
  | Tick r | FetchDone r _ _ | Frame r _ | SocketFailed r _ | SocketEnded r
  | RetryTimer r | Settled r | Emitted r _ | SourceFailed r _ | SourceCompleted r =>
      Some r
  end.

(** Nothing changes apart from resource [r], resources started since,
    and the registry entry of key [o]. *)
Definition apart (r : nat) (o : string) : relation (@Forwarder U) := λ s s',
  length (resources s) ≤ length (resources s')
  ∧ (∀ r', r' ≠ r → r' < length (resources s) →
       resources s' !! r' = resources s !! r')
  ∧ (∀ id, id ≠ o → subs s' !! id = subs s !! id).

(** Every registry entry names a resource that was started for its key. *)
Definition entries_own (s : @Forwarder U) : Prop :=
  ∀ id h, subs s !! id = Some h →
    ∃ x, resources s !! handle_resource h = Some x ∧ owner x = id.


(** A fetch that was answered, but not with an event: the body of a 2xx
    response does not parse or parses to a falsy value, or the promise of
    the caller's [customFetch] rejects. *)
Inductive unusable_result : InFlight → HttpReply → JSError → Prop :=
| unusable_syntax status text :
    ok status = true →
    unusable_result HttpPending (HttpResponse status text Malformed) SyntaxError
| unusable_falsy status text v :
    ok status = true → truthy v = false →
    unusable_result HttpPending (HttpResponse status text (Json v))
      (Error "Invalid input data")
| unusable_custom e reply :
    unusable_result (CustomPending (RejectedWith e)) reply e.


(** The request configuration a tick hands to the fetch function:
    [config.requestConfig || { headers: {} }]. *)
Definition fetch_config (cfg : @ForwarderConfig U) : RequestConfig :=
  default {| method := None; headers := Some ∅; body := None |} (requestConfig cfg).

(** The default fetch of [cfg] can build its request: there is an address,
    and the request body, if it is a promise, fulfils. *)
Definition can_request (cfg : @ForwarderConfig U) : Prop :=
  falsy_string (sourceUrl cfg) = false
  ∧ ∀ e, body (fetch_config cfg) ≠ Some (Promise (RejectedWith e)).

End Specs.

(** A gate that lets through its first call only: the caller's state counts
    the calls. *)
Definition once_gate : @callback nat jsval bool :=
  λ _ n, (Fulfilled (Nat.eqb n 0), S n).

(** ** Sample configurations

    The caller's state is a counter of the calls of its gate. *)

Definition ok_webhook : nat → string → jsval → HttpReply :=
  λ _ _ _, HttpResponse 200 "ok" (Json (JObj [("status", JStr "ok")])).

Definition reading : jsval :=
  JObj [("deviceId", JStr "sensor-001"); ("temperature", JNum 25)].

Definition ok_reply : HttpReply := HttpResponse 200 "" (Json reading).

Definition server_error : HttpReply := HttpResponse 500 "Internal Server Error" Malformed.

(** A gate that always lets through, and counts its calls. *)
Definition always_gate : @callback nat jsval bool :=
  λ _ n, (Fulfilled true, S n).

Definition sample_config (t : SourceType) (url : option string) (interval : option Z)
    (rc : option RequestConfig) (gate : option (@callback nat jsval bool))
    (tr : option (@callback nat jsval jsval))
    (factory : option (nat → FactoryCall * nat)) : @ForwarderConfig nat :=
  {| type := t; sourceUrl := url; webhookUrl := "https://api.example.com/webhook";
     requestConfig := rc; pollInterval := interval; shouldFetch := gate;
     customFetch := None; transform := tr; createStream := factory |}.

Definition socket_config : @ForwarderConfig nat :=
  sample_config websocket (Some "wss://sensors.example.com/stream") None None None None None.


Definition poll_config (gate : option (@callback nat jsval bool)) : @ForwarderConfig nat :=
  sample_config poll (Some "https://api.example.com/data") (Some 5000%Z) None gate None None.

Definition custom_config (p : settled FactoryYield)
    (tr : option (@callback nat jsval jsval)) : @ForwarderConfig nat :=
  sample_config custom None None None None tr (Some (λ u, (FactoryReturns p, u))).



Definition failing_transform : @callback nat jsval jsval :=
  λ _ n, (RejectedWith (UserError "bad reading"), n).

Definition empty_stream : settled FactoryYield :=
  Fulfilled (YieldObservable {| emits_on_subscribe := [] |}).


(** A forwarder with one socket subscription, just connected. *)
Definition socket_state : @Forwarder nat :=
  run ok_webhook [CallSubscribe "sensor-stream" socket_config] (new_forwarder 0).

Definition socket_resource : @Resource nat :=
  {| owner := "sensor-stream"; config := socket_config;
     activity := SocketStream Connected 0; closed := false |}.

(** A forwarder with one polling subscription, after its first tick. *)
Definition polling_state (gate : option (@callback nat jsval bool)) : @Forwarder nat :=
  run ok_webhook [CallSubscribe "api-poll" (poll_config gate); Tick 0] (new_forwarder 0).

Definition polling_resource (gate : option (@callback nat jsval bool))
    (l : list InFlight) : @Resource nat :=
  {| owner := "api-poll"; config := poll_config gate;
     activity := PollStream l; closed := false |}.

(** A forwarder with one custom subscription whose stream is running. *)
Definition custom_state : @Forwarder nat :=
  run ok_webhook
    [CallSubscribe "custom-source" (custom_config empty_stream (Some failing_transform));
     Settled 0]
    (new_forwarder 0).

Definition custom_resource : @Resource nat :=
  {| owner := "custom-source";
     config := custom_config empty_stream (Some failing_transform);
     activity := CustomStream; closed := false |}.

(** A gate that never lets through, and one whose promise rejects. *)
Definition never_gate : @callback nat jsval bool :=
  λ _ n, (Fulfilled false, S n).

Definition failing_gate : @callback nat jsval bool :=
  λ _ n, (RejectedWith (UserError "gate down"), S n).

(** A transform that wraps the reading. *)
Definition wrap_transform : @callback nat jsval jsval :=
  λ data n, (Fulfilled (JObj [("reading", data)]), n).

(** A custom source behind a gate and a transform. *)
Definition gated_transform_config : @ForwarderConfig nat :=
  sample_config custom None None None (Some always_gate) (Some wrap_transform)
    (Some (λ u, (FactoryReturns empty_stream, u))).

(** A polling source whose request body is a promise that rejects. *)
Definition rejected_body_config : @ForwarderConfig nat :=
  sample_config poll (Some "https://api.example.com/data") (Some 5000%Z)
    (Some {| method := Some "POST"; headers := None;
             body := Some (Promise (RejectedWith (UserError "no token"))) |})
    None None None.









(** A forwarder that has just subscribed under [id] with [cfg]. *)
Definition subscribed (id : string) (cfg : @ForwarderConfig nat) : @Forwarder nat :=
  run ok_webhook [CallSubscribe id cfg] (new_forwarder 0).

(** The resource [subscribed id cfg] has started. *)
Definition first_resource (id : string) (cfg : @ForwarderConfig nat) (a : Activity) :
    @Resource nat :=
  {| owner := id; config := cfg; activity := a; closed := false |}.

(** What holds of a forwarder all of whose subscriptions are polling streams
    behind [once_gate]: nothing has been forwarded, and no fetch is in
    flight before the gate's first call. *)
Definition once_inv (cfg : @ForwarderConfig nat) (s : @Forwarder nat) : Prop :=
  sent s = 0
  ∧ ∀ r x, resources s !! r = Some x →
      config x = cfg ∧ is_poll x ∧ (user s = 0 → inflight_of s r = []).

(** * Properties *)

Section Properties.

Context {U : Type} (webhook : nat → string → jsval → HttpReply).

(* A lemma depends on the webhook only if its statement mentions it. *)
#[local] Set Default Proof Using "Type".

Implicit Types (s : @Forwarder U) (x : @Resource U) (cfg : @ForwarderConfig U).

#[local] Abbreviation keeps := (@keeps U).
#[local] Abbreviation returns := (@returns U _).
#[local] Abbreviation quiet := (@quiet U).
#[local] Abbreviation within := (@within U).

#[local] Instance keeps_preorder : PreOrder keeps.
Proof.
  split.
  - intros s. split; reflexivity.
  - intros s1 s2 s3 [H1 H2] [H3 H4]. split; congruence.
Qed.

#[local] Instance evolves_preorder : PreOrder (@evolves U).
Proof.
  split.
  - intros l r x Hx. exists x. done.
  - intros l1 l2 l3 H12 H23 r x Hx.
    destruct (H12 r x Hx) as (x' & Hx' & Ho & Hc & Hcl).
    destruct (H23 r x' Hx') as (x'' & Hx'' & Ho' & Hc' & Hcl').
    exists x''. split_and!; [done | congruence | congruence | auto].
Qed.

#[local] Instance advances_preorder : PreOrder (@advances U).
Proof.
  split.
  - intros s. split; reflexivity.
  - intros s1 s2 s3 [H1 H2] [H3 H4]. split; etrans; eauto.
Qed.

#[local] Instance quiet_preorder : PreOrder quiet.
Proof.
  split.
  - intros s. split_and!; reflexivity.
  - intros s1 s2 s3 (H1 & H2 & H3) (H4 & H5 & H6).
    split_and!; [congruence | congruence | etrans; eauto].
Qed.

Lemma keeps_quiet s s' : keeps s s' → trace s `prefix_of` trace s' → quiet s s'.
Proof.
  intros [Hs Hr] Ht. split_and!; [done | by rewrite Hr |].
  split; [by rewrite Hr | done].
Qed.

Lemma evolves_insert (l : list (@Resource U)) r x y :
  l !! r = Some x → owner y = owner x → config y = config x →
  (closed x = true → closed y = true) →
  evolves l (<[r := y]> l).
Proof.
  intros Hr Ho Hc Hcl r' x' Hx'.
  destruct (decide (r' = r)) as [->|Hne].
  - exists y. rewrite list_lookup_insert_eq by (by eapply lookup_lt_Some).
    simplify_eq. done.
  - exists x'. by rewrite list_lookup_insert_ne.
Qed.

Lemma evolves_app (l k : list (@Resource U)) : evolves l (l ++ k).
Proof.
  intros r x Hx. exists x. split_and!; try done.
  by apply lookup_app_l_Some.
Qed.




(** ** Rules for [preserves] and [returns] *)

Lemma preserves_ret {A} (R : relation (@Forwarder U)) `{!Reflexive R} (a : A) :
  preserves R (mret a).
Proof. intros s. reflexivity. Qed.

Lemma preserves_throw {A} (R : relation (@Forwarder U)) `{!Reflexive R} e :
  preserves R (throw (A := A) e).
Proof. intros s. reflexivity. Qed.

Lemma preserves_bind {A B} (R : relation (@Forwarder U)) `{!Transitive R}
    (m : M A) (k : A → M B) :
  preserves R m → (∀ a, preserves R (k a)) → preserves R (m ≫= k).
Proof.
  intros Hm Hk s. unfold mbind, M_bind.
  specialize (Hm s). destruct (m s) as [s' [a|e]]; simpl in *.
  - etrans; [exact Hm | apply Hk].
  - exact Hm.
Qed.

Lemma preserves_try {A} (R : relation (@Forwarder U)) `{!Transitive R}
    (body : M A) (handler : JSError → M A) :
  preserves R body → (∀ e, preserves R (handler e)) →
  preserves R (try_catch body handler).
Proof.
  intros Hm Hk s. unfold try_catch.
  specialize (Hm s). destruct (body s) as [s' [a|e]]; simpl in *.
  - exact Hm.
  - etrans; [exact Hm | apply Hk].
Qed.

Lemma preserves_for_each {A} (R : relation (@Forwarder U)) `{!PreOrder R}
    (l : list A) (f : A → M unit) :
  (∀ a, preserves R (f a)) → preserves R (for_each l f).
Proof.
  intros Hf. induction l as [|a l IH]; simpl.
  - apply preserves_ret; apply _.
  - apply preserves_bind; [apply _ | apply Hf | intros _; exact IH].
Qed.

Lemma returns_ret {A} (a : A) : returns (mret a).
Proof. intros s. by exists a. Qed.

Lemma returns_bind {A B} (m : M A) (k : A → M B) :
  returns m → (∀ a, returns (k a)) → returns (m ≫= k).
Proof.
  intros Hm Hk s. unfold mbind, M_bind.
  destruct (Hm s) as [a Ha]. destruct (m s) as [s' o]; simpl in *; subst o.
  apply Hk.
Qed.

Lemma returns_try {A} (body : M A) (handler : JSError → M A) :
  (∀ e, returns (handler e)) → returns (try_catch body handler).
Proof.
  intros Hk s. unfold try_catch.
  destruct (body s) as [s' [a|e]]; simpl; [by exists a | apply Hk].
Qed.

Lemma returns_for_each {A} (l : list A) (f : A → M unit) :
  (∀ a, returns (f a)) → returns (for_each l f).
Proof.
  intros Hf. induction l as [|a l IH]; simpl.
  - apply returns_ret.
  - apply returns_bind; [apply Hf | intros _; exact IH].
Qed.

Lemma returns_modify (f : @Forwarder U → @Forwarder U) : returns (modify f).
Proof. intros s. by exists tt. Qed.

Lemma returns_emit (e : Effect) : returns (emit e).
Proof. apply returns_modify. Qed.

(** ** What the pipeline leaves alone *)

Create HintDb keeps discriminated.

Lemma keeps_modify_trace (e : Effect) : preserves keeps (emit e).
Proof. intros s. split; reflexivity. Qed.

Lemma keeps_console_log msg : preserves keeps (console_log msg).
Proof. apply keeps_modify_trace. Qed.

Lemma keeps_console_error msg e : preserves keeps (console_error msg e).
Proof. apply keeps_modify_trace. Qed.

Lemma keeps_await {A} (p : settled A) : preserves keeps (await p).
Proof. intros s. destruct p; split; reflexivity. Qed.

Lemma keeps_resolve {A} (b : awaitable A) : preserves keeps (resolve b).
Proof. intros s. destruct b as [a|[a|e]]; split; reflexivity. Qed.

Lemma keeps_call {A B} (f : @callback U A B) (a : A) : preserves keeps (call f a).
Proof.
  intros s. unfold call. destruct (f a (user s)) as [[b|e] u]; split; reflexivity.
Qed.

Lemma keeps_post url payload : preserves keeps (post webhook url payload).
Proof.
  intros s. unfold post. destruct (webhook _ _ _); split; reflexivity.
Qed.

#[local] Hint Resolve keeps_modify_trace keeps_console_log keeps_console_error
  keeps_await keeps_resolve keeps_call keeps_post : keeps.

(** Break a monadic program into its parts, for a goal [preserves R m];
    [known] closes the parts already dealt with. *)
Ltac preserves_with known :=
  repeat first
    [ solve [known]
    | apply preserves_ret; apply _
    | apply preserves_throw; apply _
    | apply preserves_bind; [apply _ | | intros ?]
    | apply preserves_try; [apply _ | | intros ?]
    | apply preserves_for_each; [apply _ | intros ?]
    | match goal with
      | |- preserves _ (match ?c with _ => _ end) => destruct c
      end ].

Ltac preserves_parts := preserves_with ltac:(auto with keeps).

Lemma keeps_shouldProcessEvent id cfg : preserves keeps (shouldProcessEvent id cfg).
Proof. unfold shouldProcessEvent. preserves_parts; auto with keeps. Qed.

Lemma keeps_forwardToWebhook id url data :
  preserves keeps (forwardToWebhook webhook id url data).
Proof. unfold forwardToWebhook. preserves_parts; auto with keeps. Qed.

#[local] Hint Resolve keeps_shouldProcessEvent keeps_forwardToWebhook : keeps.

Lemma keeps_process_body id cfg data : preserves keeps (process_body webhook id cfg data).
Proof. unfold process_body. preserves_parts; auto with keeps. Qed.

#[local] Hint Resolve keeps_process_body : keeps.

Lemma keeps_process_event id cfg data : preserves keeps (process_event webhook id cfg data).
Proof. unfold process_event. preserves_parts; auto with keeps. Qed.

Lemma returns_process_event id cfg data : returns (process_event webhook id cfg data).
Proof. unfold process_event. apply returns_try. intros e. apply returns_emit. Qed.

(** On an open subscriber, [next] is the pipeline. *)
Lemma subscriber_next_open s r x data :
  resources s !! r = Some x → closed x = false →
  subscriber_next webhook r data s = process_event webhook (owner x) (config x) data s.
Proof.
  intros Hr Hc. unfold subscriber_next, lookup_resource, mbind, M_bind.
  by rewrite Hr, Hc.
Qed.

(** The three ways a pipeline run fails all end in the [catch]. *)
Lemma pipeline_gate_error id cfg data s gate e u :
  shouldFetch cfg = Some gate → request_body cfg = None →
  gate JUndefined (user s) = (RejectedWith e, u) →
  (process_body webhook id cfg data s).2 = Throw e.
Proof.
  intros Hg Hb He.
  unfold process_body, shouldProcessEvent, mbind, M_bind, call. rewrite Hg, Hb. simpl.
  by rewrite He.
Qed.

Lemma pipeline_transform_error id cfg data s f e u :
  shouldFetch cfg = None → transform cfg = Some f →
  f data (user s) = (RejectedWith e, u) →
  (process_body webhook id cfg data s).2 = Throw e.
Proof.
  intros Hg Hf He.
  unfold process_body, shouldProcessEvent, mbind, M_bind, call. rewrite Hg, Hf. simpl.
  by rewrite He.
Qed.

Lemma pipeline_forward_error id cfg data s status text json :
  shouldFetch cfg = None → transform cfg = None →
  webhook (sent s) (webhookUrl cfg) data = HttpResponse status text json →
  ok status = false →
  (process_body webhook id cfg data s).2 = Throw (WebhookError status).
Proof.
  intros Hg Hf Hw Hok.
  unfold process_body, shouldProcessEvent, forwardToWebhook, try_catch, post, mbind, M_bind.
  rewrite Hg, Hf. simpl. rewrite Hw. simpl. by rewrite Hok.
Qed.

(** C4: an event delivered to a running stream runs the pipeline inside a
    [try]/[catch]: whatever is raised by the gate, the transform or the
    forward, the delivery returns normally, the error is logged with
    console.error, the registry and every resource (so the stream itself)
    are left as they were, and the next event delivered to the same stream
    runs the pipeline again. *)
Theorem pipeline_error_is_contained s r x data :
  resources s !! r = Some x → closed x = false →
  ∃ s',
    subscriber_next webhook r data s = (s', Return tt)
    ∧ subs s' = subs s
    ∧ resources s' = resources s
    ∧ (∀ s1 e,
         process_body webhook (owner x) (config x) data s = (s1, Throw e) →
         trace s' = trace s1 ++
           [Console ErrorLevel ("[" +:+ owner x +:+ "] Error processing data:") (Some e)])
    ∧ (∀ data',
         subscriber_next webhook r data' s' =
         process_event webhook (owner x) (config x) data' s').
Proof.
  intros Hr Hc.
  rewrite (subscriber_next_open s r x data Hr Hc).
  pose proof (keeps_process_event (owner x) (config x) data s) as [Hsubs Hres].
  destruct (returns_process_event (owner x) (config x) data s) as [[] Hret].
  destruct (process_event webhook (owner x) (config x) data s) as [s' o] eqn:Hrun.
  simpl in *. subst o. exists s'. split_and!; try done.
  - intros s1 e Hbody. unfold process_event, try_catch in Hrun.
    rewrite Hbody in Hrun. by inversion Hrun.
  - intros data'. apply subscriber_next_open; [by rewrite Hres | done].
Qed.

(** ** Closing a resource, unsubscribing *)

(** Unfold the monad's plumbing. *)
Ltac munfold :=
  unfold mbind, M_bind, mret, M_ret, throw, try_catch, get, modify, emit,
    console_log, console_error, lookup_resource, update_resource in *.

Lemma finalize_spec r x s :
  ∃ s', finalize r x s = (s', Return tt)
    ∧ subs s' = subs s ∧ resources s' = resources s
    ∧ user s' = user s ∧ sent s' = sent s
    ∧ trace s `prefix_of` trace s'.
Proof.
  unfold finalize. destruct (activity x) as [[]| | | |]; munfold; simpl;
    eexists; (split; [reflexivity|]); simpl; split_and!; try done;
    by apply prefix_app_r.
Qed.

Lemma close_spec r s :
  ∃ s', close r s = (s', Return tt)
    ∧ subs s' = subs s ∧ user s' = user s ∧ sent s' = sent s
    ∧ length (resources s') = length (resources s)
    ∧ evolves (resources s) (resources s')
    ∧ trace s `prefix_of` trace s'
    ∧ (∀ x, resources s !! r = Some x → stopped s' r).
Proof.
  unfold close. munfold. simpl.
  destruct (resources s !! r) as [x|] eqn:Hr.
  - destruct (closed x) eqn:Hc.
    + exists s. split_and!; try done. intros y [= <-]. by exists x.
    + simpl.
      match goal with
      | |- context [finalize r x ?st] =>
          destruct (finalize_spec r x st) as (s' & Hrun & Hs & Hres & Hu & Hn & Ht)
      end.
      exists s'. simpl in *. rewrite Hr in Hres.
      split; [exact Hrun|]. rewrite Hs, Hres, Hu, Hn.
      split_and!; try done.
      * by rewrite length_insert.
      * by apply evolves_insert with x.
      * intros y [= <-]. exists (with_closed x). split; [|done].
        rewrite Hres. apply list_lookup_insert_eq. by eapply lookup_lt_Some.
  - exists s. split_and!; try done.
Qed.

(** Closing a resource that is open. *)
Lemma close_open r x s :
  resources s !! r = Some x → closed x = false →
  close r s =
    finalize r x (set_resources (λ _, <[r := with_closed x]> (resources s)) s).
Proof.
  intros Hx Hc. unfold close. munfold. simpl. rewrite Hx, Hc. simpl.
  unfold set_resources. simpl. by rewrite Hx.
Qed.

Lemma teardown_spec h s :
  ∃ s', teardown h s = (s', Return tt)
    ∧ subs s' = subs s ∧ user s' = user s ∧ sent s' = sent s
    ∧ length (resources s') = length (resources s)
    ∧ evolves (resources s) (resources s')
    ∧ trace s `prefix_of` trace s'
    ∧ (∀ x, resources s !! handle_resource h = Some x → stopped s' (handle_resource h))
    ∧ (∀ r, h = CleanupHandle r → CleanupCalled r ∈ trace s').
Proof.
  destruct h as [r|r]; simpl.
  - destruct (close_spec r s) as (s' & Hrun & Hs & Hu & Hn & Hl & He & Ht & Hst).
    exists s'. split_and!; try done.
  - munfold. simpl.
    destruct (close_spec r (add_trace (CleanupCalled r) s))
      as (s' & Hrun & Hs & Hu & Hn & Hl & He & Ht & Hst).
    exists s'. simpl in *. split_and!; try done.
    + etrans; [|exact Ht]. by apply prefix_app_r.
    + intros r' [= <-]. destruct Ht as [k ->]. simpl.
      rewrite !elem_of_app, list_elem_of_singleton. auto.
Qed.

Lemma unsubscribe_spec id s :
  ∃ s', unsubscribe id s = (s', Return tt)
    ∧ subs s' = delete id (subs s) ∧ user s' = user s ∧ sent s' = sent s
    ∧ length (resources s') = length (resources s)
    ∧ evolves (resources s) (resources s')
    ∧ trace s `prefix_of` trace s'
    ∧ (∀ h, subs s !! id = Some h →
         (∀ x, resources s !! handle_resource h = Some x → stopped s' (handle_resource h))
         ∧ (∀ r, h = CleanupHandle r → CleanupCalled r ∈ trace s')).
Proof.
  unfold unsubscribe. munfold. simpl.
  destruct (subs s !! id) as [h|] eqn:Hid.
  - destruct (teardown_spec h s) as (s' & Hrun & Hs & Hu & Hn & Hl & He & Ht & Hst & Hcl).
    rewrite Hrun. simpl.
    eexists. split; [reflexivity|]. simpl. rewrite Hs.
    split_and!; try done.
    intros h' [= <-]. split_and!; done.
  - exists s. split_and!; try done.
    by rewrite delete_id.
Qed.

Lemma evolves_stopped s s' r :
  evolves (resources s) (resources s') → stopped s r → stopped s' r.
Proof.
  intros He (x & Hx & Hc). destruct (He _ _ Hx) as (x' & Hx' & _ & _ & Hcl).
  exists x'. auto.
Qed.


(** Unsubscribing a list of distinct keys, one after the other. *)
Lemma for_each_unsubscribe l s :
  NoDup l →
  ∃ s', for_each l unsubscribe s = (s', Return tt)
    ∧ (∀ k, subs s' !! k = if decide (k ∈ l) then None else subs s !! k)
    ∧ user s' = user s ∧ sent s' = sent s
    ∧ length (resources s') = length (resources s)
    ∧ evolves (resources s) (resources s')
    ∧ trace s `prefix_of` trace s'
    ∧ (∀ id h, id ∈ l → subs s !! id = Some h →
         (∀ x, resources s !! handle_resource h = Some x → stopped s' (handle_resource h))
         ∧ (∀ r, h = CleanupHandle r → CleanupCalled r ∈ trace s')).
Proof.
  intros Hnd. revert s. induction Hnd as [|id l Hnotin Hnd IH]; intros s.
  - exists s. simpl. split_and!; try done.
    intros id h Hin. set_solver.
  - simpl. unfold mbind, M_bind.
    destruct (unsubscribe_spec id s)
      as (s1 & Hrun & Hs1 & Hu1 & Hn1 & Hl1 & He1 & Ht1 & Hh1).
    rewrite Hrun.
    destruct (IH s1) as (s' & Hrun' & Hs' & Hu' & Hn' & Hl' & He' & Ht' & Hh').
    exists s'. split; [exact Hrun'|].
    split; [|split_and!; [congruence | congruence | congruence
                         | by etrans | by etrans |]].
    + intros k. rewrite Hs', Hs1.
      destruct (decide (k = id)) as [->|Hne].
      * rewrite (decide_False (P := id ∈ l)) by done.
        rewrite lookup_delete_eq, decide_True; [done | by left].
      * rewrite lookup_delete_ne by done.
        destruct (decide (k ∈ l)) as [Hin|Hout].
        -- rewrite decide_True; [done | by right].
        -- rewrite decide_False; [done|]. by intros [->|?]%elem_of_cons.
    + intros id' h Hin Hh.
      apply elem_of_cons in Hin as [->|Hin].
      * destruct (Hh1 h Hh) as (Hst & Hcl). split.
        -- intros x Hx. eapply evolves_stopped; [exact He'|]. eauto.
        -- intros r Hr. destruct Ht' as [k ->]. apply elem_of_app. left. auto.
      * assert (id' ≠ id) by (intros ->; done).
        assert (subs s1 !! id' = Some h) as Hh1'.
        { rewrite Hs1. by rewrite lookup_delete_ne. }
        destruct (Hh' id' h Hin Hh1') as [Hst Hcl]. split; [|done].
        intros x Hx. destruct (He1 _ _ Hx) as (x' & Hx' & _). eauto.
Qed.


(** ** subscribe *)

(** Resubscribing is unsubscribing, then subscribing on the state that
    leaves. *)
Lemma subscribe_replaces s id cfg h :
  subs s !! id = Some h →
  ∃ s0,
    (console_log ("[" +:+ id +:+ "] Cleaning up existing subscription before resubscribing");;
     unsubscribe id) s = (s0, Return tt)
    ∧ subscribe id cfg s = subscribe id cfg s0.
Proof.
  intros Hid.
  match goal with
  | |- ∃ _, (console_log ?m;; _) _ = _ ∧ _ =>
      destruct (unsubscribe_spec id (add_trace (Console LogLevel m None) s))
        as (s0 & Hrun & Hs0 & _)
  end.
  exists s0. simpl in Hs0.
  assert (subs s0 !! id = None) as Hnone by (by rewrite Hs0, lookup_delete_eq).
  split.
  - munfold. simpl. exact Hrun.
  - unfold subscribe. munfold. simpl. rewrite Hid, Hnone. simpl.
    by rewrite Hrun.
Qed.

(** What [subscribe] does for a key the registry does not hold: it raises
    and starts nothing, or it returns the key, having started one resource
    and recorded its subscription. *)
Lemma subscribe_fresh s id cfg :
  subs s !! id = None →
  (∃ s' e,
     subscribe id cfg s = (s', Throw e)
     ∧ subs s' = subs s ∧ resources s' = resources s
     ∧ trace s `prefix_of` trace s')
  ∨ (∃ s' a,
       subscribe id cfg s = (s', Return id)
       ∧ subs s' = <[id := SubscriptionHandle (length (resources s))]> (subs s)
       ∧ resources s' = resources s ++
           [ {| owner := id; config := cfg; activity := a; closed := false |} ]
       ∧ trace s `prefix_of` trace s').
Proof.
  intros Hid.
  unfold subscribe, createWebSocketStream, createPollingStream, subscribe_stream,
    call_factory, start.
  munfold. simpl. rewrite Hid. simpl.
  destruct (type cfg); simpl.
  - destruct (falsy_string (sourceUrl cfg)); simpl.
    + left. eexists _, _. split_and!; done.
    + right. eexists _, _. split; [reflexivity|]. simpl.
      split_and!; try done. by apply prefix_app_r.
  - destruct (falsy_number (pollInterval cfg)); simpl.
    + left. eexists _, _. split_and!; done.
    + destruct (falsy_string (sourceUrl cfg)); simpl.
      * left. eexists _, _. split_and!; done.
      * right. eexists _, _. split; [reflexivity|]. simpl.
        split_and!; try done. by apply prefix_app_r.
  - destruct (createStream cfg) as [factory|]; simpl.
    + destruct (factory (user s)) as [[e|p] u]; simpl.
      * left. eexists _, _. split; [reflexivity|]. simpl.
        split_and!; try done. by apply prefix_app_r.
      * rewrite Hid. right. eexists _, _. split; [reflexivity|]. simpl.
        split_and!; try done. by apply prefix_app_r.
    + left. eexists _, _. split_and!; done.
Qed.


(** ** The two methods on any key *)

Lemma set_subs_delete_absent (s : @Forwarder U) id :
  subs s !! id = None → set_subs (delete id) s = s.
Proof. intros Hid. destruct s. unfold set_subs. simpl in *. by rewrite delete_id. Qed.


Lemma blocked_ordinary s id : ordinary id → blocked s id = false.
Proof.
  intros Hord. unfold blocked, read_subs. rewrite Hord. by destruct (subs s !! id).
Qed.

(** On a key that raises no TypeError the model of [unsubscribe] on
    registry entries is the method; on the others the method raises and
    changes nothing. *)
Lemma unsubscribe_key_unblocked s id :
  blocked s id = false → unsubscribe_key id s = unsubscribe id s.
Proof.
  unfold blocked, unsubscribe_key, unsubscribe, read_subs. munfold. simpl.
  destruct (subs s !! id) as [h|] eqn:Hid; simpl; [done|].
  destruct (object_prototype id) as [[|[|]]|]; simpl; try done.
  intros _. by rewrite set_subs_delete_absent.
Qed.

Lemma unsubscribe_key_blocked s id :
  blocked s id = true →
  unsubscribe_key id s = (s, Throw TypeError) ∧ subs s !! id = None ∧ ¬ ordinary id.
Proof.
  unfold blocked, unsubscribe_key, read_subs, ordinary. munfold. simpl.
  destruct (subs s !! id) as [h|] eqn:Hid; simpl; [done|].
  by destruct (object_prototype id) as [[|[|]]|].
Qed.

Lemma unsubscribe_key_ordinary s id :
  ordinary id → unsubscribe_key id s = unsubscribe id s.
Proof. intros Hord. by apply unsubscribe_key_unblocked, blocked_ordinary. Qed.

Lemma subscribe_key_ordinary s id cfg :
  ordinary id → subscribe_key id cfg s = subscribe id cfg s.
Proof.
  intros Hord. unfold ordinary in Hord.
  assert (∀ m : gmap string Handle, read_subs m id = OwnEntry <$> m !! id) as Hread.
  { intros m. unfold read_subs. rewrite Hord. by destruct (m !! id). }
  unfold subscribe_key, subscribe, call_factory, start. munfold. simpl.
  rewrite Hread.
  destruct (subs s !! id) as [h|] eqn:Hid; simpl.
  - rewrite unsubscribe_key_ordinary by exact Hord.
    match goal with
    | |- context [unsubscribe id ?st] => destruct (unsubscribe id st) as [s0 [[]|e]]
    end; [|done].
    destruct (type cfg); try done.
    destruct (createStream cfg) as [factory|]; simpl; [|done].
    destruct (factory (user s0)) as [[e|p] u]; simpl; [done|].
    rewrite Hread. by destruct (subs s0 !! id).
  - destruct (type cfg); try done.
    destruct (createStream cfg) as [factory|]; simpl; [|done].
    destruct (factory (user s)) as [[e|p] u]; simpl; [done|].
    rewrite Hread. by destruct (subs s !! id).
Qed.

(** [subscribe] on a key whose cleaning up raises: the TypeError leaves
    [subscribe] right after the log line. *)
Lemma subscribe_key_blocked s id cfg :
  blocked s id = true →
  subscribe_key id cfg s =
    (add_trace
       (Console LogLevel
          ("[" +:+ id +:+ "] Cleaning up existing subscription before resubscribing") None)
       s,
     Throw TypeError).
Proof.
  unfold blocked, subscribe_key, unsubscribe_key, read_subs. munfold. simpl.
  destruct (subs s !! id) as [h|] eqn:Hid; simpl; [done|].
  destruct (object_prototype id) as [[|[|]]|]; simpl; try done.
  - by rewrite Hid.
  - by rewrite Hid.
Qed.

(** [subscribe] on any other key: it cleans up, and then does what the
    model on registry entries does on the state that leaves, except that a
    custom source under an inherited name is started without being
    recorded. *)
Lemma subscribe_key_unblocked s id cfg :
  blocked s id = false →
  let s0 :=
    match read_subs (subs s) id with
    | Some _ =>
        (unsubscribe id
           (add_trace
              (Console LogLevel
                 ("[" +:+ id +:+ "] Cleaning up existing subscription before resubscribing")
                 None)
              s)).1
    | None => s
    end in
  subs s0 !! id = None
  ∧ subscribe_key id cfg s =
      (if records id cfg then subscribe id cfg s0
       else (set_subs (λ _, subs s0) (subscribe id cfg s0).1, (subscribe id cfg s0).2)).
Proof.
  intros Hb s0.
  assert (subs s0 !! id = None) as Hnone.
  { unfold s0, read_subs. destruct (subs s !! id) as [h|] eqn:Hid; simpl.
    - match goal with
      | |- context [unsubscribe id ?st] =>
          destruct (unsubscribe_spec id st) as (s1 & -> & Hs1 & _)
      end.
      simpl in *. by rewrite Hs1, lookup_delete_eq.
    - destruct (object_prototype id); simpl; [|done].
      match goal with
      | |- context [unsubscribe id ?st] =>
          destruct (unsubscribe_spec id st) as (s1 & -> & Hs1 & _)
      end.
      simpl in *. by rewrite Hs1, lookup_delete_eq. }
  split; [exact Hnone|].
  destruct (object_prototype id) as [inh|] eqn:Hinh.
  - (* an inherited name *)
    assert (∀ m : gmap string Handle, ∃ sl, read_subs m id = Some sl) as Hread.
    { intros m. unfold read_subs. rewrite Hinh. destruct (m !! id); simpl; eauto. }
    assert (∃ sl, read_subs (subs s) id = Some sl) as [sl Hsl] by apply Hread.
    assert (records id cfg = match type cfg with custom => false | _ => true end) as ->.
    { unfold records, ordinary. rewrite Hinh. by destruct (type cfg). }
    unfold subscribe_key, subscribe, call_factory, start. munfold. simpl.
    rewrite Hnone, Hsl.
    rewrite (unsubscribe_key_unblocked _ id) by exact Hb.
    assert (unsubscribe id
              (add_trace
                 (Console LogLevel
                    ("[" +:+ id +:+ "] Cleaning up existing subscription before resubscribing")
                    None) s) = (s0, Return tt)) as ->.
    { unfold s0. rewrite Hsl.
      match goal with
      | |- unsubscribe id ?st = _ =>
          by destruct (unsubscribe_spec id st) as (s1 & -> & _)
      end. }
    clearbody s0.
    destruct (type cfg); try done.
    destruct (createStream cfg) as [factory|]; simpl; [|by destruct s0].
    destruct (factory (user s0)) as [[e|p] u]; simpl; [by destruct s0|].
    rewrite Hnone. destruct (Hread (subs s0)) as [sl' ->]. simpl. by destruct s0.
  - (* an ordinary key *)
    assert (records id cfg = true) as ->.
    { unfold records, ordinary. rewrite Hinh.
      destruct (type cfg); try done; by apply bool_decide_eq_true. }
    rewrite subscribe_key_ordinary by exact Hinh.
    unfold s0, read_subs. rewrite Hinh.
    destruct (subs s !! id) as [h|] eqn:Hid; simpl; [|done].
    destruct (subscribe_replaces s id cfg h Hid) as (s1 & Hrun & ->).
    munfold. simpl in Hrun. by rewrite Hrun.
Qed.

(** What the cleaning up leaves behind, on a key that does not raise. *)
Lemma cleaned_spec s id :
  let s0 :=
    match read_subs (subs s) id with
    | Some _ =>
        (unsubscribe id
           (add_trace
              (Console LogLevel
                 ("[" +:+ id +:+ "] Cleaning up existing subscription before resubscribing")
                 None)
              s)).1
    | None => s
    end in
  subs s0 = delete id (subs s) ∧ user s0 = user s ∧ sent s0 = sent s
  ∧ length (resources s0) = length (resources s)
  ∧ evolves (resources s) (resources s0)
  ∧ trace s `prefix_of` trace s0.
Proof.
  intros s0.
  assert (∀ st, subs st = subs s → user st = user s → sent st = sent s →
            resources st = resources s → trace s `prefix_of` trace st →
            let s1 := (unsubscribe id st).1 in
            subs s1 = delete id (subs s) ∧ user s1 = user s ∧ sent s1 = sent s
            ∧ length (resources s1) = length (resources s)
            ∧ evolves (resources s) (resources s1)
            ∧ trace s `prefix_of` trace s1) as Hun.
  { intros st Hs Hu Hn Hr Ht s1. unfold s1.
    destruct (unsubscribe_spec id st) as (s2 & -> & Hs2 & Hu2 & Hn2 & Hl2 & He2 & Ht2 & _).
    simpl. rewrite <- Hs, <- Hu, <- Hn, <- Hr. split_and!; try done. by etrans. }
  unfold s0. destruct (read_subs (subs s) id) as [sl|] eqn:Hsl.
  - apply Hun; try done. by apply prefix_app_r.
  - assert (subs s !! id = None) as Hid.
    { unfold read_subs in Hsl. by destruct (subs s !! id). }
    split_and!; try done. by rewrite delete_id.
Qed.


(** ** Reactions that leave the registry alone *)

Create HintDb quiet discriminated.

Ltac quiet_parts := preserves_with ltac:(auto with quiet).

Lemma quiet_emit (e : Effect) : preserves quiet (emit e).
Proof.
  intros s. apply keeps_quiet; [split; reflexivity|]. by apply prefix_app_r.
Qed.

Lemma quiet_console_log msg : preserves quiet (console_log msg).
Proof. apply quiet_emit. Qed.

Lemma quiet_console_error msg e : preserves quiet (console_error msg e).
Proof. apply quiet_emit. Qed.

Lemma quiet_await {A} (p : settled A) : preserves quiet (await p).
Proof. intros s. destruct p; reflexivity. Qed.

Lemma quiet_resolve {A} (b : awaitable A) : preserves quiet (resolve b).
Proof. intros s. destruct b as [a|[a|e]]; reflexivity. Qed.

Lemma quiet_call {A B} (f : @callback U A B) (a : A) : preserves quiet (call f a).
Proof.
  intros s. unfold call.
  destruct (f a (user s)) as [[b|e] u]; simpl; (apply keeps_quiet; [by split | done]).
Qed.

Lemma quiet_call_custom_fetch f args : preserves quiet (call_custom_fetch f args).
Proof.
  intros s. unfold call_custom_fetch.
  destruct (f args (user s)) as [res u]. apply keeps_quiet; [by split | done].
Qed.

Lemma quiet_post url payload : preserves quiet (post webhook url payload).
Proof.
  intros s. unfold post.
  destruct (webhook _ _ _); simpl; (apply keeps_quiet; [by split | by apply prefix_app_r]).
Qed.

Lemma quiet_lookup_resource r : preserves quiet (lookup_resource r).
Proof. intros s. reflexivity. Qed.

Lemma quiet_close r : preserves quiet (close r).
Proof.
  intros s. destruct (close_spec r s) as (s' & -> & Hs & _ & _ & Hl & He & Ht & _).
  by split_and!.
Qed.

(** An update of a resource that keeps its owner and configuration and does
    not reopen it. *)
Lemma quiet_update_resource r (f : @Resource U → @Resource U) :
  (∀ x, owner (f x) = owner x ∧ config (f x) = config x
        ∧ (closed x = true → closed (f x) = true)) →
  preserves quiet (update_resource r f).
Proof.
  intros Hf s. unfold update_resource, modify. simpl.
  split_and!; simpl; [done | | split; simpl; [|done]].
  - destruct (resources s !! r); [by rewrite length_insert | done].
  - destruct (resources s !! r) as [x|] eqn:Hr; [|reflexivity].
    destruct (Hf x) as (Ho & Hc & Hcl). by apply (evolves_insert _ r x).
Qed.

Lemma quiet_with_activity r a : preserves quiet (update_resource r (with_activity a)).
Proof. apply quiet_update_resource. by intros x. Qed.

#[local] Hint Resolve quiet_emit quiet_console_log quiet_console_error quiet_await
  quiet_resolve quiet_call quiet_call_custom_fetch quiet_post quiet_lookup_resource
  quiet_close quiet_with_activity : quiet.

Lemma quiet_shouldProcessEvent id cfg : preserves quiet (shouldProcessEvent id cfg).
Proof. unfold shouldProcessEvent. quiet_parts. Qed.

#[local] Hint Resolve quiet_shouldProcessEvent : quiet.

Lemma quiet_process_event id cfg data : preserves quiet (process_event webhook id cfg data).
Proof.
  unfold process_event, process_body, forwardToWebhook.
  quiet_parts.
Qed.

#[local] Hint Resolve quiet_process_event : quiet.

Lemma quiet_subscriber_next r data : preserves quiet (subscriber_next webhook r data).
Proof. unfold subscriber_next. quiet_parts. Qed.

Lemma quiet_subscriber_error r e : preserves quiet (subscriber_error r e).
Proof.
  unfold subscriber_error, stream_error_handler. quiet_parts.
Qed.

Lemma quiet_subscriber_complete r : preserves quiet (subscriber_complete r).
Proof. apply quiet_close. Qed.

#[local] Hint Resolve quiet_subscriber_next quiet_subscriber_error
  quiet_subscriber_complete : quiet.

Lemma quiet_socket_error r x soFar e : preserves quiet (socket_error r x soFar e).
Proof. unfold socket_error. quiet_parts. Qed.

#[local] Hint Resolve quiet_socket_error : quiet.

Lemma quiet_socket_message r x soFar msg :
  preserves quiet (socket_message webhook r x soFar msg).
Proof. unfold socket_message, deserializer. quiet_parts. Qed.

Lemma quiet_retry_resume r x soFar signal : preserves quiet (retry_resume r x soFar signal).
Proof. unfold retry_resume. quiet_parts. Qed.

Lemma quiet_launch_fetch r id url cfg : preserves quiet (launch_fetch r id url cfg).
Proof.
  unfold launch_fetch, defaultFetch. quiet_parts.
  all: apply quiet_update_resource; intros y; by destruct (activity y).
Qed.

#[local] Hint Resolve quiet_launch_fetch : quiet.

Lemma quiet_polling_error r id e : preserves quiet (polling_error r id e).
Proof. unfold polling_error. quiet_parts. Qed.

#[local] Hint Resolve quiet_polling_error : quiet.

Lemma quiet_poll_tick r x : preserves quiet (poll_tick r x).
Proof. unfold poll_tick, shouldProcessEvent. quiet_parts. Qed.

Lemma quiet_poll_fetch_done r x fl reply :
  preserves quiet (poll_fetch_done webhook r x fl reply).
Proof.
  unfold poll_fetch_done, defaultFetch_response. quiet_parts.
Qed.

#[local] Hint Resolve quiet_socket_message quiet_retry_resume quiet_poll_tick
  quiet_poll_fetch_done : quiet.

Lemma returns_subscriber_next r data : returns (subscriber_next webhook r data).
Proof.
  unfold subscriber_next. apply returns_bind.
  - intros s. by eexists.
  - intros [x|]; [|apply returns_ret].
    destruct (closed x); [apply returns_ret | apply returns_process_event].
Qed.





(** The [next] handler of the setup records a handle for a resource it has
    just started. *)
Lemma setup_next_spec s id cfg result :
  ∃ s' h,
    setup_next webhook id cfg result s = (s', Return tt)
    ∧ subs s' = <[id := h]> (subs s)
    ∧ handle_resource h = length (resources s)
    ∧ length (resources s') = S (length (resources s))
    ∧ evolves (resources s) (resources s')
    ∧ (∃ x', resources s' !! length (resources s) = Some x' ∧ owner x' = id)
    ∧ trace s `prefix_of` trace s'.
Proof.
  destruct result as [o|]; simpl.
  - unfold start. munfold. simpl.
    match goal with
    | |- context [for_each ?l ?f ?st] =>
        pose proof (preserves_for_each quiet l f
                      (λ a, quiet_subscriber_next _ a) st) as Hq;
        destruct (returns_for_each l f (λ a, returns_subscriber_next _ a) st)
          as [[] Hret];
        destruct (for_each l f st) as [s2 o2]
    end.
    simpl in *. subst o2. destruct Hq as (Hs & Hl & He & Ht).
    simpl in Hs, Hl, He, Ht.
    eexists _, _. split; [reflexivity|]. simpl.
    rewrite Hs, Hl, length_app. simpl.
    split_and!; try done; try lia.
    + etrans; [|exact He]. apply evolves_app.
    + destruct (He (length (resources s))
        {| owner := id; config := cfg; activity := CustomStream; closed := false |})
        as (x' & Hx' & Ho & _).
      { by apply list_lookup_middle. }
      eauto.
    + etrans; [|exact Ht]. by apply prefix_app_r.
  - unfold start. munfold. simpl.
    eexists _, _. split; [reflexivity|]. simpl. rewrite length_app. simpl.
    split_and!; try done; try lia.
    + apply evolves_app.
    + eexists. split; [by apply list_lookup_middle | done].
Qed.


(** Every event but the calls of the API and the settling of a factory's
    promise leaves the registry alone. *)
Lemma quiet_react ev : registry_event ev = false → preserves quiet (react webhook ev).
Proof.
  destruct ev; intros Hev; try discriminate; simpl; unfold while_open; quiet_parts.
Qed.

Lemma setup_settled_evolves s r x p :
  evolves (resources s) (resources (setup_settled webhook r x p s).1).
Proof.
  destruct p as [result|e]; simpl.
  - unfold mbind, M_bind, subscriber_complete.
    destruct (setup_next_spec s (owner x) (config x) result)
      as (s1 & h & -> & _ & _ & _ & He1 & _).
    destruct (close_spec r s1) as (s2 & -> & _ & _ & _ & _ & He2 & _).
    simpl. by etrans.
  - assert (preserves quiet
      (console_error ("[" +:+ owner x +:+ "] Custom stream setup error:") (Some e);;
       close r)) as Hq by quiet_parts.
    apply Hq.
Qed.

Lemma subscribe_evolves s id cfg :
  evolves (resources s) (resources (subscribe id cfg s).1).
Proof.
  assert (∀ s0, subs s0 !! id = None →
            evolves (resources s0) (resources (subscribe id cfg s0).1)) as Hfresh.
  { intros s0 Hid.
    destruct (subscribe_fresh s0 id cfg Hid)
      as [(s' & e & -> & _ & Hr & _) | (s' & a & -> & _ & Hr & _)]; simpl; rewrite Hr.
    - reflexivity.
    - apply evolves_app. }
  destruct (subs s !! id) as [h|] eqn:Hid; [|by apply Hfresh].
  destruct (subscribe_replaces s id cfg h Hid) as (s0 & Hrun & ->).
  munfold. simpl in Hrun.
  match type of Hrun with
  | unsubscribe id ?st = _ =>
      destruct (unsubscribe_spec id st) as (s1 & Hrun1 & Hs1 & _ & _ & _ & He & _)
  end.
  rewrite Hrun in *. injection Hrun1 as <-. simpl in *.
  etrans; [exact He|]. apply Hfresh. by rewrite Hs1, lookup_delete_eq.
Qed.

Lemma subscribe_key_evolves s id cfg :
  evolves (resources s) (resources (subscribe_key id cfg s).1).
Proof.
  destruct (blocked s id) eqn:Hb.
  - by rewrite (subscribe_key_blocked s id cfg Hb).
  - destruct (subscribe_key_unblocked s id cfg Hb) as [_ ->].
    destruct (cleaned_spec s id) as (_ & _ & _ & _ & He & _).
    etrans; [exact He|].
    match goal with
    | |- context [subscribe id cfg ?st] => pose proof (subscribe_evolves st id cfg)
    end.
    by destruct (records id cfg).
Qed.

Lemma unsubscribe_key_evolves s id :
  evolves (resources s) (resources (unsubscribe_key id s).1).
Proof.
  destruct (blocked s id) eqn:Hb.
  - by destruct (unsubscribe_key_blocked s id Hb) as (-> & _).
  - rewrite (unsubscribe_key_unblocked s id Hb).
    by destruct (unsubscribe_spec id s) as (s' & -> & _ & _ & _ & _ & He & _).
Qed.

(** Whatever happens, resources keep their place, owner and configuration,
    and a closed one stays closed. *)
Lemma react_evolves s ev : evolves (resources s) (resources (react webhook ev s).1).
Proof.
  destruct (registry_event ev) eqn:Hev.
  - destruct ev; try discriminate; simpl.
    + unfold mbind, M_bind.
      pose proof (subscribe_key_evolves s id cfg) as H.
      by destruct (subscribe_key id cfg s) as [s' [a|e]].
    + apply unsubscribe_key_evolves.
    + unfold unsubscribeAll, mbind, M_bind, get. simpl.
      destruct (for_each_unsubscribe (keys (subs s)) s)
        as (s' & -> & _ & _ & _ & _ & He & _); [|done].
      apply NoDup_fst_map_to_list.
    + unfold while_open, lookup_resource, mbind, M_bind.
      destruct (resources s !! r) as [x|]; [|done].
      destruct (closed x); [done|].
      destruct (activity x); try done.
      apply setup_settled_evolves.
  - by destruct (quiet_react ev Hev s) as (_ & _ & He & _).
Qed.

Lemma run_evolves evs s : evolves (resources s) (resources (run webhook evs s)).
Proof.
  revert s. induction evs as [|ev evs IH]; intros s; [done|].
  simpl. etrans; [apply react_evolves | apply IH].
Qed.

(** A stopped resource stays stopped, and events of it that only matter
    while it runs change nothing. *)
Lemma stopped_forever evs s r : stopped s r → stopped (run webhook evs s) r.
Proof. apply evolves_stopped, run_evolves. Qed.

Lemma stopped_tick s r : stopped s r → step webhook s (Tick r) = s.
Proof.
  intros (x & Hx & Hc). unfold step. simpl.
  unfold while_open, lookup_resource, mbind, M_bind. by rewrite Hx, Hc.
Qed.






(** ** Socket frames *)

(** The state after a bad frame, while retries remain and once they are
    used up. *)
Lemma bad_frame_step s r x soFar msg e :
  resources s !! r = Some x → closed x = false →
  activity x = SocketStream Connected soFar → bad_frame msg e →
  step webhook s (Frame r msg) =
    let s0 :=
      add_trace (Console ErrorLevel ("[" +:+ owner x +:+ "] WebSocket error:") (Some e))
        (add_trace
           (Console ErrorLevel ("[" +:+ owner x +:+ "] WebSocket parse error:") (Some e)) s) in
    if bool_decide (soFar < retry_count) then
      set_resources
        (λ _, <[r := with_activity (SocketStream AwaitingRetry (S soFar)) x]> (resources s))
        (add_trace (SocketClosed r)
           (add_trace (TimeoutSet r retry_delay_ms)
              (add_trace
                 (Console LogLevel
                    ("[" +:+ owner x +:+ "] Retrying connection... attempt "
                     +:+ pretty (S soFar)) None)
                 s0)))
    else
      add_trace (SocketClosed r)
        (set_resources
           (λ _, <[r := with_closed (with_activity (SocketStream Connected (S soFar)) x)]>
                   (resources s))
           (add_trace
              (Console ErrorLevel ("[" +:+ owner x +:+ "] Stream error:") (Some e)) s0)).
Proof.
  intros Hx Hc Ha Hbad.
  assert (<[r := with_activity (SocketStream Connected (S soFar)) x]> (resources s) !! r
          = Some (with_activity (SocketStream Connected (S soFar)) x)) as Hr'.
  { apply list_lookup_insert_eq. by eapply lookup_lt_Some. }
  unfold step. simpl. unfold while_open, lookup_resource, mbind, M_bind.
  rewrite Hx, Hc, Ha.
  unfold socket_message, deserializer, socket_error, subscriber_error,
    stream_error_handler, close, finalize.
  munfold.
  destruct Hbad as [|v Hv]; unfold validateInput; rewrite ?Hv;
    destruct (bool_decide (soFar < retry_count));
    repeat (progress (simpl; rewrite ?Hx, ?Hr', ?Hc));
    unfold add_trace, set_resources; simpl;
    repeat (progress (simpl; rewrite ?Hx, ?Hr', ?Hc));
    by rewrite ?list_insert_insert_eq.
Qed.

(** C7 (amended): a frame that does not parse, or parses to a falsy value,
    is logged as a parse error and raised as an error of the socket stream:
    the connection is closed and the error goes to the retry policy, which,
    while attempts remain, logs the attempt and arms its 5000 ms timer, and
    otherwise ends the stream with that error; the registry is unchanged,
    nothing is forwarded, and frames are no longer delivered from that
    connection. *)
Theorem bad_frame_closes_connection s r x soFar msg e :
  resources s !! r = Some x → closed x = false →
  activity x = SocketStream Connected soFar →
  bad_frame msg e →
  let s1 := step webhook s (Frame r msg) in
  (∃ t,
     trace s1 = trace s ++
       Console ErrorLevel ("[" +:+ owner x +:+ "] WebSocket parse error:") (Some e)
       :: Console ErrorLevel ("[" +:+ owner x +:+ "] WebSocket error:") (Some e)
       :: t
     ∧ SocketClosed r ∈ t)
  ∧ (soFar < retry_count →
       trace s1 = trace s ++
         [ Console ErrorLevel ("[" +:+ owner x +:+ "] WebSocket parse error:") (Some e);
           Console ErrorLevel ("[" +:+ owner x +:+ "] WebSocket error:") (Some e);
           Console LogLevel
             ("[" +:+ owner x +:+ "] Retrying connection... attempt " +:+ pretty (S soFar))
             None;
           TimeoutSet r retry_delay_ms;
           SocketClosed r ]
       ∧ resources s1 =
           <[r := with_activity (SocketStream AwaitingRetry (S soFar)) x]> (resources s))
  ∧ (retry_count ≤ soFar →
       stopped s1 r
       ∧ Console ErrorLevel ("[" +:+ owner x +:+ "] Stream error:") (Some e) ∈ trace s1)
  ∧ subs s1 = subs s
  ∧ sent s1 = sent s
  ∧ (∀ msg', step webhook s1 (Frame r msg') = s1).
Proof.
  intros Hx Hc Ha Hbad s1. subst s1.
  rewrite (bad_frame_step s r x soFar msg e Hx Hc Ha Hbad).
  assert (∀ y : @Resource U, (<[r := y]> (resources s)) !! r = Some y) as Hins.
  { intros y. apply list_lookup_insert_eq. by eapply lookup_lt_Some. }
  simpl. case_bool_decide as Hlt; simpl.
  - split; [|split; [|split; [|split; [|split]]]].
    + eexists. rewrite <- !app_assoc. split; [reflexivity|].
      rewrite !elem_of_app, !list_elem_of_singleton. auto.
    + intros _. by rewrite <- !app_assoc.
    + intros Hge. lia.
    + done.
    + done.
    + intros msg'. unfold step. simpl. unfold while_open, lookup_resource, mbind, M_bind.
      simpl. rewrite Hins. simpl. by rewrite ?Hc.
  - split; [|split; [|split; [|split; [|split]]]].
    + eexists. rewrite <- !app_assoc. split; [reflexivity|].
      rewrite !elem_of_app, !list_elem_of_singleton. auto.
    + intros Hlt'. lia.
    + intros _. split.
      * eexists. split; [apply Hins | done].
      * rewrite !elem_of_app, !list_elem_of_singleton. auto.
    + done.
    + done.
    + intros msg'. unfold step. simpl. unfold while_open, lookup_resource, mbind, M_bind.
      simpl. rewrite Hins. simpl. by rewrite ?Hc.
Qed.

(** ** A failed fetch *)

(** C1 (amended): when a fetch of a running polling stream is answered by a
    transport failure or a status outside 2xx, the error is logged and
    delivered to the stream as its error: the stream is closed and its
    interval cleared.  Only that stream is affected and the registry is
    unchanged, but from then on a tick of that stream does nothing,
    whatever else happens. *)
Theorem poll_fetch_failure_ends_stream s r x l i reply e :
  resources s !! r = Some x → closed x = false →
  activity x = PollStream l → l !! i = Some HttpPending →
  failed_reply (default "" (sourceUrl (config x))) reply e →
  let s1 := step webhook s (FetchDone r i reply) in
  trace s1 = trace s ++
    [ Console ErrorLevel ("[" +:+ owner x +:+ "] Polling error:") (Some e);
      Console ErrorLevel ("[" +:+ owner x +:+ "] Stream error:") (Some e);
      IntervalCleared r ]
  ∧ stopped s1 r
  ∧ subs s1 = subs s
  ∧ sent s1 = sent s
  ∧ (∀ evs, step webhook (run webhook evs s1) (Tick r) = run webhook evs s1).
Proof.
  intros Hx Hc Ha Hi Hfail s1.
  assert (s1 =
    add_trace (IntervalCleared r)
      (set_resources
         (λ _, <[r := with_closed (with_activity (PollStream (delete i l)) x)]> (resources s))
         (add_trace (Console ErrorLevel ("[" +:+ owner x +:+ "] Stream error:") (Some e))
            (add_trace (Console ErrorLevel ("[" +:+ owner x +:+ "] Polling error:") (Some e))
               s)))) as Hs1.
  { subst s1. unfold step. simpl. unfold lookup_resource, mbind, M_bind.
    rewrite Hx, Ha, Hi.
    unfold poll_fetch_done, defaultFetch_response, polling_error, subscriber_error,
      stream_error_handler, close, finalize.
    munfold.
    assert (<[r := with_activity (PollStream (delete i l)) x]> (resources s) !! r
            = Some (with_activity (PollStream (delete i l)) x)) as Hr'.
    { apply list_lookup_insert_eq. by eapply lookup_lt_Some. }
    destruct Hfail as [e|status text json Hok];
      repeat (progress (simpl; rewrite ?Hx, ?Hr', ?Hc, ?Hok));
      unfold add_trace, set_resources; simpl;
      repeat (progress (simpl; rewrite ?Hx, ?Hr', ?Hc, ?Hok));
      by rewrite list_insert_insert_eq. }
  assert (stopped s1 r) as Hst.
  { rewrite Hs1. eexists. simpl.
    rewrite list_lookup_insert_eq by (by eapply lookup_lt_Some). done. }
  split_and!; try done.
  - rewrite Hs1. simpl. by rewrite <- !app_assoc.
  - by rewrite Hs1.
  - by rewrite Hs1.
  - intros evs. by apply stopped_tick, stopped_forever.
Qed.

(** ** A factory that rejects *)




(** ** The gate *)

(** What [shouldProcessEvent] does when there is a gate and the request
    body, if it is a promise, fulfils. *)
Lemma shouldProcessEvent_gate s id cfg gate ctx :
  shouldFetch cfg = Some gate → gate_context cfg ctx →
  shouldProcessEvent id cfg s =
    let s1 := set_user (gate ctx (user s)).2 (add_trace (GateCalled ctx) s) in
    match (gate ctx (user s)).1 with
    | Fulfilled true => (s1, Return true)
    | Fulfilled false =>
        (add_trace
           (Console LogLevel
              ("[" +:+ id +:+ "] Skipping event processing based on shouldFetch condition")
              None) s1,
         Return false)
    | RejectedWith e => (s1, Throw e)
    end.
Proof.
  intros Hg Hctx. unfold shouldProcessEvent. rewrite Hg.
  assert (match request_body cfg with
          | Some b => if awaitable_truthy b then resolve b else mret JUndefined
          | None => mret JUndefined
          end s = (s, Return ctx)) as Hbody.
  { destruct Hctx as [Hb|v Hb Hv|v Hb Hv|v Hb]; rewrite Hb; simpl; by rewrite ?Hv. }
  unfold mbind at 1. unfold M_bind at 1. rewrite Hbody.
  unfold call. munfold. simpl.
  by destruct (gate ctx (user s)) as [[[|]|e] u].
Qed.

(** The pipeline after the gate has let the event through. *)
Lemma process_event_gate s id cfg data gate ctx :
  shouldFetch cfg = Some gate → gate_context cfg ctx →
  process_event webhook id cfg data s =
    let s1 := set_user (gate ctx (user s)).2 (add_trace (GateCalled ctx) s) in
    match (gate ctx (user s)).1 with
    | Fulfilled true =>
        try_catch
          (transformedData ←
             match transform cfg with
             | Some f => emit (TransformCalled data);; call f data
             | None => mret data
             end;
           forwardToWebhook webhook id (webhookUrl cfg) transformedData)
          (λ error, console_error ("[" +:+ id +:+ "] Error processing data:") (Some error))
          s1
    | Fulfilled false =>
        (add_trace
           (Console LogLevel
              ("[" +:+ id +:+ "] Skipping process based on shouldFetch condition") None)
           (add_trace
              (Console LogLevel
                 ("[" +:+ id +:+ "] Skipping event processing based on shouldFetch condition")
                 None) s1),
         Return tt)
    | RejectedWith e =>
        (add_trace
           (Console ErrorLevel ("[" +:+ id +:+ "] Error processing data:") (Some e)) s1,
         Return tt)
    end.
Proof.
  intros Hg Hctx. unfold process_event, process_body.
  unfold try_catch at 1. unfold mbind at 1. unfold M_bind at 1.
  rewrite (shouldProcessEvent_gate s id cfg gate ctx Hg Hctx). simpl.
  by destruct (gate ctx (user s)) as [[[|]|e] u].
Qed.


(** ** Reactions within a licence *)

#[local] Instance within_preorder lic : PreOrder (within lic).
Proof.
  split.
  - intros s. split_and!; try done.
    + exists []. by rewrite app_nil_r.
    + intros r x Hx. exists x. done.
  - intros s1 s2 s3 (Hs & (t & Ht & HP) & Hn & Hu & Hl & Hr)
      (Hs' & (t' & Ht' & HP') & Hn' & Hu' & Hl' & Hr').
    split_and!; try congruence.
    + exists (t ++ t'). rewrite Ht', Ht, app_assoc. split; [done|].
      by apply Forall_app.
    + intros H. rewrite Hn', Hn; done.
    + intros H. rewrite Hu', Hu; done.
    + intros r x3 Hx3.
      destruct (Hr' r x3 Hx3) as (x2 & Hx2 & Ho2 & Hc2 & Hcl2 & Hp2 & Ha2).
      destruct (Hr r x2 Hx2) as (x1 & Hx1 & Ho1 & Hc1 & Hcl1 & Hp1 & Ha1).
      exists x1. split_and!; try congruence; auto.
      intros H. rewrite Ha2, Ha1; done.
Qed.

(** A change of the trace, the counter or the caller's state alone. *)
Lemma within_same_resources lic s s' t :
  subs s' = subs s → resources s' = resources s →
  trace s' = trace s ++ t → Forall (permitted lic) t →
  (may_post lic = false → sent s' = sent s) →
  (may_change_user lic = false → user s' = user s) →
  within lic s s'.
Proof.
  intros Hs Hr Ht HP Hn Hu. split_and!; try done.
  - by exists t.
  - by rewrite Hr.
  - intros r x Hx. exists x. rewrite <- Hr. done.
Qed.

Lemma within_emit lic e :
  permitted lic e → is_post e = false →
  preserves (within lic) (emit (U := U) e).
Proof.
  intros HP Hp s. apply within_same_resources with [e]; try done.
  by apply Forall_singleton.
Qed.

Lemma within_console_log lic msg : preserves (within lic) (console_log (U := U) msg).
Proof. by apply within_emit. Qed.

Lemma within_console_error lic msg e :
  preserves (within lic) (console_error (U := U) msg e).
Proof. by apply within_emit. Qed.

Lemma within_await lic {A} (p : settled A) : preserves (within lic) (await (U := U) p).
Proof. intros s. destruct p; reflexivity. Qed.

Lemma within_resolve lic {A} (b : awaitable A) : preserves (within lic) (resolve (U := U) b).
Proof. intros s. destruct b as [a|[a|e]]; reflexivity. Qed.

Lemma within_lookup_resource lic r : preserves (within lic) (lookup_resource (U := U) r).
Proof. intros s. reflexivity. Qed.

Lemma within_call lic {A B} (f : @callback U A B) (a : A) :
  may_change_user lic = true → preserves (within lic) (call f a).
Proof.
  intros Hu s. unfold call.
  destruct (f a (user s)) as [[b|e] u]; simpl;
    (apply within_same_resources with []; try done; [by rewrite app_nil_r | congruence]).
Qed.

Lemma within_call_custom_fetch lic f args :
  may_change_user lic = true → preserves (within lic) (call_custom_fetch (U := U) f args).
Proof.
  intros Hu s. unfold call_custom_fetch.
  destruct (f args (user s)) as [res u]; simpl.
  apply within_same_resources with []; try done; [by rewrite app_nil_r | congruence].
Qed.

Lemma within_post lic url payload :
  may_post lic = true → preserves (within lic) (post webhook url payload).
Proof.
  intros Hp s. unfold post.
  destruct (webhook _ _ _); simpl;
    (apply within_same_resources with [HttpPost url payload]; try done;
     [by apply Forall_singleton | congruence]).
Qed.

Lemma within_update_resource lic r (f : @Resource U → @Resource U) :
  (∀ x, owner (f x) = owner x ∧ config (f x) = config x
        ∧ (closed x = true → closed (f x) = true)
        ∧ (is_poll x → is_poll (f x))
        ∧ (may_change_activity lic = false → activity (f x) = activity x)) →
  preserves (within lic) (update_resource r f).
Proof.
  intros Hf s. unfold update_resource, modify. simpl.
  split_and!; simpl; try done.
  - exists []. by rewrite app_nil_r.
  - destruct (resources s !! r); [by rewrite length_insert | done].
  - intros r' x' Hx'.
    destruct (resources s !! r) as [x|] eqn:Hr; [|by exists x'].
    destruct (decide (r' = r)) as [->|Hne].
    + rewrite list_lookup_insert_eq in Hx' by (by eapply lookup_lt_Some).
      injection Hx' as <-. exists x. by destruct (Hf x) as (? & ? & ? & ? & ?).
    + rewrite list_lookup_insert_ne in Hx' by done. by exists x'.
Qed.

Lemma within_close lic r : preserves (within lic) (close (U := U) r).
Proof.
  unfold close.
  apply preserves_bind; [apply _ | apply within_lookup_resource | intros [x|]].
  - destruct (closed x); [apply preserves_ret; apply _|].
    apply preserves_bind; [apply _ | | intros _].
    + apply within_update_resource. by intros y.
    + unfold finalize.
      destruct (activity x) as [[]| | | |];
        first [by apply within_emit | apply preserves_ret; apply _].
  - apply preserves_ret; apply _.
Qed.

(** Break a program into parts that stay within the licence. *)
Ltac within_parts :=
  preserves_with ltac:(first
    [ apply within_emit; [by split | done]
    | apply within_console_log
    | apply within_console_error
    | apply within_await
    | apply within_resolve
    | apply within_lookup_resource
    | by apply within_call
    | by apply within_call_custom_fetch
    | by apply within_post
    | apply within_close
    | assumption ]).

Lemma within_polling_error lic r id e : preserves (within lic) (polling_error (U := U) r id e).
Proof.
  unfold polling_error, subscriber_error, stream_error_handler. within_parts.
Qed.

(** Transforming and forwarding: no call of the gate, no change of any
    resource. *)
Lemma within_forward id cfg data :
  preserves (within forward_licence)
    (try_catch
       (transformedData ←
          match transform cfg with
          | Some f => emit (TransformCalled data);; call f data
          | None => mret data
          end;
        forwardToWebhook webhook id (webhookUrl cfg) transformedData)
       (λ error, console_error ("[" +:+ id +:+ "] Error processing data:") (Some error))).
Proof. unfold forwardToWebhook. within_parts. Qed.

(** Launching a fetch: no call of the gate, nothing forwarded; and the
    caller's state is unchanged when its [customFetch] leaves it alone. *)
Lemma within_launch_fetch r id url cfg :
  preserves (within (fetch_licence true)) (launch_fetch r id url cfg).
Proof.
  unfold launch_fetch, defaultFetch.
  within_parts.
  all: apply within_update_resource; intros y;
    destruct (activity y) eqn:Hy; split_and!; try done;
    intros _; eexists; done.
Qed.

Lemma within_call_custom_fetch_private lic f args :
  (∀ u, (f args u).2 = u) →
  preserves (within lic) (call_custom_fetch (U := U) f args).
Proof.
  intros Hf s. unfold call_custom_fetch.
  specialize (Hf (user s)). destruct (f args (user s)) as [res u]; simpl in *. subst u.
  apply within_same_resources with []; try done. by rewrite app_nil_r.
Qed.

Lemma within_launch_fetch_private r id url cfg :
  private_fetch cfg →
  preserves (within (fetch_licence false)) (launch_fetch r id url cfg).
Proof.
  intros Hpriv. unfold launch_fetch, defaultFetch.
  destruct (customFetch cfg) as [f|] eqn:Hf.
  - apply preserves_bind; [apply _ | | intros fl].
    + apply preserves_bind; [apply _ | by apply within_emit | intros _].
      apply within_call_custom_fetch_private. intros u. by apply Hpriv.
    + apply within_update_resource. intros y.
      destruct (activity y) eqn:Hy; split_and!; try done.
      intros _. eexists. done.
  - within_parts.
    all: apply within_update_resource; intros y;
      destruct (activity y) eqn:Hy; split_and!; try done;
      intros _; eexists; done.
Qed.

(** ** The gate in a polling stream *)

Lemma gate_calls_app t t' : gate_calls (t ++ t') = gate_calls t + gate_calls t'.
Proof. unfold gate_calls. by rewrite List.filter_app, length_app. Qed.

Lemma within_gate_calls lic s s' :
  may_call_gate lic = false → within lic s s' →
  gate_calls (trace s') = gate_calls (trace s).
Proof.
  intros Hg (_ & (t & -> & HP) & _). rewrite gate_calls_app.
  assert (gate_calls t = 0) as ->; [|lia].
  unfold gate_calls. induction HP as [|e t [He _] _ IH]; [done|]. simpl.
  destruct (is_gate_call e) eqn:Hge; [|done].
  rewrite He in Hg; done.
Qed.

Lemma gate_context_cases cfg :
  (∃ ctx, gate_context cfg ctx)
  ∨ (∃ e, request_body cfg = Some (Promise (RejectedWith e))).
Proof.
  destruct (request_body cfg) as [[v|[v|e]]|] eqn:Hb.
  - left. destruct (truthy v) eqn:Hv.
    + exists v. by apply gate_context_value.
    + exists JUndefined. by apply gate_context_falsy with v.
  - left. exists v. by apply gate_context_promise.
  - right. by exists e.
  - left. exists JUndefined. by apply gate_context_absent.
Qed.

Lemma shouldProcessEvent_rejected s id cfg gate e :
  shouldFetch cfg = Some gate →
  request_body cfg = Some (Promise (RejectedWith e)) →
  shouldProcessEvent id cfg s = (s, Throw e).
Proof.
  intros Hg Hb. unfold shouldProcessEvent. by rewrite Hg, Hb.
Qed.

(** One tick of a gated polling stream: the gate is called once, and the
    fetch is launched only if it answers true. *)
Lemma poll_tick_gate s r x gate ctx :
  shouldFetch (config x) = Some gate → gate_context (config x) ctx →
  poll_tick r x s =
    let s1 := set_user (gate ctx (user s)).2 (add_trace (GateCalled ctx) s) in
    match (gate ctx (user s)).1 with
    | Fulfilled true =>
        try_catch
          (if falsy_string (sourceUrl (config x)) then
             throw (Error "sourceUrl is required for polling")
           else launch_fetch r (owner x) (default "" (sourceUrl (config x))) (config x))
          (polling_error r (owner x))
          s1
    | Fulfilled false =>
        (add_trace
           (Console LogLevel
              ("[" +:+ owner x +:+ "] Skipping fetch based on shouldFetch condition") None)
           (add_trace
              (Console LogLevel
                 ("[" +:+ owner x +:+ "] Skipping event processing based on shouldFetch condition")
                 None) s1),
         Return tt)
    | RejectedWith e => polling_error r (owner x) e s1
    end.
Proof.
  intros Hg Hctx. unfold poll_tick.
  unfold try_catch at 1. unfold mbind at 1. unfold M_bind at 1.
  rewrite (shouldProcessEvent_gate s (owner x) (config x) gate ctx Hg Hctx). simpl.
  by destruct (gate ctx (user s)) as [[[|]|e] u].
Qed.

Lemma tick_step s r x l :
  resources s !! r = Some x → closed x = false → activity x = PollStream l →
  step webhook s (Tick r) = (poll_tick r x s).1.
Proof.
  intros Hx Hc Ha. unfold step. simpl.
  unfold while_open, lookup_resource, mbind, M_bind. by rewrite Hx, Hc, Ha.
Qed.

Lemma within_tick_rest r x :
  preserves (within (fetch_licence true))
    (try_catch
       (if falsy_string (sourceUrl (config x)) then
          throw (Error "sourceUrl is required for polling")
        else launch_fetch r (owner x) (default "" (sourceUrl (config x))) (config x))
       (polling_error r (owner x))).
Proof.
  apply preserves_try; [apply _ | | intros e; apply within_polling_error].
  destruct (falsy_string _); [apply preserves_throw; apply _ | apply within_launch_fetch].
Qed.

Lemma within_tick_rest_private r x :
  private_fetch (config x) →
  preserves (within (fetch_licence false))
    (try_catch
       (if falsy_string (sourceUrl (config x)) then
          throw (Error "sourceUrl is required for polling")
        else launch_fetch r (owner x) (default "" (sourceUrl (config x))) (config x))
       (polling_error r (owner x))).
Proof.
  intros Hpriv.
  apply preserves_try; [apply _ | | intros e; apply within_polling_error].
  destruct (falsy_string _);
    [apply preserves_throw; apply _ | by apply within_launch_fetch_private].
Qed.

Lemma within_weaken lic s s' : within lic s s' → within full_licence s s'.
Proof.
  intros (Hs & (t & Ht & HP) & Hn & Hu & Hlen & Hr).
  split_and!; try done.
  - exists t. split; [done|]. eapply Forall_impl; [exact HP|]. by intros e _.
  - intros r' x' Hx'. destruct (Hr r' x' Hx') as (y & Hy & Ho & Hcf & Hcl & Hp & _).
    exists y. split_and!; done.
Qed.

(** The fetches in flight change only where the licence says so. *)
Lemma within_inflight lic s s' r :
  may_change_activity lic = false → within lic s s' →
  inflight_of s' r = inflight_of s r.
Proof.
  intros Ha (_ & _ & _ & _ & Hl & Hr). unfold inflight_of.
  destruct (resources s' !! r) as [x'|] eqn:Hx'.
  - destruct (Hr r x' Hx') as (x & -> & _ & _ & _ & _ & Hact). by rewrite Hact.
  - destruct (resources s !! r) as [x|] eqn:Hx; [|done].
    apply lookup_lt_Some in Hx. apply lookup_ge_None in Hx'. lia.
Qed.

(** The tick of a gated polling stream, as a whole. *)
Lemma tick_gate s r x l gate ctx :
  resources s !! r = Some x → closed x = false → activity x = PollStream l →
  shouldFetch (config x) = Some gate → gate_context (config x) ctx →
  let s1 := step webhook s (Tick r) in
  gate_calls (trace s1) = S (gate_calls (trace s))
  ∧ sent s1 = sent s
  ∧ within full_licence s s1
  ∧ ((gate ctx (user s)).1 ≠ Fulfilled true →
       ∀ r', inflight_of s1 r' = inflight_of s r')
  ∧ (private_fetch (config x) ∨ (gate ctx (user s)).1 ≠ Fulfilled true →
       user s1 = (gate ctx (user s)).2).
Proof.
  intros Hx Hc Ha Hg Hctx s1. subst s1.
  rewrite (tick_step s r x l Hx Hc Ha), (poll_tick_gate s r x gate ctx Hg Hctx).
  assert (inflight_of s r = l) as Hl by (unfold inflight_of; by rewrite Hx, Ha).
  set (s0 := set_user (gate ctx (user s)).2 (add_trace (GateCalled ctx) s)).
  assert (gate_calls (trace s0) = S (gate_calls (trace s))) as Hcalls.
  { unfold s0, gate_calls. simpl. rewrite List.filter_app, length_app. simpl. lia. }
  assert (within full_licence s s0) as Hfull.
  { apply within_same_resources with [GateCalled ctx]; try done.
    by apply Forall_singleton. }
  simpl. destruct ((gate ctx (user s)).1) as [[|]|e] eqn:Hres.
  - pose proof (within_tick_rest r x s0) as Hw.
    split_and!.
    + rewrite (within_gate_calls (fetch_licence _) _ _ eq_refl Hw). done.
    + by destruct Hw as (_ & _ & -> & _).
    + etrans; [exact Hfull | by eapply within_weaken].
    + done.
    + intros [Hpriv|Hne]; [|done].
      destruct (within_tick_rest_private r x Hpriv s0) as (_ & _ & _ & Hu & _).
      by apply Hu.
  - split_and!.
    + unfold gate_calls in *. simpl.
      rewrite !List.filter_app, !length_app. simpl.
      unfold s0 in Hcalls. simpl in Hcalls.
      rewrite List.filter_app, length_app in Hcalls. simpl in Hcalls. lia.
    + done.
    + etrans; [exact Hfull|].
      apply within_same_resources with
        [Console LogLevel
           ("[" +:+ owner x +:+ "] Skipping event processing based on shouldFetch condition")
           None;
         Console LogLevel
           ("[" +:+ owner x +:+ "] Skipping fetch based on shouldFetch condition") None];
        try done.
      * simpl. by rewrite <- app_assoc.
      * by repeat constructor.
    + done.
    + done.
  - pose proof (within_polling_error no_licence r (owner x) e s0) as Hw.
    split_and!.
    + rewrite (within_gate_calls no_licence _ _ eq_refl Hw). done.
    + by destruct Hw as (_ & _ & -> & _).
    + etrans; [exact Hfull | by eapply within_weaken].
    + intros _ r'. by rewrite (within_inflight no_licence _ _ r' eq_refl Hw).
    + intros _. by destruct Hw as (_ & _ & _ & -> & _).
Qed.

(** The rest of the tick, by how the fetch ended. *)
Lemma poll_fetch_done_cases s r x fl reply :
  poll_fetch_done webhook r x fl reply s =
    match fetch_outcome (default "" (sourceUrl (config x))) fl reply with
    | Fulfilled v => subscriber_next webhook r v s
    | RejectedWith e => polling_error r (owner x) e s
    end.
Proof.
  unfold poll_fetch_done, fetch_outcome, defaultFetch_response, try_catch, mbind, M_bind.
  assert (∀ v, match subscriber_next webhook r v s with
               | (s', Return a) => (s', Return a)
               | (s', Throw e) => polling_error r (owner x) e s'
               end = subscriber_next webhook r v s) as Hnext.
  { intros v. destruct (returns_subscriber_next r v s) as [[] Hv].
    destruct (subscriber_next webhook r v s) as [s' o]. simpl in Hv. by subst o. }
  destruct fl as [[v|e]|]; simpl; [apply Hnext | done |].
  destruct reply as [e|status text json]; simpl; [done|].
  destruct (ok status); simpl; [|done].
  destruct json as [|data]; simpl; [done|].
  unfold validateInput. destruct (truthy data); simpl; [apply Hnext | done].
Qed.

Lemma fetch_done_step s r x l i fl reply :
  resources s !! r = Some x → activity x = PollStream l → l !! i = Some fl →
  step webhook s (FetchDone r i reply) =
    (poll_fetch_done webhook r x fl reply
       (set_resources (λ _, <[r := with_activity (PollStream (delete i l)) x]> (resources s))
          s)).1.
Proof.
  intros Hx Ha Hi. unfold step. simpl.
  unfold lookup_resource, update_resource, modify, mbind, M_bind.
  rewrite Hx, Ha, Hi. unfold set_resources. simpl. by rewrite Hx.
Qed.

(** Each strategy delivers an event by calling [next] on its subscriber:
    a socket frame that parses to a truthy value, a fetch that succeeds, an
    emission of a custom source. *)
Lemma delivery_is_subscriber_next s r x :
  resources s !! r = Some x → closed x = false →
  (∀ soFar v, activity x = SocketStream Connected soFar → truthy v = true →
     step webhook s (Frame r (Json v)) = (subscriber_next webhook r v s).1)
  ∧ (∀ l i fl reply v, activity x = PollStream l → l !! i = Some fl →
       fetch_outcome (default "" (sourceUrl (config x))) fl reply = Fulfilled v →
       step webhook s (FetchDone r i reply) =
         (subscriber_next webhook r v
            (set_resources
               (λ _, <[r := with_activity (PollStream (delete i l)) x]> (resources s)) s)).1)
  ∧ (∀ data, activity x = CustomStream →
       step webhook s (Emitted r data) = (subscriber_next webhook r data s).1).
Proof.
  intros Hx Hc. split_and!.
  - intros soFar v Ha Hv. unfold step. simpl.
    unfold while_open, lookup_resource. unfold mbind at 1. unfold M_bind at 1.
    rewrite Hx, Hc, Ha.
    unfold socket_message, deserializer, validateInput, try_catch, mbind, M_bind.
    rewrite Hv. simpl.
    destruct (returns_subscriber_next r v s) as [[] Hret].
    destruct (subscriber_next webhook r v s) as [s' o]. simpl in *. by subst o.
  - intros l i fl reply v Ha Hi Hout.
    by rewrite (fetch_done_step s r x l i fl reply Hx Ha Hi), poll_fetch_done_cases, Hout.
  - intros data Ha. unfold step. simpl.
    unfold while_open, lookup_resource. unfold mbind at 1. unfold M_bind at 1.
    by rewrite Hx, Hc, Ha.
Qed.

(** A fetch answered with an event on a gated polling stream that is still
    open: the pipeline calls the gate once more, whatever it answers, and
    forwards only if it answers true. *)
Lemma fetch_done_gate s r x l i fl reply gate ctx v :
  resources s !! r = Some x → closed x = false → activity x = PollStream l →
  l !! i = Some fl →
  shouldFetch (config x) = Some gate → gate_context (config x) ctx →
  fetch_outcome (default "" (sourceUrl (config x))) fl reply = Fulfilled v →
  let s2 := step webhook s (FetchDone r i reply) in
  gate_calls (trace s2) = S (gate_calls (trace s))
  ∧ (∃ t, trace s2 = trace s ++ GateCalled ctx :: t)
  ∧ (sent s2 ≠ sent s → (gate ctx (user s)).1 = Fulfilled true).
Proof.
  intros Hx Hc Ha Hi Hg Hctx Hout s2. subst s2.
  rewrite (fetch_done_step s r x l i fl reply Hx Ha Hi), poll_fetch_done_cases, Hout.
  set (su := set_resources _ s).
  assert (resources su !! r = Some (with_activity (PollStream (delete i l)) x)) as Hxu.
  { unfold su. simpl. apply list_lookup_insert_eq. by eapply lookup_lt_Some. }
  unfold subscriber_next, lookup_resource, mbind, M_bind. rewrite Hxu. simpl.
  rewrite Hc.
  rewrite (process_event_gate su (owner x) (config x) v gate ctx Hg Hctx). simpl.
  destruct ((gate ctx (user s)).1) as [[|]|e] eqn:Hres; simpl.
  - match goal with
    | |- context [try_catch ?body ?handler ?st] =>
        pose proof (within_forward (owner x) (config x) v st) as Hw
    end.
    split_and!; [| |done].
    + rewrite (within_gate_calls forward_licence _ _ eq_refl Hw). simpl.
      rewrite gate_calls_app. unfold gate_calls at 2. simpl. lia.
    + destruct Hw as (_ & (t & -> & _) & _). simpl. exists t.
      by rewrite <- app_assoc.
  - split_and!; [| |done].
    + rewrite <- !app_assoc. simpl.
      rewrite gate_calls_app. unfold gate_calls at 2. simpl. lia.
    + eexists. by rewrite <- !app_assoc.
  - split_and!; [| |done].
    + rewrite <- !app_assoc. simpl.
      rewrite gate_calls_app. unfold gate_calls at 2. simpl. lia.
    + eexists. by rewrite <- !app_assoc.
Qed.

(** The first thing a tick of a gated polling stream does is call the
    gate. *)
Lemma tick_gate_first s r x l gate ctx :
  resources s !! r = Some x → closed x = false → activity x = PollStream l →
  shouldFetch (config x) = Some gate → gate_context (config x) ctx →
  ∃ t, trace (step webhook s (Tick r)) = trace s ++ GateCalled ctx :: t.
Proof.
  intros Hx Hc Ha Hg Hctx.
  rewrite (tick_step s r x l Hx Hc Ha), (poll_tick_gate s r x gate ctx Hg Hctx).
  simpl. destruct ((gate ctx (user s)).1) as [[|]|e].
  - match goal with
    | |- context [try_catch ?body ?handler ?st] =>
        destruct (within_tick_rest r x st) as (_ & (t & -> & _) & _)
    end.
    simpl. exists t. by rewrite <- app_assoc.
  - simpl. eexists. by rewrite <- !app_assoc.
  - match goal with
    | |- context [polling_error r ?o e ?st] =>
        destruct (within_polling_error no_licence r o e st) as (_ & (t & -> & _) & _)
    end.
    simpl. exists t. by rewrite <- app_assoc.
Qed.

(** One polling cycle with a gate: the tick calls the gate once and
    launches a fetch only if it answers true; for every event a fetch of the
    stream then delivers, the pipeline calls the gate once more, and
    forwards only if that second call answers true. *)
Lemma poll_cycle_gate s r x l gate ctx :
  resources s !! r = Some x → closed x = false → activity x = PollStream l →
  shouldFetch (config x) = Some gate → gate_context (config x) ctx →
  let s1 := step webhook s (Tick r) in
  gate_calls (trace s1) = 1 + gate_calls (trace s)
  ∧ (∃ t, trace s1 = trace s ++ GateCalled ctx :: t)
  ∧ sent s1 = sent s
  ∧ ((gate ctx (user s)).1 ≠ Fulfilled true → inflight_of s1 r = l)
  ∧ (private_fetch (config x) → user s1 = (gate ctx (user s)).2)
  ∧ (∀ i fl reply v,
       running s1 r → inflight_of s1 r !! i = Some fl →
       fetch_outcome (default "" (sourceUrl (config x))) fl reply = Fulfilled v →
       let s2 := step webhook s1 (FetchDone r i reply) in
       gate_calls (trace s2) = 2 + gate_calls (trace s)
       ∧ (∃ t, trace s2 = trace s1 ++ GateCalled ctx :: t)
       ∧ (sent s2 ≠ sent s1 → (gate ctx (user s1)).1 = Fulfilled true)
       ∧ (length l ≤ i → (gate ctx (user s)).1 = Fulfilled true)).
Proof.
  intros Hx Hc Ha Hg Hctx s1.
  destruct (tick_gate s r x l gate ctx Hx Hc Ha Hg Hctx)
    as (Hcalls & Hsent & Hw & Hsame & Huser).
  fold s1 in Hcalls, Hsent, Hw, Hsame, Huser.
  assert (inflight_of s r = l) as Hl by (unfold inflight_of; by rewrite Hx, Ha).
  split_and!; [done | by eapply tick_gate_first | done | | by auto |].
  { intros Hne. by rewrite Hsame. }
  intros i fl reply v (x1 & Hx1 & Hc1) Hi Hout s2.
  assert (config x1 = config x ∧ ∃ l1, activity x1 = PollStream l1) as (Hcfg & l1 & Ha1).
  { destruct Hw as (_ & _ & _ & _ & Hlen & Hr).
    destruct (Hr r x1 Hx1) as (y & Hy & _ & Hcf & _ & Hp & _).
    assert (y = x) as -> by congruence.
    split; [done|]. apply Hp. by exists l. }
  assert (inflight_of s1 r = l1) as Hin by (unfold inflight_of; by rewrite Hx1, Ha1).
  rewrite Hin in Hi. rewrite <- Hcfg in Hg, Hctx, Hout.
  destruct (fetch_done_gate s1 r x1 l1 i fl reply gate ctx v Hx1 Hc1 Ha1 Hi Hg Hctx Hout)
    as (Hcalls2 & Hfirst & Hfwd).
  fold s2 in Hcalls2, Hfirst, Hfwd.
  split_and!; [lia | done | done |].
  intros Hge. destruct ((gate ctx (user s)).1) as [[|]|e] eqn:Hres1; [done | |].
  - specialize (Hsame ltac:(done) r). rewrite Hin, Hl in Hsame. subst l1.
    apply lookup_lt_Some in Hi. lia.
  - specialize (Hsame ltac:(done) r). rewrite Hin, Hl in Hsame. subst l1.
    apply lookup_lt_Some in Hi. lia.
Qed.

Lemma within_teardown lic h : preserves (within lic) (teardown (U := U) h).
Proof. destruct h; simpl; within_parts. Qed.

Lemma returns_teardown h : returns (teardown h).
Proof. intros s. destruct (teardown_spec h s) as (s' & -> & _). by exists tt. Qed.

(** Subscribing a polling stream under a key the registry does not hold. *)
Lemma subscribe_fresh_poll s id cfg :
  subs s !! id = None → type cfg = poll →
  (∃ e, subscribe id cfg s = (s, Throw e))
  ∨ subscribe id cfg s =
      (set_subs <[id := SubscriptionHandle (length (resources s))]>
         (add_trace (IntervalStarted (length (resources s))
                       (Z.max 0 (default 0%Z (pollInterval cfg))))
            (set_resources
               (λ l, l ++ [ {| owner := id; config := cfg;
                               activity := PollStream []; closed := false |} ])
               s)),
       Return id).
Proof.
  intros Hid Ht.
  unfold subscribe, createPollingStream, subscribe_stream, start.
  munfold. simpl. rewrite Hid, Ht. simpl.
  destruct (falsy_number (pollInterval cfg)); simpl; [left; eauto|].
  destruct (falsy_string (sourceUrl cfg)); simpl; [left; eauto|].
  by right.
Qed.

(** * Further properties of the forwarder *)

(** ** utils.ts *)

(** X1: [mergeHeaders]: a header of the additional set wins over the base
    header of the same name, every other base header is kept and nothing
    else appears, with one exception: an additional header named
    [__proto__] is dropped, unless the base has a header of that name.  So
    a [__proto__] header given in a request configuration never reaches the
    request; and as long as no header has that name, merging two sets one
    after the other is merging their merge. *)
Theorem mergeHeaders_additional_wins (base first second : gmap string string)
    (additional : option (gmap string string)) (k v : string) :
  mergeHeaders base additional !! k =
    match additional ≫= (λ extra, extra !! k) with
    | Some v' =>
        if decide (k = "__proto__" ∧ base !! "__proto__" = None) then None else Some v'
    | None => base !! k
    end
  ∧ mergeHeaders {[ "Content-Type" := "application/json" ]} (Some {[ "__proto__" := v ]})
    = {[ "Content-Type" := "application/json" ]}
  ∧ (first !! "__proto__" = None → second !! "__proto__" = None →
     mergeHeaders (mergeHeaders base (Some first)) (Some second) =
       mergeHeaders base (Some (mergeHeaders first (Some second)))).
Proof.
  split_and!.
  - destruct additional as [extra|]; simpl; [|done].
    rewrite lookup_union.
    destruct (base !! "__proto__") as [b|] eqn:Hb.
    + destruct (extra !! k); simpl; [|by destruct (base !! k)].
      rewrite decide_False by (by intros [_ ?]). by destruct (base !! k).
    + destruct (decide (k = "__proto__")) as [->|Hne].
      * rewrite lookup_delete_eq, Hb. simpl.
        by destruct (extra !! "__proto__").
      * rewrite lookup_delete_ne by done.
        destruct (extra !! k); simpl; [|by destruct (base !! k)].
        rewrite decide_False by (by intros [? _]). by destruct (base !! k).
  - simpl. rewrite lookup_singleton_ne by done.
    by rewrite delete_singleton_eq, (left_id_L ∅ (∪)).
  - intros Hf Hs. simpl.
    assert (∀ m : gmap string string,
              match m !! "__proto__" with
              | Some _ => second
              | None => delete "__proto__" second
              end = second) as Hsecond.
    { intros m. destruct (m !! "__proto__"); [done | by apply delete_id]. }
    assert (∀ (m n : gmap string string), n !! "__proto__" = None →
              match m !! "__proto__" with
              | Some _ => n
              | None => delete "__proto__" n
              end = n) as Hany.
    { intros m n Hn. destruct (m !! "__proto__"); [done | by apply delete_id]. }
    rewrite !Hsecond, (Hany base first Hf).
    rewrite (Hany base (second ∪ first)).
    + by rewrite (assoc_L (∪)).
    + by rewrite lookup_union, Hs, Hf.
Qed.

(** X2: [validateInput] hands back the value it is given, untouched, unless
    that value is falsy: it raises 'Invalid input data' on exactly
    undefined, null, false, 0 and the empty string, so an empty object or
    an empty array passes and a JSON payload of 0 or false does not. *)
Theorem validateInput_rejects_falsy (data : jsval) :
  (validateInput data = RejectedWith (Error "Invalid input data") ↔ data ∈ falsy_values)
  ∧ (validateInput data = Fulfilled data ↔ data ∉ falsy_values)
  ∧ validateInput (JObj []) = Fulfilled (JObj [])
  ∧ validateInput (JArr []) = Fulfilled (JArr []).
Proof.
  assert (truthy data = false ↔ data ∈ falsy_values) as Hfalsy.
  { unfold falsy_values. rewrite !elem_of_cons, elem_of_nil. split.
    - destruct data as [| |[]|n|[|a s]| |]; simpl; intros H; try discriminate H;
        try (apply negb_false_iff, Z.eqb_eq in H; subst n); auto 10.
    - intros [->|[->|[->|[->|[->|[]]]]]]; reflexivity. }
  unfold validateInput. split_and!; try reflexivity.
  - rewrite <- Hfalsy. destruct (truthy data); simpl; split; done.
  - rewrite <- Hfalsy. destruct (truthy data); simpl; split; done.
Qed.

(** ** defaultFetch *)

(** X3: [defaultFetch] refuses an empty address and passes on the rejection of
    a request body that is a promise, in both cases before any request is
    made.  Otherwise it makes one request to the address: with the
    configured method, or GET when none or an empty one is configured; with
    the configured headers, a [__proto__] header apart, on top of a JSON
    content type; and with a body exactly when the configured body is not
    undefined and does not resolve to undefined, falsy values such as 0 or
    null included. *)
Theorem defaultFetch_builds_request s id url rc :
  (url = "" → defaultFetch id url rc s = (s, Throw (Error "URL is required for fetch")))
  ∧ (url ≠ "" →
     match body rc with
     | Some (Promise (RejectedWith e)) => defaultFetch id url rc s = (s, Throw e)
     | _ =>
         ∃ meth hdrs payload,
           defaultFetch id url rc s =
             (add_trace (HttpRequest meth url hdrs payload) s, Return HttpPending)
           ∧ (method rc = None ∨ method rc = Some "" → meth = "GET")
           ∧ (∀ m, method rc = Some m → m ≠ "" → meth = m)
           ∧ (∀ k, hdrs !! k =
                match headers rc ≫= (λ extra, extra !! k) with
                | Some v => if decide (k = "__proto__") then None else Some v
                | None => if decide (k = "Content-Type") then Some "application/json"
                          else None
                end)
           ∧ (body rc = None ∨ body rc = Some (Immediate JUndefined)
              ∨ body rc = Some (Promise (Fulfilled JUndefined)) → payload = None)
           ∧ (∀ v, body rc = Some (Immediate v) ∨ body rc = Some (Promise (Fulfilled v)) →
                v ≠ JUndefined → payload = Some v)
     end).
Proof.
  split.
  - intros ->. reflexivity.
  - intros Hurl. unfold defaultFetch.
    assert (falsy_string (Some url) = false) as -> by (by destruct url).
    assert (∀ k, mergeHeaders {[ "Content-Type" := "application/json" ]} (headers rc) !! k =
              match headers rc ≫= (λ extra, extra !! k) with
              | Some v => if decide (k = "__proto__") then None else Some v
              | None => if decide (k = "Content-Type") then Some "application/json"
                        else None
              end) as Hhdrs.
    { intros k. destruct (headers rc) as [extra|]; simpl.
      - rewrite lookup_singleton_ne by done. rewrite lookup_union.
        destruct (decide (k = "__proto__")) as [->|Hne].
        + rewrite lookup_delete_eq, lookup_singleton_ne by done.
          by destruct (extra !! "__proto__").
        + rewrite lookup_delete_ne by done.
          destruct (extra !! k) as [v|]; simpl.
          * by destruct ({[ "Content-Type" := "application/json" ]} !! k).
          * case_decide as Hk; [subst k; by rewrite lookup_singleton_eq|].
            by rewrite lookup_singleton_ne.
      - case_decide as Hk; [subst k; by rewrite lookup_singleton_eq|].
        by rewrite lookup_singleton_ne. }
    assert (∃ meth,
              (if falsy_string (method rc) then "GET" else default "GET" (method rc)) = meth
              ∧ (method rc = None ∨ method rc = Some "" → meth = "GET")
              ∧ (∀ m, method rc = Some m → m ≠ "" → meth = m)) as (meth & -> & Hm1 & Hm2).
    { eexists. split; [reflexivity|].
      destruct (method rc) as [[|a m]|]; simpl; split; try done.
      - by intros m' [= <-].
      - intros [H|H]; discriminate H.
      - by intros m' [= <-]. }
    destruct (body rc) as [[v|[v|e]]|] eqn:Hb; munfold; simpl.
    + destruct v; simpl; eexists _, _, _; (split; [reflexivity|]);
        split_and!; try done;
        first [ intros v' [[= <-]|[=]]; done
              | intros [H|[H|H]]; discriminate H ].
    + destruct v; simpl; eexists _, _, _; (split; [reflexivity|]);
        split_and!; try done;
        first [ intros v' [[=]|[= <-]]; done
              | intros [H|[H|H]]; discriminate H ].
    + done.
    + eexists _, _, _. split; [reflexivity|].
      split_and!; try done. intros v [H|H]; discriminate H.
Qed.

(** X4: [defaultFetch], from the response on: it yields an event exactly when
    the answer is a 2xx response whose body parses to a truthy value, and
    that value is the event; every other answer is an error.  The forwarder
    itself is not changed by it. *)
Theorem defaultFetch_accepts_truthy_json s url reply :
  (defaultFetch_response url reply s).1 = s
  ∧ (∀ v, (defaultFetch_response url reply s).2 = Return v ↔
          ∃ status text,
            reply = HttpResponse status text (Json v)
            ∧ ok status = true ∧ truthy v = true)
  ∧ ((∃ e, (defaultFetch_response url reply s).2 = Throw e) ∨
     (∃ v, (defaultFetch_response url reply s).2 = Return v)).
Proof.
  unfold defaultFetch_response, validateInput. munfold.
  destruct reply as [e|status text [|data]]; simpl;
    [| destruct (ok status) eqn:Hok; simpl
     | destruct (ok status) eqn:Hok; simpl;
       [destruct (truthy data) eqn:Hv; simpl|]];
    (split_and!; [done | | eauto]); intros v;
    (split;
     [ intros H; simplify_eq; eauto
     | intros (st & tx & Heq & Hok' & Hv'); simplify_eq; congruence ]).
Qed.

(** ** forwardToWebhook *)

(** X5: [forwardToWebhook] sends exactly one POST, to the address and with the
    payload it is given, and never a second one: it returns when the answer
    is a 2xx response, and otherwise logs and raises, a 'Webhook error' with
    the status for a response outside 2xx and the transport's own error when
    there is no response.  It touches neither the registry nor any
    resource. *)
Theorem forwardToWebhook_posts_once s id url data :
  let result := forwardToWebhook webhook id url data s in
  let s' := result.1 in
  subs s' = subs s ∧ resources s' = resources s ∧ user s' = user s
  ∧ sent s' = S (sent s)
  ∧ match webhook (sent s) url data with
    | HttpResponse status _ _ =>
        if ok status then
          result.2 = Return tt ∧ trace s' = trace s ++ [HttpPost url data]
        else
          result.2 = Throw (WebhookError status)
          ∧ trace s' = trace s ++
              [ HttpPost url data;
                Console ErrorLevel ("[" +:+ id +:+ "] Error forwarding to webhook:")
                  (Some (WebhookError status)) ]
    | NetworkError e =>
        result.2 = Throw e
        ∧ trace s' = trace s ++
            [ HttpPost url data;
              Console ErrorLevel ("[" +:+ id +:+ "] Error forwarding to webhook:")
                (Some e) ]
    end.
Proof.
  unfold forwardToWebhook, post. munfold.
  destruct (webhook (sent s) url data) as [e|status text json]; simpl.
  - split_and!; try done. by rewrite <- app_assoc.
  - destruct (ok status); simpl; split_and!; try done. by rewrite <- app_assoc.
Qed.

(** ** The pipeline, when nothing fails *)

(** X6: when the gate lets the event through (or there is none) and the
    transform, if any, yields a value, the pipeline calls the transform once
    on the event and sends one POST to [config.webhookUrl] whose payload is
    what the transform yielded, or the event itself when no transform is
    configured; with a 2xx answer it ends without logging anything. *)
Theorem pipeline_forwards_event s s0 id cfg data out u status text json :
  shouldProcessEvent id cfg s = (s0, Return true) →
  match transform cfg with
  | Some f => f data (user s0) = (Fulfilled out, u)
  | None => out = data ∧ u = user s0
  end →
  webhook (sent s0) (webhookUrl cfg) out = HttpResponse status text json →
  ok status = true →
  let result := process_event webhook id cfg data s in
  result.2 = Return tt
  ∧ trace result.1 =
      trace s0
      ++ match transform cfg with Some _ => [TransformCalled data] | None => [] end
      ++ [HttpPost (webhookUrl cfg) out]
  ∧ sent result.1 = S (sent s0)
  ∧ user result.1 = u
  ∧ subs result.1 = subs s
  ∧ resources result.1 = resources s.
Proof.
  intros Hgate Htr Hw Hok result.
  destruct (keeps_process_event id cfg data s) as [Hsubs Hres].
  fold result in Hsubs, Hres.
  assert (result =
    (set_sent (S (sent s0))
       (add_trace (HttpPost (webhookUrl cfg) out)
          (set_user u
             match transform cfg with
             | Some _ => add_trace (TransformCalled data) s0
             | None => s0
             end)),
     Return tt)) as Hrun.
  { unfold result, process_event, process_body, try_catch.
    unfold mbind at 1. unfold M_bind at 1. rewrite Hgate. simpl.
    unfold forwardToWebhook, post, call. munfold.
    destruct (transform cfg) as [f|]; simpl.
    - rewrite Htr. simpl. rewrite Hw. simpl. by rewrite Hok.
    - destruct Htr as [-> ->]. rewrite Hw. simpl. rewrite Hok. simpl.
      by destruct s0. }
  rewrite Hrun in *. simpl in *. split_and!; try done.
  destruct (transform cfg); simpl; [by rewrite <- app_assoc | done].
Qed.

(** ** unsubscribe *)

(** Closing a resource leaves the other resources as they are. *)
Lemma close_other r s r' :
  r' ≠ r → resources (close r s).1 !! r' = resources s !! r'.
Proof.
  intros Hne. unfold close. munfold. simpl.
  destruct (resources s !! r) as [x|] eqn:Hr; [|done].
  destruct (closed x); [done|]. simpl.
  match goal with
  | |- context [finalize r x ?st] =>
      destruct (finalize_spec r x st) as (s' & -> & _ & Hres & _)
  end.
  simpl in *. rewrite Hres, Hr. by apply list_lookup_insert_ne.
Qed.

Lemma teardown_other h s r' :
  r' ≠ handle_resource h → resources (teardown h s).1 !! r' = resources s !! r'.
Proof.
  intros Hne. destruct h as [r|r]; simpl in *.
  - by apply close_other.
  - munfold. simpl. by rewrite close_other.
Qed.


(** ** What ends a stream does not remove its entry *)

(** X8: no event of the environment removes an entry from the registry: only
    the settling of a factory's promise changes the registry at all, and it
    only writes an entry.  So the entry of a stream that has failed or
    completed stays until the caller unsubscribes that key. *)
Theorem entries_outlive_their_streams s ev id :
  api_call ev = false →
  (is_Some (subs s !! id) → is_Some (subs (step webhook s ev) !! id))
  ∧ ((∀ r, ev ≠ Settled r) → subs (step webhook s ev) = subs s).
Proof.
  intros Hev. destruct (registry_event ev) eqn:Hreg.
  - destruct ev; try discriminate. split; [|intros H; by destruct (H r)].
    unfold step. simpl. unfold while_open, lookup_resource, mbind, M_bind.
    destruct (resources s !! r) as [x|]; [|done].
    destruct (closed x); [done|].
    destruct (activity x) as [| |[result|e]| |]; try done; simpl.
    + unfold mbind, M_bind, subscriber_complete.
      destruct (setup_next_spec s (owner x) (config x) result)
        as (s1 & h & -> & Hs1 & _).
      destruct (close_spec r s1) as (s2 & -> & Hs2 & _).
      simpl. rewrite Hs2, Hs1. intros Hsome.
      apply lookup_insert_is_Some. destruct (decide (owner x = id)); auto.
    + assert (preserves quiet
        (console_error ("[" +:+ owner x +:+ "] Custom stream setup error:") (Some e);;
         close r)) as Hq by quiet_parts.
      destruct (Hq s) as (-> & _). done.
  - destruct (quiet_react ev Hreg s) as (Hs & _). unfold step. by rewrite Hs.
Qed.

(** ** After a resource has stopped *)

(** An event of a resource that has stopped, or that does not exist. *)
Lemma inert_step s r ev :
  (∀ x, resources s !! r = Some x → closed x = true) →
  event_resource ev = Some r →
  let s' := step webhook s ev in
  subs s' = subs s ∧ user s' = user s ∧ sent s' = sent s
  ∧ adds (λ e, is_console e = true) s s'
  ∧ length (resources s') = length (resources s)
  ∧ (∀ r' x', resources s' !! r' = Some x' →
       ∃ x, resources s !! r' = Some x ∧ closed x' = closed x)
  ∧ ((∀ i reply, ev ≠ FetchDone r i reply) → s' = s).
Proof.
  intros Hc Hev s'.
  assert (s' = s → subs s' = subs s ∧ user s' = user s ∧ sent s' = sent s
    ∧ adds (λ e, is_console e = true) s s'
    ∧ length (resources s') = length (resources s)
    ∧ (∀ r' x', resources s' !! r' = Some x' →
         ∃ x, resources s !! r' = Some x ∧ closed x' = closed x)
    ∧ ((∀ i reply, ev ≠ FetchDone r i reply) → s' = s)) as Hsame.
  { intros ->. split_and!; try done.
    - exists []. by rewrite app_nil_r.
    - intros r' x' Hx'. by exists x'. }
  assert (∀ k, while_open r k s = (s, Return tt)) as Hopen.
  { intros k. unfold while_open, lookup_resource, mbind, M_bind.
    destruct (resources s !! r) as [x|] eqn:Hx; [|done]. by rewrite (Hc x eq_refl). }
  destruct ev; simpl in Hev; simplify_eq;
    try (apply Hsame; unfold s', step; simpl; by rewrite Hopen).
  destruct (resources s !! r) as [x|] eqn:Hx;
    [|apply Hsame; unfold s', step; simpl; unfold lookup_resource, mbind, M_bind;
      by rewrite Hx].
  destruct (activity x) as [| l | | |] eqn:Ha;
    try (apply Hsame; unfold s', step; simpl; unfold lookup_resource, mbind, M_bind;
         by rewrite Hx, Ha).
  destruct (l !! i) as [fl|] eqn:Hi;
    [|apply Hsame; unfold s', step; simpl; unfold lookup_resource, mbind, M_bind;
      by rewrite Hx, Ha, Hi].
  clear Hsame. unfold s'.
  rewrite (fetch_done_step s r x l i fl reply Hx Ha Hi), poll_fetch_done_cases.
  set (y := with_activity (PollStream (delete i l)) x).
  set (su := set_resources _ s).
  assert (resources su !! r = Some y) as Hy.
  { unfold su. simpl. apply list_lookup_insert_eq. by eapply lookup_lt_Some. }
  assert (closed y = true) as Hcy by (exact (Hc x eq_refl)).
  assert (∀ r' x', resources su !! r' = Some x' →
            ∃ x0, resources s !! r' = Some x0 ∧ closed x' = closed x0) as Hback.
  { intros r' x' Hx'. destruct (decide (r' = r)) as [->|Hne].
    - exists x. split; [done|]. rewrite Hy in Hx'. by injection Hx' as <-.
    - unfold su in Hx'. simpl in Hx'.
      rewrite list_lookup_insert_ne in Hx' by done. by exists x'. }
  assert (length (resources su) = length (resources s)) as Hlen
    by (unfold su; simpl; by rewrite length_insert).
  assert (subs su = subs s ∧ user su = user s ∧ sent su = sent s ∧ trace su = trace s)
    as (Hs & Hu & Hn & Ht) by done.
  clearbody su.
  destruct (fetch_outcome _ fl reply) as [v|e].
  - assert (subscriber_next webhook r v su = (su, Return tt)) as ->.
    { unfold subscriber_next, lookup_resource, mbind, M_bind. by rewrite Hy, Hcy. }
    simpl. split_and!; try done.
    + exists []. by rewrite app_nil_r.
    + intros H. by destruct (H i reply).
  - assert (polling_error r (owner x) e su =
              (add_trace (Console ErrorLevel ("[" +:+ owner x +:+ "] Polling error:") (Some e))
                 su, Return tt)) as ->.
    { unfold polling_error, subscriber_error. munfold. simpl. by rewrite Hy, Hcy. }
    simpl. split_and!; try done.
    + eexists. simpl. rewrite Ht. split; [reflexivity|]. by apply Forall_singleton.
    + intros H. by destruct (H i reply).
Qed.

(** X9: once a resource has stopped (by [unsubscribe], by an error or by
    completion), whatever the environment still delivers for it (a late
    tick, frame, fetch answer, factory result or emission) forwards
    nothing, calls no caller code and leaves the registry alone: the state
    does not change at all, except that a fetch answered late leaves the
    list of fetches in flight and, if it failed, is logged. *)
Theorem stopped_resource_is_inert s r ev :
  stopped s r → event_resource ev = Some r →
  let s' := step webhook s ev in
  subs s' = subs s ∧ user s' = user s ∧ sent s' = sent s
  ∧ (∃ t, trace s' = trace s ++ t ∧ Forall (λ e, is_console e = true) t)
  ∧ stopped s' r
  ∧ ((∀ i reply, ev ≠ FetchDone r i reply) → s' = s).
Proof.
  intros (x & Hx & Hc) Hev s'.
  destruct (inert_step s r ev) as (Hs & Hu & Hn & Ht & Hl & Hback & Hsame); [|done|].
  { intros y Hy. congruence. }
  fold s' in Hs, Hu, Hn, Ht, Hl, Hback, Hsame.
  split_and!; try done.
  destruct (lookup_lt_is_Some_2 (resources s') r) as [x' Hx'].
  { rewrite Hl. by eapply lookup_lt_Some. }
  destruct (Hback r x' Hx') as (x0 & Hx0 & Hcl).
  exists x'. split; [done|]. congruence.
Qed.



(** ** Polling *)

Lemma falsy_default_url (url : option string) :
  falsy_string url = false → falsy_string (Some (default "" url)) = false.
Proof. by destruct url as [[|a u]|]. Qed.

(** The default fetch sends its request whenever it can build it. *)
Lemma defaultFetch_sends s id url rc :
  falsy_string (Some url) = false →
  (∀ e, body rc ≠ Some (Promise (RejectedWith e))) →
  ∃ meth hdrs payload,
    defaultFetch id url rc s =
      (add_trace (HttpRequest meth url hdrs payload) s, Return HttpPending).
Proof.
  intros Hurl Hb. unfold defaultFetch. rewrite Hurl.
  destruct (body rc) as [[v|[v|e]]|]; munfold; simpl;
    [destruct v; simpl | | by destruct (Hb e) |]; eauto.
Qed.

(** A tick of a polling stream without gate and without [customFetch]. *)
Lemma tick_request s r x l :
  resources s !! r = Some x → closed x = false → activity x = PollStream l →
  shouldFetch (config x) = None → customFetch (config x) = None →
  can_request (config x) →
  ∃ meth hdrs payload,
    step webhook s (Tick r) =
      set_resources
        (λ _, <[r := with_activity (PollStream (l ++ [HttpPending])) x]> (resources s))
        (add_trace
           (HttpRequest meth (default "" (sourceUrl (config x))) hdrs payload) s).
Proof.
  intros Hx Hc Ha Hg Hcf [Hurl Hb].
  destruct (defaultFetch_sends s (owner x) (default "" (sourceUrl (config x)))
              (fetch_config (config x)) (falsy_default_url _ Hurl) Hb)
    as (meth & hdrs & payload & Hsend).
  exists meth, hdrs, payload.
  rewrite (tick_step s r x l Hx Hc Ha).
  unfold poll_tick, shouldProcessEvent, launch_fetch. rewrite Hg, Hcf, Hurl.
  unfold fetch_config in Hsend.
  unfold try_catch. unfold mbind at 1. unfold M_bind at 1. simpl.
  unfold mbind at 1. unfold M_bind at 1. rewrite Hsend.
  unfold update_resource, modify, set_resources, add_trace. simpl.
  by rewrite Hx, Ha.
Qed.

(** X11: the interval does not wait for the fetch of the previous tick: each
    tick of a running polling stream (without gate, with the default fetch)
    sends a request of its own, so after [n] ticks that nobody has answered
    yet, [n] more requests have been sent and [n] more fetches are in
    flight; nothing is forwarded by the ticks themselves. *)
Theorem ticks_do_not_wait_for_answers n s r x l :
  resources s !! r = Some x → closed x = false → activity x = PollStream l →
  shouldFetch (config x) = None → customFetch (config x) = None →
  can_request (config x) →
  let s' := run webhook (replicate n (Tick r)) s in
  inflight_of s' r = l ++ replicate n HttpPending
  ∧ requests (trace s') = n + requests (trace s)
  ∧ running s' r
  ∧ sent s' = sent s
  ∧ subs s' = subs s.
Proof.
  revert s x l. induction n as [|n IH]; intros s x l Hx Hc Ha Hg Hcf Hreq; simpl.
  - split_and!; try done.
    + unfold inflight_of. by rewrite Hx, Ha, app_nil_r.
    + by exists x.
  - destruct (tick_request s r x l Hx Hc Ha Hg Hcf Hreq)
      as (meth & hdrs & payload & Hstep).
    set (x1 := with_activity (PollStream (l ++ [HttpPending])) x).
    assert (resources (step webhook s (Tick r)) !! r = Some x1) as Hx1.
    { rewrite Hstep. simpl. apply list_lookup_insert_eq. by eapply lookup_lt_Some. }
    destruct (IH (step webhook s (Tick r)) x1 (l ++ [HttpPending]) Hx1)
      as (Hin & Hrq & Hrun & Hsent & Hsubs); try done.
    split_and!.
    + rewrite Hin. by rewrite <- app_assoc.
    + rewrite Hrq, Hstep. unfold requests. simpl.
      rewrite List.filter_app, length_app. simpl. lia.
    + done.
    + by rewrite Hsent, Hstep.
    + by rewrite Hsubs, Hstep.
Qed.

(** X12: one whole polling cycle when nothing fails (no gate, no transform, the
    default fetch): the tick sends one request to [config.sourceUrl]; a 2xx
    answer whose body parses to a truthy value is forwarded as it is, in
    one POST to [config.webhookUrl]; afterwards the stream is exactly as it
    was before the tick. *)
Theorem poll_cycle_forwards_answer s r x l status text v wstatus wtext wjson :
  resources s !! r = Some x → closed x = false → activity x = PollStream l →
  shouldFetch (config x) = None → customFetch (config x) = None →
  transform (config x) = None → can_request (config x) →
  ok status = true → truthy v = true →
  webhook (sent s) (webhookUrl (config x)) v = HttpResponse wstatus wtext wjson →
  ok wstatus = true →
  let s1 := step webhook s (Tick r) in
  let s2 := step webhook s1 (FetchDone r (length l) (HttpResponse status text (Json v))) in
  (∃ meth hdrs payload,
     trace s2 = trace s ++
       [ HttpRequest meth (default "" (sourceUrl (config x))) hdrs payload;
         HttpPost (webhookUrl (config x)) v ])
  ∧ sent s1 = sent s
  ∧ sent s2 = S (sent s)
  ∧ resources s2 = resources s
  ∧ subs s2 = subs s
  ∧ user s2 = user s.
Proof.
  intros Hx Hc Ha Hg Hcf Htr Hreq Hok Hv Hw Hwok s1 s2.
  destruct (tick_request s r x l Hx Hc Ha Hg Hcf Hreq)
    as (meth & hdrs & payload & Hstep).
  fold s1 in Hstep.
  set (x1 := with_activity (PollStream (l ++ [HttpPending])) x).
  assert (resources s1 !! r = Some x1) as Hx1.
  { rewrite Hstep. simpl. apply list_lookup_insert_eq. by eapply lookup_lt_Some. }
  assert ((l ++ [HttpPending]) !! length l = Some HttpPending) as Hi
    by (by apply list_lookup_middle).
  assert (with_activity (PollStream l) x1 = x) as Hback.
  { destruct x as [o c a cl]. simpl in Ha. by subst a. }
  assert (s2 =
    set_sent (S (sent s))
      (add_trace (HttpPost (webhookUrl (config x)) v)
         (add_trace
            (HttpRequest meth (default "" (sourceUrl (config x))) hdrs payload) s)))
    as Hs2.
  { unfold s2.
    rewrite (fetch_done_step s1 r x1 (l ++ [HttpPending]) (length l) HttpPending _
               Hx1 eq_refl Hi).
    rewrite poll_fetch_done_cases. simpl. rewrite Hok. simpl.
    unfold validateInput. rewrite Hv. simpl.
    rewrite delete_middle, app_nil_r, Hback.
    assert (set_resources (λ _, <[r := x]> (resources s1)) s1 =
            add_trace
              (HttpRequest meth (default "" (sourceUrl (config x))) hdrs payload) s)
      as ->.
    { rewrite Hstep. unfold set_resources, add_trace. simpl.
      by rewrite list_insert_insert_eq, (list_insert_id _ _ _ Hx). }
    unfold subscriber_next, lookup_resource. unfold mbind at 1. unfold M_bind at 1.
    simpl. rewrite Hx, Hc.
    unfold process_event, process_body, shouldProcessEvent, forwardToWebhook, post.
    rewrite Hg, Htr. munfold. simpl. rewrite Hw. simpl. by rewrite Hwok. }
  split_and!.
  - exists meth, hdrs, payload. rewrite Hs2. simpl. by rewrite <- app_assoc.
  - by rewrite Hstep.
  - by rewrite Hs2.
  - by rewrite Hs2.
  - by rewrite Hs2.
  - by rewrite Hs2.
Qed.

(** An error delivered to a running polling stream. *)
Lemma polling_error_open s r x l e :
  resources s !! r = Some x → closed x = false → activity x = PollStream l →
  polling_error r (owner x) e s =
    (add_trace (IntervalCleared r)
       (set_resources (λ _, <[r := with_closed x]> (resources s))
          (add_trace (Console ErrorLevel ("[" +:+ owner x +:+ "] Stream error:") (Some e))
             (add_trace
                (Console ErrorLevel ("[" +:+ owner x +:+ "] Polling error:") (Some e))
                s))),
     Return tt).
Proof.
  intros Hx Hc Ha.
  assert (<[r := with_closed x]> (resources s) !! r = Some (with_closed x)) as Hr'.
  { apply list_lookup_insert_eq. by eapply lookup_lt_Some. }
  unfold polling_error, subscriber_error, stream_error_handler, close, finalize.
  munfold.
  repeat (progress (simpl; rewrite ?Hx, ?Hr', ?Hc, ?Ha)).
  unfold modify, add_trace, set_resources. simpl. by rewrite Hx.
Qed.

(** What a polling stream is left with once an error has been delivered to
    it. *)
Lemma polling_error_ends s s1 r x l e :
  resources s !! r = Some x → closed x = false → activity x = PollStream l →
  s1 = (polling_error r (owner x) e s).1 →
  trace s1 = trace s ++
    [ Console ErrorLevel ("[" +:+ owner x +:+ "] Polling error:") (Some e);
      Console ErrorLevel ("[" +:+ owner x +:+ "] Stream error:") (Some e);
      IntervalCleared r ]
  ∧ stopped s1 r
  ∧ subs s1 = subs s ∧ sent s1 = sent s ∧ user s1 = user s
  ∧ (∀ evs, step webhook (run webhook evs s1) (Tick r) = run webhook evs s1).
Proof.
  intros Hx Hc Ha ->. rewrite (polling_error_open s r x l e Hx Hc Ha). simpl.
  assert (stopped
    (add_trace (IntervalCleared r)
       (set_resources (λ _, <[r := with_closed x]> (resources s))
          (add_trace (Console ErrorLevel ("[" +:+ owner x +:+ "] Stream error:") (Some e))
             (add_trace
                (Console ErrorLevel ("[" +:+ owner x +:+ "] Polling error:") (Some e))
                s)))) r) as Hst.
  { eexists. simpl. rewrite list_lookup_insert_eq by (by eapply lookup_lt_Some). done. }
  split_and!; try done.
  - by rewrite <- !app_assoc.
  - intros evs. by apply stopped_tick, stopped_forever.
Qed.

(** X13: a gate that raises, or whose promise rejects, during a tick ends the
    polling stream, whereas the same failure in the pipeline only costs the
    event: the error is logged as a polling error and delivered to the
    stream, whose interval is cleared; no request is sent, the entry stays
    in the registry, and later ticks do nothing. *)
Theorem gate_failure_ends_polling s r x l gate ctx e u :
  resources s !! r = Some x → closed x = false → activity x = PollStream l →
  shouldFetch (config x) = Some gate → gate_context (config x) ctx →
  gate ctx (user s) = (RejectedWith e, u) →
  let s1 := step webhook s (Tick r) in
  trace s1 = trace s ++
    [ GateCalled ctx;
      Console ErrorLevel ("[" +:+ owner x +:+ "] Polling error:") (Some e);
      Console ErrorLevel ("[" +:+ owner x +:+ "] Stream error:") (Some e);
      IntervalCleared r ]
  ∧ stopped s1 r
  ∧ subs s1 = subs s
  ∧ sent s1 = sent s
  ∧ user s1 = u
  ∧ (∀ evs, step webhook (run webhook evs s1) (Tick r) = run webhook evs s1).
Proof.
  intros Hx Hc Ha Hg Hctx He s1.
  set (s0 := set_user u (add_trace (GateCalled ctx) s)).
  assert (s1 = (polling_error r (owner x) e s0).1) as Hs1.
  { unfold s1. rewrite (tick_step s r x l Hx Hc Ha).
    rewrite (poll_tick_gate s r x gate ctx Hg Hctx). by rewrite He. }
  destruct (polling_error_ends s0 s1 r x l e) as (Ht & Hst & Hs & Hn & Hu & Hev);
    try done.
  split_and!; try done.
  rewrite Ht. simpl. by rewrite <- app_assoc.
Qed.

(** X14: a gate that answers false at a tick skips that tick's fetch and nothing
    more: the gate has been called once, two lines are logged, no request is
    sent, and the stream and its fetches in flight are as before, so the
    next tick asks the gate again. *)
Theorem closed_gate_skips_the_fetch s r x l gate ctx u :
  resources s !! r = Some x → closed x = false → activity x = PollStream l →
  shouldFetch (config x) = Some gate → gate_context (config x) ctx →
  gate ctx (user s) = (Fulfilled false, u) →
  let s1 := step webhook s (Tick r) in
  trace s1 = trace s ++
    [ GateCalled ctx;
      Console LogLevel
        ("[" +:+ owner x +:+ "] Skipping event processing based on shouldFetch condition")
        None;
      Console LogLevel
        ("[" +:+ owner x +:+ "] Skipping fetch based on shouldFetch condition") None ]
  ∧ resources s1 = resources s
  ∧ subs s1 = subs s
  ∧ sent s1 = sent s
  ∧ user s1 = u
  ∧ step webhook s1 (Tick r) = (poll_tick r x s1).1.
Proof.
  intros Hx Hc Ha Hg Hctx Hgate s1.
  assert (s1 =
    add_trace
      (Console LogLevel
         ("[" +:+ owner x +:+ "] Skipping fetch based on shouldFetch condition") None)
      (add_trace
         (Console LogLevel
            ("[" +:+ owner x +:+ "] Skipping event processing based on shouldFetch condition")
            None)
         (set_user u (add_trace (GateCalled ctx) s)))) as Hs1.
  { unfold s1. rewrite (tick_step s r x l Hx Hc Ha).
    rewrite (poll_tick_gate s r x gate ctx Hg Hctx). by rewrite Hgate. }
  split_and!; try (by rewrite Hs1).
  - rewrite Hs1. simpl. by rewrite <- !app_assoc.
  - apply (tick_step s1 r x l); [by rewrite Hs1 | done | done].
Qed.

(** X15: a request body that is a promise which rejects ends a polling stream at
    its first tick, when there is a gate (which awaits the body before the
    gate is called) or when the default fetch is used (which awaits it
    before the request): nothing is called and nothing is sent, the error
    is delivered to the stream and its interval is cleared. *)
Theorem rejected_body_ends_polling s r x l e :
  resources s !! r = Some x → closed x = false → activity x = PollStream l →
  request_body (config x) = Some (Promise (RejectedWith e)) →
  is_Some (shouldFetch (config x)) ∨ customFetch (config x) = None →
  falsy_string (sourceUrl (config x)) = false →
  let s1 := step webhook s (Tick r) in
  trace s1 = trace s ++
    [ Console ErrorLevel ("[" +:+ owner x +:+ "] Polling error:") (Some e);
      Console ErrorLevel ("[" +:+ owner x +:+ "] Stream error:") (Some e);
      IntervalCleared r ]
  ∧ stopped s1 r
  ∧ subs s1 = subs s
  ∧ sent s1 = sent s
  ∧ user s1 = user s
  ∧ (∀ evs, step webhook (run webhook evs s1) (Tick r) = run webhook evs s1).
Proof.
  intros Hx Hc Ha Hb Hor Hurl s1.
  assert (s1 = (polling_error r (owner x) e s).1) as Hs1.
  { unfold s1. rewrite (tick_step s r x l Hx Hc Ha). unfold poll_tick.
    destruct (shouldFetch (config x)) as [gate|] eqn:Hg.
    - unfold try_catch. unfold mbind at 1. unfold M_bind at 1.
      by rewrite (shouldProcessEvent_rejected s (owner x) (config x) gate e Hg Hb).
    - destruct Hor as [[? [=]]|Hcf].
      unfold shouldProcessEvent, launch_fetch, defaultFetch.
      rewrite Hg, Hcf, Hurl, (falsy_default_url _ Hurl).
      unfold request_body in Hb.
      destruct (requestConfig (config x)) as [rc|]; [|discriminate Hb].
      simpl in Hb. munfold. simpl. by rewrite Hb. }
  by apply (polling_error_ends s s1 r x l e).
Qed.

(** X16: a fetch that is answered, but not with an event, ends the polling
    stream just as a failed one does: when the body of a 2xx response does
    not parse, or parses to a falsy value such as null or 0, or when the
    promise of the caller's [customFetch] rejects, the error is logged and
    delivered to the stream, whose interval is cleared; nothing is
    forwarded and later ticks do nothing. *)
Theorem unusable_answer_ends_polling s r x l i fl reply e :
  resources s !! r = Some x → closed x = false →
  activity x = PollStream l → l !! i = Some fl →
  unusable_result fl reply e →
  let s1 := step webhook s (FetchDone r i reply) in
  trace s1 = trace s ++
    [ Console ErrorLevel ("[" +:+ owner x +:+ "] Polling error:") (Some e);
      Console ErrorLevel ("[" +:+ owner x +:+ "] Stream error:") (Some e);
      IntervalCleared r ]
  ∧ stopped s1 r
  ∧ subs s1 = subs s
  ∧ sent s1 = sent s
  ∧ user s1 = user s
  ∧ (∀ evs, step webhook (run webhook evs s1) (Tick r) = run webhook evs s1).
Proof.
  intros Hx Hc Ha Hi Hbad s1.
  set (y := with_activity (PollStream (delete i l)) x).
  set (su := set_resources (λ _, <[r := y]> (resources s)) s).
  assert (resources su !! r = Some y) as Hy.
  { unfold su. simpl. apply list_lookup_insert_eq. by eapply lookup_lt_Some. }
  assert (s1 = (polling_error r (owner y) e su).1) as Hs1.
  { unfold s1. rewrite (fetch_done_step s r x l i fl reply Hx Ha Hi).
    rewrite poll_fetch_done_cases.
    assert (fetch_outcome (default "" (sourceUrl (config x))) fl reply = RejectedWith e)
      as ->; [|done].
    destruct Hbad as [status text Hok|status text v Hok Hv|e reply]; simpl;
      rewrite ?Hok; simpl; [done | | done].
    unfold validateInput. by rewrite Hv. }
  by apply (polling_error_ends su s1 r y (delete i l) e).
Qed.


(** ** Socket frames that parse *)

(** X18: a frame that parses to a truthy value is handed to the pipeline as it
    is, and nothing else happens: no parse error is logged, the connection
    and the registry stay as they are whatever the pipeline does with the
    event (a failing webhook included), and the next such frame is handed
    to the pipeline in the same way. *)
Theorem good_frame_reaches_pipeline s r x soFar v :
  resources s !! r = Some x → closed x = false →
  activity x = SocketStream Connected soFar → truthy v = true →
  let s' := step webhook s (Frame r (Json v)) in
  s' = (process_event webhook (owner x) (config x) v s).1
  ∧ resources s' = resources s
  ∧ subs s' = subs s
  ∧ (∀ v', truthy v' = true →
       step webhook s' (Frame r (Json v')) =
       (process_event webhook (owner x) (config x) v' s').1).
Proof.
  intros Hx Hc Ha Hv s'.
  assert (∀ s0 v0, resources s0 !! r = Some x → truthy v0 = true →
            step webhook s0 (Frame r (Json v0)) =
            (process_event webhook (owner x) (config x) v0 s0).1) as Hframe.
  { intros s0 v0 Hx0 Hv0.
    destruct (delivery_is_subscriber_next s0 r x Hx0 Hc) as (Hdel & _).
    rewrite (Hdel soFar v0 Ha Hv0).
    by rewrite (subscriber_next_open s0 r x v0 Hx0 Hc). }
  assert (s' = (process_event webhook (owner x) (config x) v s).1) as Hs'
    by (by apply Hframe).
  destruct (keeps_process_event (owner x) (config x) v s) as [Hsubs Hres].
  rewrite <- Hs' in Hsubs, Hres.
  split_and!; try done.
  intros v' Hv'. apply Hframe; [by rewrite Hres | done].
Qed.

(** ** subscribe, when it succeeds *)

(** Whatever the registry holds for the key, [subscribe] acts as on a state
    in which the key is free. *)
Lemma subscribe_on_clean s id cfg :
  ∃ s0,
    subscribe id cfg s = subscribe id cfg s0
    ∧ subs s0 = delete id (subs s)
    ∧ user s0 = user s ∧ sent s0 = sent s
    ∧ length (resources s0) = length (resources s)
    ∧ evolves (resources s) (resources s0)
    ∧ trace s `prefix_of` trace s0
    ∧ (subs s !! id = None → s0 = s).
Proof.
  destruct (subs s !! id) as [h|] eqn:Hid.
  - destruct (subscribe_replaces s id cfg h Hid) as (s0 & Hrun & ->).
    munfold. simpl in Hrun.
    match type of Hrun with
    | unsubscribe id ?st = _ =>
        destruct (unsubscribe_spec id st)
          as (s1 & Hrun1 & Hs1 & Hu1 & Hn1 & Hl1 & He1 & Ht1 & _)
    end.
    rewrite Hrun in Hrun1. injection Hrun1 as <-. simpl in *.
    exists s0. split_and!; try done.
    etrans; [|exact Ht1]. by apply prefix_app_r.
  - exists s. split_and!; try done. by rewrite delete_id.
Qed.



(** X20: subscribing to a socket or polling source under a free, ordinary key
    sends no request and runs no caller code: for a socket it opens one
    connection to [config.sourceUrl], for a polling source it starts one
    interval of [config.pollInterval], or of 0 when that interval is
    negative, with no fetch in flight, so the first request waits for the
    first tick. *)
Theorem subscribe_starts_the_source s id cfg url :
  ordinary id → subs s !! id = None → sourceUrl cfg = Some url → url ≠ "" →
  let r := length (resources s) in
  let s' := (subscribe_key id cfg s).1 in
  (type cfg = websocket →
     trace s' = trace s ++ [SocketOpened r url]
     ∧ resources s' = resources s ++
         [ {| owner := id; config := cfg;
              activity := SocketStream Connected 0; closed := false |} ]
     ∧ user s' = user s)
  ∧ (∀ period, type cfg = poll → pollInterval cfg = Some period → period ≠ 0%Z →
       trace s' = trace s ++ [IntervalStarted r (Z.max 0 period)]
       ∧ (0 < period → Z.max 0 period = period)%Z
       ∧ resources s' = resources s ++
           [ {| owner := id; config := cfg;
                activity := PollStream []; closed := false |} ]
       ∧ user s' = user s).
Proof.
  intros Hord Hid Hurl Hne r s'.
  assert (falsy_string (sourceUrl cfg) = false) as Hfs
    by (rewrite Hurl; by destruct url).
  unfold s'. rewrite subscribe_key_ordinary by exact Hord.
  unfold subscribe, createWebSocketStream, createPollingStream, subscribe_stream, start.
  munfold. simpl. rewrite Hid. simpl. split.
  - intros ->. simpl. rewrite Hfs, Hurl. done.
  - intros period -> Hp Hp0. simpl.
    assert (falsy_number (pollInterval cfg) = false) as ->
      by (rewrite Hp; by destruct period).
    simpl. rewrite Hfs, Hp. split_and!; try done. lia.
Qed.

(** ** subscribe, when a field is unusable or the factory raises *)




(** X23: the private method [createCustomStream] and the code [subscribe] runs
    for a custom source under a free, ordinary key agree: one raises
    exactly when the other does, having called the factory as often; when
    the factory is missing, the two messages differ by the key that
    [subscribe] puts in front; and when the factory returns a promise, it
    is that promise whose setup [subscribe] records. *)
Theorem createCustomStream_matches_subscribe s id cfg :
  ordinary id → type cfg = custom → subs s !! id = None →
  match createCustomStream cfg s with
  | (s1, Return p) =>
      subscribe_key id cfg s =
        (set_subs <[id := SubscriptionHandle (length (resources s))]>
           (set_resources
              (λ l, l ++ [ {| owner := id; config := cfg;
                              activity := FactorySetup p; closed := false |} ])
              s1),
         Return id)
  | (s1, Throw e) =>
      ∃ e',
        subscribe_key id cfg s = (s1, Throw e')
        ∧ (createStream cfg = None →
             e = Error "createStream is required for custom sources"
             ∧ e' = Error ("[" +:+ id +:+ "] createStream is required for custom sources"))
        ∧ (is_Some (createStream cfg) → e' = e)
  end.
Proof.
  intros Hord Ht Hid. rewrite subscribe_key_ordinary by exact Hord.
  unfold createCustomStream, subscribe, call_factory, start. munfold. simpl.
  rewrite Hid, Ht. simpl.
  destruct (createStream cfg) as [factory|]; simpl.
  - destruct (factory (user s)) as [[e|p] u]; simpl.
    + eexists. split_and!; [done | done | done].
    + by rewrite Hid.
  - eexists. split_and!; [done | done |]. by intros [? [=]].
Qed.

(** ** Custom sources, once the factory's promise has settled *)

Lemma keeps_subscriber_next r data : preserves keeps (subscriber_next webhook r data).
Proof.
  intros s. unfold subscriber_next, lookup_resource, mbind, M_bind.
  destruct (resources s !! r) as [x|]; [|done].
  destruct (closed x); [done|]. apply keeps_process_event.
Qed.





(** X27: an error of the observable a factory handed over is logged once as a
    stream error and ends the stream: the forwarder unsubscribes from the
    observable, does not subscribe to it again, and drops whatever it emits
    afterwards; the entry stays in the registry and nothing is forwarded. *)
Theorem source_failure_ends_custom_stream s r x e :
  resources s !! r = Some x → closed x = false → activity x = CustomStream →
  let s1 := step webhook s (SourceFailed r e) in
  trace s1 = trace s ++
    [ Console ErrorLevel ("[" +:+ owner x +:+ "] Stream error:") (Some e);
      SourceUnsubscribed r ]
  ∧ stopped s1 r
  ∧ subs s1 = subs s
  ∧ sent s1 = sent s
  ∧ user s1 = user s
  ∧ (∀ data, step webhook s1 (Emitted r data) = s1).
Proof.
  intros Hx Hc Ha s1.
  assert (s1 =
    add_trace (SourceUnsubscribed r)
      (set_resources (λ _, <[r := with_closed x]> (resources s))
         (add_trace (Console ErrorLevel ("[" +:+ owner x +:+ "] Stream error:") (Some e))
            s))) as Hs1.
  { unfold s1, step. simpl.
    unfold while_open, lookup_resource. unfold mbind at 1. unfold M_bind at 1.
    rewrite Hx, Hc, Ha.
    unfold subscriber_error, stream_error_handler, lookup_resource.
    unfold mbind at 1. unfold M_bind at 1. rewrite Hx, Hc.
    munfold. simpl.
    match goal with
    | |- context [close r ?st] => rewrite (close_open r x st Hx Hc)
    end.
    unfold finalize. by rewrite Ha. }
  assert (stopped s1 r) as Hst.
  { rewrite Hs1. eexists.
    split; [simpl; apply list_lookup_insert_eq; by eapply lookup_lt_Some | done]. }
  split_and!; [| done | by rewrite Hs1 | by rewrite Hs1 | by rewrite Hs1 |].
  - rewrite Hs1. simpl. by rewrite <- app_assoc.
  - intros data. destruct Hst as (y & Hy & Hcy). unfold step. simpl.
    unfold while_open, lookup_resource, mbind, M_bind. by rewrite Hy, Hcy.
Qed.

(** ** Connections are opened by subscribe only *)

#[local] Abbreviation adds := (@adds U).

#[local] Instance adds_preorder (P : Effect → Prop) : PreOrder (adds P).
Proof.
  split.
  - intros s. exists []. by rewrite app_nil_r.
  - intros s1 s2 s3 (t & Ht & HP) (t' & Ht' & HP').
    exists (t ++ t'). split; [by rewrite Ht', Ht, app_assoc | by apply Forall_app].
Qed.

(** A program that leaves the trace alone. *)
Lemma adds_silent {A} (P : Effect → Prop) (m : M A) :
  (∀ s : @Forwarder U, trace (m s).1 = trace s) → preserves (adds P) m.
Proof. intros Hm s. exists []. by rewrite app_nil_r. Qed.

Lemma adds_emit (P : Effect → Prop) e : P e → preserves (adds P) (emit (U := U) e).
Proof. intros HP s. exists [e]. split; [done | by apply Forall_singleton]. Qed.

Lemma adds_await (P : Effect → Prop) {A} (p : settled A) :
  preserves (adds P) (await (U := U) p).
Proof. apply adds_silent. intros s. by destruct p. Qed.

Lemma adds_resolve (P : Effect → Prop) {A} (b : awaitable A) :
  preserves (adds P) (resolve (U := U) b).
Proof. apply adds_silent. intros s. by destruct b as [a|[a|e]]. Qed.

Lemma adds_call (P : Effect → Prop) {A B} (f : @callback U A B) (a : A) :
  preserves (adds P) (call f a).
Proof.
  apply adds_silent. intros s. unfold call. by destruct (f a (user s)) as [[b|e] u].
Qed.

Lemma adds_call_custom_fetch (P : Effect → Prop) f args :
  preserves (adds P) (call_custom_fetch (U := U) f args).
Proof.
  apply adds_silent. intros s. unfold call_custom_fetch.
  by destruct (f args (user s)) as [res u].
Qed.

Lemma adds_post (P : Effect → Prop) url payload :
  P (HttpPost url payload) → preserves (adds P) (post webhook url payload).
Proof.
  intros HP s. exists [HttpPost url payload]. unfold post.
  split; [by destruct (webhook _ _ _) | by apply Forall_singleton].
Qed.

(** Break a program into parts none of which opens a connection. *)
Ltac adds_parts :=
  preserves_with ltac:(first
    [ apply adds_emit; by intros ?
    | apply adds_post; by intros ?
    | apply adds_call
    | apply adds_call_custom_fetch
    | apply adds_await
    | apply adds_resolve
    | apply adds_silent; by intros ?
    | match goal with H : _ |- _ => apply H end ]).

Lemma adds_close r : preserves (adds opens_nothing) (close (U := U) r).
Proof. unfold close, finalize. adds_parts. Qed.

Lemma adds_pipeline id cfg data :
  preserves (adds opens_nothing) (process_event webhook id cfg data).
Proof.
  unfold process_event, process_body, shouldProcessEvent, forwardToWebhook.
  adds_parts.
Qed.

Lemma adds_subscriber_next r data :
  preserves (adds opens_nothing) (subscriber_next webhook r data).
Proof.
  unfold subscriber_next.
  apply preserves_bind; [apply _ | by apply adds_silent | intros [x|]].
  - destruct (closed x); [apply preserves_ret; apply _ | apply adds_pipeline].
  - apply preserves_ret; apply _.
Qed.

Lemma adds_subscriber_error r e :
  preserves (adds opens_nothing) (subscriber_error (U := U) r e).
Proof.
  unfold subscriber_error, stream_error_handler.
  pose proof (adds_close r). adds_parts.
Qed.

Lemma adds_unsubscribe id : preserves (adds opens_nothing) (unsubscribe (U := U) id).
Proof.
  unfold unsubscribe, teardown. pose proof adds_close. adds_parts.
Qed.

Lemma adds_unsubscribe_key id :
  preserves (adds opens_nothing) (unsubscribe_key (U := U) id).
Proof.
  intros s. destruct (blocked s id) eqn:Hb.
  - by destruct (unsubscribe_key_blocked s id Hb) as (-> & _).
  - rewrite (unsubscribe_key_unblocked s id Hb). apply adds_unsubscribe.
Qed.

(** Whatever happens besides a call of [subscribe], no connection is
    opened: the retry policy in particular never opens one. *)
Lemma adds_react ev :
  (∀ id cfg, ev ≠ CallSubscribe id cfg) →
  preserves (adds opens_nothing) (react webhook ev).
Proof.
  intros Hev.
  pose proof adds_close. pose proof adds_subscriber_next.
  pose proof adds_subscriber_error. pose proof adds_unsubscribe.
  pose proof adds_unsubscribe_key.
  destruct ev; simpl;
    unfold while_open, unsubscribeAll, poll_tick, poll_fetch_done, polling_error,
      launch_fetch, defaultFetch, defaultFetch_response, shouldProcessEvent,
      socket_message, socket_error, deserializer, retry_resume,
      delay_notifier_signal, subscriber_complete, setup_settled, setup_next, start.
  - by destruct (Hev id cfg).
  - adds_parts.
  - adds_parts.
  - adds_parts.
  - adds_parts.
  - adds_parts.
  - adds_parts.
  - adds_parts.
  - adds_parts.
  - adds_parts.
  - adds_parts.
  - adds_parts.
  - adds_parts.
Qed.

Lemma connections_app r t t' :
  connections r (t ++ t') = connections r t + connections r t'.
Proof. unfold connections. by rewrite List.filter_app, length_app. Qed.

Lemma adds_connections r s s' :
  adds opens_nothing s s' → connections r (trace s') = connections r (trace s).
Proof.
  intros (t & -> & HP). rewrite connections_app.
  assert (connections r t = 0) as ->; [|lia].
  unfold connections. induction HP as [|e t He _ IH]; [done|]. simpl.
  by rewrite (He r).
Qed.

Lemma evolves_length (l l' : list (@Resource U)) : evolves l l' → length l ≤ length l'.
Proof.
  intros He. destruct (decide (length l = 0)) as [H0|Hpos]; [lia|].
  destruct (lookup_lt_is_Some_2 l (length l - 1)) as [x Hx]; [lia|].
  destruct (He _ _ Hx) as (x' & Hx' & _). apply lookup_lt_Some in Hx'. lia.
Qed.

(** [subscribe] opens at most one connection, and then for the resource it
    adds. *)
Lemma subscribe_connections s id cfg r :
  let s' := (subscribe id cfg s).1 in
  connections r (trace s') = connections r (trace s)
  ∨ (r = length (resources s) ∧ length (resources s') = S r
     ∧ connections r (trace s') = S (connections r (trace s))).
Proof.
  intros s'.
  assert (∃ s0, subscribe id cfg s = subscribe id cfg s0 ∧ subs s0 !! id = None
                ∧ length (resources s0) = length (resources s)
                ∧ connections r (trace s0) = connections r (trace s))
    as (s0 & Heq & Hid & Hl & Hc).
  { destruct (subs s !! id) as [h|] eqn:Hid; [|by exists s].
    destruct (subscribe_replaces s id cfg h Hid) as (s0 & Hrun & ->).
    assert (preserves (adds opens_nothing)
      (console_log (U := U)
         ("[" +:+ id +:+ "] Cleaning up existing subscription before resubscribing");;
       unsubscribe id)) as Hq.
    { pose proof adds_unsubscribe. adds_parts. }
    specialize (Hq s). rewrite Hrun in Hq. simpl in Hq.
    munfold. simpl in Hrun.
    match type of Hrun with
    | unsubscribe id ?st = _ =>
        destruct (unsubscribe_spec id st) as (s1 & Hrun1 & Hs1 & _ & _ & Hl1 & _)
    end.
    rewrite Hrun in Hrun1. injection Hrun1 as <-. simpl in *.
    exists s0. split_and!; try done.
    - by rewrite Hs1, lookup_delete_eq.
    - by apply adds_connections. }
  unfold s'. rewrite Heq, <- Hl, <- Hc. clear s' Heq Hl Hc.
  unfold subscribe, createWebSocketStream, createPollingStream, subscribe_stream,
    call_factory, start.
  munfold. simpl. rewrite Hid. simpl.
  destruct (type cfg); simpl.
  - destruct (falsy_string (sourceUrl cfg)); simpl; [by left|].
    rewrite connections_app, length_app, Nat.add_1_r.
    assert (∀ url, connections r [SocketOpened (length (resources s0)) url] =
                   if bool_decide (length (resources s0) = r) then 1 else 0) as Hone
      by (intros url; unfold connections; simpl; by case_bool_decide).
    rewrite Hone. case_bool_decide as Hr.
    + right. split_and!; [done | by rewrite Hr | lia].
    + left. lia.
  - destruct (falsy_number (pollInterval cfg)); simpl; [by left|].
    destruct (falsy_string (sourceUrl cfg)); simpl; [by left|].
    left. rewrite connections_app. unfold connections at 2. simpl. lia.
  - destruct (createStream cfg) as [factory|]; simpl; [|by left].
    destruct (factory (user s0)) as [[e|p] u]; simpl.
    + left. rewrite connections_app. unfold connections at 2. simpl. lia.
    + rewrite Hid. simpl. left. rewrite connections_app. unfold connections at 2.
      simpl. lia.
Qed.

Lemma subscribe_key_connections s id cfg r :
  let s' := (subscribe_key id cfg s).1 in
  connections r (trace s') = connections r (trace s)
  ∨ (r = length (resources s) ∧ length (resources s') = S r
     ∧ connections r (trace s') = S (connections r (trace s))).
Proof.
  intros s'. unfold s'. clear s'. destruct (blocked s id) eqn:Hb.
  - rewrite (subscribe_key_blocked s id cfg Hb). simpl. left.
    rewrite connections_app. unfold connections at 2. simpl. lia.
  - destruct (subscribe_key_unblocked s id cfg Hb) as [_ ->].
    destruct (cleaned_spec s id) as (_ & _ & _ & Hl & _).
    match goal with
    | |- context [subscribe id cfg ?st] => set (s0 := st) in *
    end.
    assert (connections r (trace s0) = connections r (trace s)) as Hc.
    { unfold s0. destruct (read_subs (subs s) id); [|done].
      assert (preserves (adds opens_nothing)
        (console_log (U := U)
           ("[" +:+ id +:+ "] Cleaning up existing subscription before resubscribing");;
         unsubscribe id)) as Hq.
      { pose proof adds_unsubscribe. adds_parts. }
      apply (adds_connections r s _ (Hq s)). }
    clearbody s0. rewrite <- Hl, <- Hc.
    pose proof (subscribe_connections s0 id cfg r) as H.
    by destruct (records id cfg).
Qed.

(** What holds of the connections in every state: none for a resource that
    does not exist yet, at most one for each one that does. *)
Lemma connections_run evs s :
  (∀ r, connections r (trace s) ≤ 1
        ∧ (length (resources s) ≤ r → connections r (trace s) = 0)) →
  ∀ r, connections r (trace (run webhook evs s)) ≤ 1
       ∧ (length (resources (run webhook evs s)) ≤ r →
            connections r (trace (run webhook evs s)) = 0).
Proof.
  revert s. induction evs as [|ev evs IH]; intros s Hinv; [done|].
  simpl. apply IH. intros r. destruct (Hinv r) as [H1 H0].
  pose proof (evolves_length _ _ (react_evolves s ev)) as Hlen.
  fold (step webhook s ev) in Hlen.
  assert ((∀ id cfg, ev ≠ CallSubscribe id cfg) ∨ ∃ id cfg, ev = CallSubscribe id cfg)
    as [Hev|(id & cfg & ->)] by (destruct ev; eauto).
  - rewrite (adds_connections r s (step webhook s ev) (adds_react ev Hev s)).
    split; [done|]. intros Hr. apply H0. lia.
  - assert (step webhook s (CallSubscribe id cfg) = (subscribe_key id cfg s).1) as Hstep.
    { unfold step. simpl. unfold mbind, M_bind.
      by destruct (subscribe_key id cfg s) as [s' [a|e]]. }
    rewrite Hstep in *.
    destruct (subscribe_key_connections s id cfg r) as [->|(-> & Hl & ->)].
    + split; [done|]. intros Hr. apply H0. lia.
    + rewrite H0 by lia. split; [lia|]. intros Hr. lia.
Qed.

(** X28: a subscription connects once and never again: in every state the
    forwarder can be in, at most one connection has been opened for each
    resource, so after a connection has failed or ended, only a new
    [subscribe] opens another one. *)
Theorem socket_connects_once s r :
  reachable webhook s → connections r (trace s) ≤ 1.
Proof.
  intros (u & evs & ->).
  apply (connections_run evs (new_forwarder u)).
  intros r'. split; [unfold connections; simpl; lia | done].
Qed.

(** ** Subscriptions do not interfere *)

#[local] Instance apart_preorder r o : PreOrder (@apart U r o).
Proof.
  split.
  - intros s. by split_and!.
  - intros s1 s2 s3 (Hl & Hr & Hs) (Hl' & Hr' & Hs'). split_and!.
    + lia.
    + intros r' Hne Hlt. rewrite Hr' by (done || lia). by apply Hr.
    + intros id Hne. rewrite Hs' by done. by apply Hs.
Qed.

Lemma apart_keeps {A} r o (m : M A) : preserves keeps m → preserves (@apart U r o) m.
Proof.
  intros Hm s. destruct (Hm s) as [Hs Hr]. split_and!.
  - by rewrite Hr.
  - intros r' _ _. by rewrite Hr.
  - intros id _. by rewrite Hs.
Qed.

Lemma keeps_lookup_resource r : preserves keeps (lookup_resource (U := U) r).
Proof. intros s. by split. Qed.

Lemma keeps_call_custom_fetch f args : preserves keeps (call_custom_fetch (U := U) f args).
Proof.
  intros s. unfold call_custom_fetch. by destruct (f args (user s)) as [res u].
Qed.

Lemma apart_update_resource r o (f : @Resource U → @Resource U) :
  preserves (apart r o) (update_resource r f).
Proof.
  intros s. unfold update_resource, modify. simpl. split_and!; simpl; try done.
  - destruct (resources s !! r); [by rewrite length_insert | done].
  - intros r' Hne _. destruct (resources s !! r); [|done].
    by apply list_lookup_insert_ne.
Qed.

Lemma apart_start r o id cfg a : preserves (apart r o) (start (U := U) id cfg a).
Proof.
  intros s. unfold start. simpl. split_and!; simpl; try done.
  - rewrite length_app. lia.
  - intros r' _ Hlt. by apply lookup_app_l.
Qed.

Lemma apart_record r o h :
  preserves (apart r o) (modify (set_subs (U := U) <[o := h]>)).
Proof.
  intros s. unfold modify. simpl. split_and!; simpl; try done.
  intros id Hne. by apply lookup_insert_ne.
Qed.

(** Break a program into parts that leave the other subscriptions alone. *)
Ltac apart_parts :=
  preserves_with ltac:(first
    [ apply apart_keeps;
      first [ apply keeps_subscriber_next | apply keeps_process_event
            | apply keeps_lookup_resource | apply keeps_call_custom_fetch
            | solve [auto with keeps] ]
    | apply apart_update_resource
    | apply apart_start
    | apply apart_record
    | match goal with H : _ |- _ => apply H end ]).

Lemma apart_close r o : preserves (apart r o) (close (U := U) r).
Proof. unfold close, finalize. apart_parts. Qed.

Lemma apart_subscriber_error r o e : preserves (apart r o) (subscriber_error (U := U) r e).
Proof.
  unfold subscriber_error, stream_error_handler. pose proof (apart_close r o).
  apart_parts.
Qed.

(** What each event does once its resource has been looked up. *)
Lemma apart_handlers r x :
  preserves (apart r (owner x)) (poll_tick r x)
  ∧ (∀ fl reply, preserves (apart r (owner x)) (poll_fetch_done webhook r x fl reply))
  ∧ (∀ soFar msg, preserves (apart r (owner x)) (socket_message webhook r x soFar msg))
  ∧ (∀ soFar e, preserves (apart r (owner x)) (socket_error r x soFar e))
  ∧ (∀ soFar, preserves (apart r (owner x))
                (retry_resume r x soFar delay_notifier_signal))
  ∧ (∀ p, preserves (apart r (owner x)) (setup_settled webhook r x p)).
Proof.
  pose proof (apart_close r (owner x)) as Hclose.
  pose proof (apart_subscriber_error r (owner x)) as Herror.
  unfold poll_tick, poll_fetch_done, polling_error, launch_fetch, defaultFetch,
    defaultFetch_response, socket_message, socket_error, deserializer, retry_resume,
    delay_notifier_signal, subscriber_complete, setup_settled, setup_next.
  split_and!; intros; apart_parts.
Qed.

(** X29: an event of one resource leaves every other resource exactly as it
    was, and the registry entries of every key but that resource's own: a
    stream that fails, completes or is slow never stops, restarts or
    unregisters another subscription. *)
Theorem streams_do_not_interfere s ev r :
  event_resource ev = Some r →
  let s' := step webhook s ev in
  (∀ r', r' ≠ r → r' < length (resources s) →
     resources s' !! r' = resources s !! r')
  ∧ (∀ id, (∀ x, resources s !! r = Some x → owner x ≠ id) →
       subs s' !! id = subs s !! id).
Proof.
  intros Hev s'.
  destruct (resources s !! r) as [x|] eqn:Hx; cycle 1.
  { assert (s' = s) as ->; [|done].
    unfold s', step.
    destruct ev; simpl in Hev; simplify_eq; simpl;
      unfold while_open, lookup_resource, mbind, M_bind; by rewrite Hx. }
  assert (apart r (owner x) s s') as (_ & Hres & Hsubs); cycle 1.
  { split; [done|]. intros id Hid. apply Hsubs. intros Heq.
    by apply (Hid x eq_refl). }
  destruct (apart_handlers r x) as (Htick & Hdone & Hmsg & Hfail & Hretry & Hsettled).
  pose proof (apart_close r (owner x)) as Hclose.
  pose proof (apart_subscriber_error r (owner x)) as Herror.
  unfold s', step.
  destruct ev; simpl in Hev; simplify_eq; simpl;
    unfold while_open, lookup_resource; unfold mbind at 1; unfold M_bind at 1;
    rewrite Hx.
  - destruct (closed x); [reflexivity|].
    destruct (activity x); first [reflexivity | apply Htick].
  - destruct (activity x) as [| l | | |]; try reflexivity.
    destruct (l !! i) as [fl|]; [|reflexivity].
    assert (preserves (apart r (owner x))
      (update_resource r (with_activity (PollStream (delete i l)));;
       poll_fetch_done webhook r x fl reply)) as Hq.
    { apply preserves_bind; [apply _ | apply apart_update_resource | intros _; apply Hdone]. }
    apply Hq.
  - destruct (closed x); [reflexivity|].
    destruct (activity x) as [[]| | | |]; first [reflexivity | apply Hmsg].
  - destruct (closed x); [reflexivity|].
    destruct (activity x) as [[]| | | |]; first [reflexivity | apply Hfail].
  - destruct (closed x); [reflexivity|].
    destruct (activity x) as [[]| | | |]; first [reflexivity | apply Hclose].
  - destruct (closed x); [reflexivity|].
    destruct (activity x) as [[]| | | |];
      first [reflexivity | apply Hretry | apply Hclose].
  - destruct (closed x); [reflexivity|].
    destruct (activity x); first [reflexivity | apply Hsettled].
  - destruct (closed x); [reflexivity|].
    destruct (activity x); try reflexivity.
    apply apart_keeps, keeps_subscriber_next.
  - destruct (closed x); [reflexivity|].
    destruct (activity x); first [reflexivity | apply Herror].
  - destruct (closed x); [reflexivity|].
    destruct (activity x); first [reflexivity | apply Hclose].
Qed.

(** ** The API spares the other keys *)

Lemma entries_own_evolves s s' :
  subs s' = subs s → evolves (resources s) (resources s') →
  entries_own s → entries_own s'.
Proof.
  intros Hs He Hown id h Hid. rewrite Hs in Hid.
  destruct (Hown id h Hid) as (x & Hx & Ho).
  destruct (He _ _ Hx) as (x' & Hx' & Ho' & _). exists x'. split; [done | congruence].
Qed.

Lemma entries_own_delete s s' id :
  subs s' = delete id (subs s) → evolves (resources s) (resources s') →
  entries_own s → entries_own s'.
Proof.
  intros Hs He Hown k h Hk. rewrite Hs in Hk.
  apply lookup_delete_Some in Hk as [_ Hk].
  destruct (Hown k h Hk) as (x & Hx & Ho).
  destruct (He _ _ Hx) as (x' & Hx' & Ho' & _). exists x'. split; [done | congruence].
Qed.

Lemma entries_own_subscribe s id cfg :
  entries_own s → entries_own (subscribe id cfg s).1.
Proof.
  intros Hown.
  destruct (subscribe_on_clean s id cfg) as (s0 & -> & Hs0 & _ & _ & _ & He0 & _).
  assert (entries_own s0) as Hown0 by (by apply (entries_own_delete s s0 id)).
  assert (subs s0 !! id = None) as Hnone by (by rewrite Hs0, lookup_delete_eq).
  destruct (subscribe_fresh s0 id cfg Hnone)
    as [(s' & e & -> & Hs & Hr & _) | (s' & a & -> & Hs & Hr & _)]; simpl.
  - intros k h. rewrite Hs, Hr. apply Hown0.
  - intros k h Hk. rewrite Hs in Hk. rewrite Hr.
    destruct (decide (k = id)) as [->|Hne].
    + rewrite lookup_insert_eq in Hk. injection Hk as <-. simpl.
      eexists. split; [by apply list_lookup_middle | done].
    + rewrite lookup_insert_ne in Hk by done.
      destruct (Hown0 k h Hk) as (x & Hx & Ho). exists x.
      split; [by apply lookup_app_l_Some | done].
Qed.

Lemma entries_own_subscribe_key s id cfg :
  entries_own s → entries_own (subscribe_key id cfg s).1.
Proof.
  intros Hown. destruct (blocked s id) eqn:Hb.
  - by rewrite (subscribe_key_blocked s id cfg Hb).
  - destruct (subscribe_key_unblocked s id cfg Hb) as [Hnone ->].
    destruct (cleaned_spec s id) as (Hs0 & _ & _ & _ & He0 & _).
    match type of Hnone with subs ?st !! _ = _ => set (s0 := st) in * end.
    clearbody s0.
    assert (entries_own s0) as Hown0 by (by apply (entries_own_delete s s0 id)).
    destruct (records id cfg); [by apply entries_own_subscribe|].
    apply (entries_own_evolves s0); [done | apply subscribe_evolves | done].
Qed.

Lemma entries_own_react s ev : entries_own s → entries_own (react webhook ev s).1.
Proof.
  intros Hown. destruct (registry_event ev) eqn:Hev.
  - destruct ev; try discriminate; simpl.
    + unfold mbind, M_bind.
      pose proof (entries_own_subscribe_key s id cfg Hown) as H.
      by destruct (subscribe_key id cfg s) as [s' [a|e]].
    + destruct (blocked s id) eqn:Hb.
      { by destruct (unsubscribe_key_blocked s id Hb) as (-> & _). }
      rewrite (unsubscribe_key_unblocked s id Hb).
      destruct (unsubscribe_spec id s) as (s' & -> & Hs & _ & _ & _ & He & _).
      by apply (entries_own_delete s s' id).
    + unfold unsubscribeAll, mbind, M_bind, get. simpl.
      destruct (for_each_unsubscribe (keys (subs s)) s)
        as (s' & -> & Hs & _ & _ & _ & He & _); [apply NoDup_fst_map_to_list|].
      simpl. intros k h Hk. rewrite Hs in Hk. case_decide; [done|].
      destruct (Hown k h Hk) as (x & Hx & Ho).
      destruct (He _ _ Hx) as (x' & Hx' & Ho' & _).
      exists x'. split; [done | congruence].
    + unfold while_open, lookup_resource, mbind, M_bind.
      destruct (resources s !! r) as [x|] eqn:Hx; [|done].
      destruct (closed x) eqn:Hc; [done|].
      destruct (activity x) as [| |[result|e]| |]; try done; simpl.
      * unfold mbind, M_bind, subscriber_complete.
        destruct (setup_next_spec s (owner x) (config x) result)
          as (s1 & h & -> & Hs1 & Hh & _ & He1 & (xn & Hxn & Hon) & _).
        destruct (close_spec r s1) as (s2 & -> & Hs2 & _ & _ & _ & He2 & _).
        simpl. apply (entries_own_evolves s1 s2 Hs2 He2).
        intros k h' Hk. rewrite Hs1 in Hk.
        destruct (decide (k = owner x)) as [->|Hne].
        -- rewrite lookup_insert_eq in Hk. injection Hk as <-.
           rewrite Hh. by exists xn.
        -- rewrite lookup_insert_ne in Hk by done.
           destruct (Hown k h' Hk) as (y & Hy & Ho).
           destruct (He1 _ _ Hy) as (y' & Hy' & Ho' & _).
           exists y'. split; [done | congruence].
      * assert (preserves quiet
          (console_error ("[" +:+ owner x +:+ "] Custom stream setup error:") (Some e);;
           close r)) as Hq by quiet_parts.
        destruct (Hq s) as (Hs & _ & He & _). by apply (entries_own_evolves s _ Hs He).
  - destruct (quiet_react ev Hev s) as (Hs & _ & He & _).
    by apply (entries_own_evolves s _ Hs He).
Qed.

Lemma reachable_entries_own s : reachable webhook s → entries_own s.
Proof.
  intros (u & evs & ->).
  assert (∀ s0 : @Forwarder U, entries_own s0 → entries_own (run webhook evs s0)) as Hrun.
  { induction evs as [|ev evs IH]; intros s0 H0; [done|].
    simpl. apply IH. by apply entries_own_react. }
  apply Hrun. intros id h Hid. simpl in Hid. by rewrite lookup_empty in Hid.
Qed.

(** X30: in every state the forwarder can be in, each registry entry names a
    resource that was started for its own key, so a call of [unsubscribe]
    or [subscribe] for one key leaves the resources of every other key
    exactly as they were: replacing or removing one subscription never
    stops or alters another. *)
Theorem api_spares_other_keys s id cfg r x :
  reachable webhook s →
  resources s !! r = Some x → owner x ≠ id →
  resources (unsubscribe id s).1 !! r = Some x
  ∧ resources (subscribe id cfg s).1 !! r = Some x
  ∧ (∀ k h, subs s !! k = Some h →
       ∃ y, resources s !! handle_resource h = Some y ∧ owner y = k).
Proof.
  intros Hreach Hx Ho.
  pose proof (reachable_entries_own s Hreach) as Hown.
  assert (∀ s0 : @Forwarder U, entries_own s0 → resources s0 !! r = Some x →
            resources (unsubscribe id s0).1 !! r = Some x) as Hunsub.
  { intros s0 Hown0 Hx0. unfold unsubscribe. munfold. simpl.
    destruct (subs s0 !! id) as [h|] eqn:Hid; [|done].
    destruct (teardown_spec h s0) as (s1 & Hrun & _).
    pose proof (teardown_other h s0 r) as Hother. rewrite Hrun in *.
    simpl in *. rewrite Hother; [done|]. intros ->.
    destruct (Hown0 id h Hid) as (y & Hy & Hoy). congruence. }
  split_and!; [by apply Hunsub | | exact Hown].
  destruct (subs s !! id) as [h|] eqn:Hid.
  - destruct (subscribe_replaces s id cfg h Hid) as (s0 & Hrun & ->).
    munfold. simpl in Hrun.
    assert (resources s0 !! r = Some x) as Hx0.
    { match type of Hrun with
      | unsubscribe id ?st = _ =>
          pose proof (Hunsub st Hown Hx) as H
      end.
      by rewrite Hrun in H. }
    assert (subs s0 !! id = None) as Hnone.
    { match type of Hrun with
      | unsubscribe id ?st = _ =>
          destruct (unsubscribe_spec id st) as (s1 & Hrun1 & Hs1 & _)
      end.
      rewrite Hrun in Hrun1. injection Hrun1 as <-. simpl in Hs1.
      by rewrite Hs1, lookup_delete_eq. }
    destruct (subscribe_fresh s0 id cfg Hnone)
      as [(s' & e & -> & _ & Hr & _) | (s' & a & -> & _ & Hr & _)]; simpl; rewrite Hr.
    + done.
    + by apply lookup_app_l_Some.
  - destruct (subscribe_fresh s id cfg Hid)
      as [(s' & e & -> & _ & Hr & _) | (s' & a & -> & _ & Hr & _)]; simpl; rewrite Hr.
    + done.
    + by apply lookup_app_l_Some.
Qed.

End Properties.

(** ** A gate that fires once *)

Section OnceGate.

Context (webhook : nat → string → jsval → HttpReply).
Context (cfg : @ForwarderConfig nat).
Hypothesis cfg_poll : type cfg = poll.
Hypothesis cfg_gate : shouldFetch cfg = Some once_gate.
Hypothesis cfg_fetch : private_fetch cfg.

Implicit Types (s : @Forwarder nat) (x : @Resource nat).

(** The invariant survives what changes neither the counter of the gate nor
    any activity. *)
Lemma once_inv_no_licence s s' :
  within no_licence s s' → once_inv cfg s → once_inv cfg s'.
Proof.
  intros Hw [Hsent Hres].
  assert (∀ r, inflight_of s' r = inflight_of s r) as Hin
    by (intros r; by apply (within_inflight no_licence)).
  destruct Hw as (_ & _ & Hn & Hu & _ & Hr).
  split; [by rewrite Hn|].
  intros r x' Hx'. destruct (Hr r x' Hx') as (x & Hx & _ & Hcf & _ & Hp & _).
  destruct (Hres r x Hx) as (Hc & Hpoll & Hfl).
  split_and!; [congruence | auto |].
  rewrite Hu by done. intros H0. rewrite Hin. by apply Hfl.
Qed.

(** The invariant survives what changes no configuration, turns no polling
    stream into something else, forwards nothing and leaves the gate's
    counter above zero. *)
Lemma once_inv_counted s s' :
  (∀ r x', resources s' !! r = Some x' →
     ∃ x, resources s !! r = Some x ∧ config x' = config x ∧ (is_poll x → is_poll x')) →
  sent s' = sent s → user s' ≠ 0 →
  once_inv cfg s → once_inv cfg s'.
Proof.
  intros Hr Hn Hu [Hsent Hres]. split; [congruence|].
  intros r x' Hx'. destruct (Hr r x' Hx') as (x & Hx & Hcf & Hp).
  destruct (Hres r x Hx) as (Hc & Hpoll & _).
  split_and!; [congruence | auto | done].
Qed.

Lemma within_shape lic s s' :
  within lic s s' →
  ∀ r x', resources s' !! r = Some x' →
    ∃ x, resources s !! r = Some x ∧ config x' = config x ∧ (is_poll x → is_poll x').
Proof.
  intros (_ & _ & _ & _ & _ & Hr) r x' Hx'.
  destruct (Hr r x' Hx') as (x & Hx & _ & Hcf & _ & Hp & _). eauto.
Qed.

Lemma once_process_event s id data :
  user s ≠ 0 →
  let s' := (process_event webhook id cfg data s).1 in
  sent s' = sent s ∧ user s' ≠ 0 ∧ resources s' = resources s.
Proof.
  intros Hu s'. subst s'.
  destruct (gate_context_cases cfg) as [[ctx Hctx] | [e Hb]].
  - rewrite (process_event_gate webhook s id cfg data once_gate ctx cfg_gate Hctx).
    unfold once_gate. simpl.
    destruct (Nat.eqb_neq (user s) 0) as [_ ->]; done.
  - unfold process_event, process_body, try_catch, mbind, M_bind.
    by rewrite (shouldProcessEvent_rejected s id cfg once_gate e cfg_gate Hb).
Qed.

Lemma once_inv_tick s r : once_inv cfg s → once_inv cfg (step webhook s (Tick r)).
Proof.
  intros Hinv.
  destruct (resources s !! r) as [x|] eqn:Hx; cycle 1.
  { unfold step. simpl. unfold while_open, lookup_resource, mbind, M_bind. by rewrite Hx. }
  destruct (closed x) eqn:Hc.
  { unfold step. simpl. unfold while_open, lookup_resource, mbind, M_bind. by rewrite Hx, Hc. }
  destruct Hinv as [Hsent Hres].
  destruct (Hres r x Hx) as (Hcfg & [l Ha] & Hfl).
  assert (shouldFetch (config x) = Some once_gate) as Hg by (by rewrite Hcfg).
  destruct (gate_context_cases (config x)) as [[ctx Hctx] | [e Hb]].
  - destruct (tick_gate webhook s r x l once_gate ctx Hx Hc Ha Hg Hctx)
      as (_ & Hn & Hw & _ & Huser).
    apply once_inv_counted with s; [by eapply within_shape | done | | by split].
    rewrite Huser; [done|]. left. by rewrite Hcfg.
  - rewrite (tick_step webhook s r x l Hx Hc Ha).
    unfold poll_tick, try_catch, mbind, M_bind.
    rewrite (shouldProcessEvent_rejected s (owner x) (config x) once_gate e Hg Hb).
    apply once_inv_no_licence with s; [|by split].
    apply within_polling_error.
Qed.

Lemma once_inv_fetch_done s r i reply :
  once_inv cfg s → once_inv cfg (step webhook s (FetchDone r i reply)).
Proof.
  intros Hinv.
  destruct (resources s !! r) as [x|] eqn:Hx; cycle 1.
  { unfold step. simpl. unfold lookup_resource, mbind, M_bind. by rewrite Hx. }
  pose proof Hinv as [Hsent Hres].
  destruct (Hres r x Hx) as (Hcfg & [l Ha] & Hfl).
  destruct (l !! i) as [fl|] eqn:Hi; cycle 1.
  { unfold step. simpl. unfold lookup_resource, mbind, M_bind. by rewrite Hx, Ha, Hi. }
  assert (user s ≠ 0) as Hu.
  { intros H0. specialize (Hfl H0). unfold inflight_of in Hfl.
    rewrite Hx, Ha in Hfl. by subst l. }
  rewrite (fetch_done_step webhook s r x l i fl reply Hx Ha Hi), poll_fetch_done_cases.
  set (su := set_resources _ s).
  assert (resources su !! r = Some (with_activity (PollStream (delete i l)) x)) as Hxu.
  { unfold su. simpl. apply list_lookup_insert_eq. by eapply lookup_lt_Some. }
  assert (once_inv cfg su) as Hinvu.
  { apply once_inv_counted with s; try done.
    intros r' x' Hx'. unfold su in Hx'. simpl in Hx'.
    destruct (decide (r' = r)) as [->|Hne].
    - rewrite list_lookup_insert_eq in Hx' by (by eapply lookup_lt_Some).
      injection Hx' as <-. exists x. split_and!; try done. intros _. by eexists.
    - rewrite list_lookup_insert_ne in Hx' by done. by exists x'. }
  destruct (fetch_outcome _ fl reply) as [v|e].
  - unfold subscriber_next, lookup_resource, mbind, M_bind. rewrite Hxu. simpl.
    destruct (closed x); [done|].
    destruct (once_process_event su (owner x) v Hu) as (Hn & Hu' & Hr).
    rewrite Hcfg.
    apply once_inv_counted with su; try done.
    intros r' x' Hx'. rewrite Hr in Hx'. by exists x'.
  - apply once_inv_no_licence with su; [|done].
    apply within_polling_error.
Qed.

Lemma once_inv_unsubscribe s id : once_inv cfg s → once_inv cfg (unsubscribe id s).1.
Proof.
  intros Hinv. unfold unsubscribe, get, modify, mbind, M_bind. simpl.
  destruct (subs s !! id) as [h|]; [|done].
  pose proof (within_teardown no_licence h s) as Hw.
  destruct (returns_teardown h s) as [[] Hret].
  destruct (teardown h s) as [s' o]. simpl in *. subst o. simpl.
  exact (once_inv_no_licence s s' Hw Hinv).
Qed.

Lemma once_inv_unsubscribe_each l s :
  once_inv cfg s → once_inv cfg (for_each l unsubscribe s).1.
Proof.
  revert s. induction l as [|id l IH]; intros s Hinv; [done|].
  simpl. unfold mbind, M_bind.
  pose proof (once_inv_unsubscribe s id Hinv) as H.
  destruct (unsubscribe_spec id s) as (s' & Hrun & _).
  rewrite Hrun in *. by apply IH.
Qed.

Lemma once_inv_subscribe s id : once_inv cfg s → once_inv cfg (subscribe id cfg s).1.
Proof.
  assert (∀ s0, subs s0 !! id = None → once_inv cfg s0 →
            once_inv cfg (subscribe id cfg s0).1) as Hfresh.
  { intros s0 Hid [Hsent Hres].
    destruct (subscribe_fresh_poll s0 id cfg Hid cfg_poll) as [[e ->] | ->]; [by split|].
    split; [done|]. simpl. intros r x Hx.
    apply lookup_app_Some in Hx as [Hx | [Hlen Hx]].
    - destruct (Hres r x Hx) as (Hc & Hp & Hfl). split_and!; try done.
      intros H0. specialize (Hfl H0). unfold inflight_of in *. simpl.
      by rewrite (lookup_app_l_Some _ _ _ _ Hx), Hx in *.
    - apply list_lookup_singleton_Some in Hx as [Hz <-]. simpl.
      split_and!; [done | by eexists |].
      intros _. unfold inflight_of. simpl.
      assert (r = length (resources s0)) as -> by lia.
      by rewrite list_lookup_middle. }
  intros Hinv. destruct (subs s !! id) as [h|] eqn:Hid; [|by apply Hfresh].
  destruct (subscribe_replaces s id cfg h Hid) as (s0 & Hrun & ->).
  unfold console_log, emit, modify, mbind, M_bind in Hrun. simpl in Hrun.
  match type of Hrun with
  | unsubscribe id ?st = _ =>
      pose proof (once_inv_unsubscribe st id Hinv) as Hinv0;
      destruct (unsubscribe_spec id st) as (s1 & Hrun1 & Hs1 & _)
  end.
  rewrite Hrun in *. injection Hrun1 as <-. simpl in *.
  apply Hfresh; [|done]. by rewrite Hs1, lookup_delete_eq.
Qed.

(** The same for calls made on any key. *)
Lemma once_inv_unsubscribe_key s id :
  once_inv cfg s → once_inv cfg (unsubscribe_key id s).1.
Proof.
  intros Hinv. destruct (blocked s id) eqn:Hb.
  - by destruct (unsubscribe_key_blocked s id Hb) as (-> & _).
  - rewrite (unsubscribe_key_unblocked s id Hb). by apply once_inv_unsubscribe.
Qed.

Lemma once_inv_subscribe_key s id :
  once_inv cfg s → once_inv cfg (subscribe_key id cfg s).1.
Proof.
  intros Hinv. destruct (blocked s id) eqn:Hb.
  - by rewrite (subscribe_key_blocked s id cfg Hb).
  - destruct (subscribe_key_unblocked s id cfg Hb) as [_ ->].
    assert (records id cfg = true) as -> by (unfold records; by rewrite cfg_poll).
    apply once_inv_subscribe.
    destruct (read_subs (subs s) id); [|done].
    by apply once_inv_unsubscribe.
Qed.

Lemma once_inv_step s ev :
  (∀ id c, ev = CallSubscribe id c → c = cfg) →
  once_inv cfg s → once_inv cfg (step webhook s ev).
Proof.
  intros Hev Hinv.
  assert (∀ r (k : @Resource nat → M unit),
            (∀ x l, activity x = PollStream l → k x = mret tt) →
            once_inv cfg (while_open r k s).1) as Hother.
  { intros r k Hk. unfold while_open, lookup_resource, mbind, M_bind.
    destruct (resources s !! r) as [x|] eqn:Hx; [|done].
    destruct (closed x); [done|].
    pose proof Hinv as [_ Hres]. destruct (Hres r x Hx) as (_ & [l Ha] & _).
    by rewrite (Hk x l Ha). }
  destruct ev; unfold step; simpl.
  - rewrite (Hev id cfg0 eq_refl). unfold mbind, M_bind.
    pose proof (once_inv_subscribe_key s id Hinv) as H.
    by destruct (subscribe_key id cfg s) as [s' [a|e]].
  - by apply once_inv_unsubscribe_key.
  - unfold unsubscribeAll, mbind, M_bind, get. simpl.
    by apply once_inv_unsubscribe_each.
  - by apply once_inv_tick.
  - by apply once_inv_fetch_done.
  - apply Hother. intros x l Ha. by rewrite Ha.
  - apply Hother. intros x l Ha. by rewrite Ha.
  - apply Hother. intros x l Ha. by rewrite Ha.
  - apply Hother. intros x l Ha. by rewrite Ha.
  - apply Hother. intros x l Ha. by rewrite Ha.
  - apply Hother. intros x l Ha. by rewrite Ha.
  - apply Hother. intros x l Ha. by rewrite Ha.
  - apply Hother. intros x l Ha. by rewrite Ha.
Qed.

Lemma once_inv_run evs s :
  only_config cfg evs → once_inv cfg s → once_inv cfg (run webhook evs s).
Proof.
  intros Hevs. revert s. induction Hevs as [|ev evs Hev _ IH]; intros s Hinv; [done|].
  simpl. apply IH. by apply once_inv_step.
Qed.

(** Behind a gate that fires once, a polling forwarder never forwards. *)
Lemma once_gate_never_forwards evs :
  only_config cfg evs → sent (run webhook evs (new_forwarder 0)) = 0.
Proof.
  intros Hevs. apply (once_inv_run evs (new_forwarder 0) Hevs).
  split; [done|]. intros r x Hx. simpl in Hx. by rewrite lookup_nil in Hx.
Qed.

End OnceGate.

(** * The claims that span both parts, and the claims at sample inputs *)

(** C10: in a polling stream with a gate, the tick calls the gate once,
    before anything else, and launches the fetch only if the gate answers
    true; the pipeline calls it once more, again before anything else, on
    every event a fetch of the stream delivers, whether or not the event
    ends up forwarded: after the tick and the delivery the gate has been
    called exactly twice.  The event is forwarded only if the second call
    answers true; for the fetch launched by that very tick the first call
    answered true as well, and when the fetch in between leaves the
    caller's state alone, the second call starts from the state the first
    one left.  So behind a gate that answers true on its first call only
    (and whose counter the fetch does not touch), a forwarder that polls
    never forwards anything, whatever the caller and the environment do. *)
Theorem poll_gate_evaluated_twice :
  (∀ (U : Type) (webhook : nat → string → jsval → HttpReply) (s : @Forwarder U)
     (r : nat) (x : @Resource U) (l : list InFlight)
     (gate : @callback U jsval bool) (ctx : jsval),
     resources s !! r = Some x → closed x = false → activity x = PollStream l →
     shouldFetch (config x) = Some gate → gate_context (config x) ctx →
     let s1 := step webhook s (Tick r) in
     gate_calls (trace s1) = 1 + gate_calls (trace s)
     ∧ (∃ t, trace s1 = trace s ++ GateCalled ctx :: t)
     ∧ sent s1 = sent s
     ∧ ((gate ctx (user s)).1 ≠ Fulfilled true → inflight_of s1 r = l)
     ∧ (private_fetch (config x) → user s1 = (gate ctx (user s)).2)
     ∧ (∀ (i : nat) (fl : InFlight) (reply : HttpReply) (v : jsval),
          running s1 r → inflight_of s1 r !! i = Some fl →
          fetch_outcome (default "" (sourceUrl (config x))) fl reply = Fulfilled v →
          let s2 := step webhook s1 (FetchDone r i reply) in
          gate_calls (trace s2) = 2 + gate_calls (trace s)
          ∧ (∃ t, trace s2 = trace s1 ++ GateCalled ctx :: t)
          ∧ (sent s2 ≠ sent s1 → (gate ctx (user s1)).1 = Fulfilled true)
          ∧ (length l ≤ i → (gate ctx (user s)).1 = Fulfilled true)))
  ∧ (∀ (webhook : nat → string → jsval → HttpReply) (cfg : @ForwarderConfig nat)
       (evs : list (@Event nat)),
       type cfg = poll → shouldFetch cfg = Some once_gate → private_fetch cfg →
       only_config cfg evs →
       sent (run webhook evs (new_forwarder 0)) = 0).
Proof.
  split.
  - intros U webhook s r x l gate ctx. apply poll_cycle_gate.
  - intros webhook cfg evs Ht Hg Hf. by apply once_gate_never_forwards.
Qed.

(** C5 (what the code does): a socket subscription whose connection fails
    once logs the error and the first retry, arms the 5000 ms timer and
    drops the connection; when the timer fires, the notifier completes
    without a value and [retry] completes the stream: it is closed without
    any reconnection and without an error reaching the error handler, and no
    event of the environment has any effect afterwards. *)
Theorem socket_failure_completes_without_retry (e : JSError) :
  let s := run ok_webhook [SocketFailed 0 e; RetryTimer 0] socket_state in
  trace s =
    [ SocketOpened 0 "wss://sensors.example.com/stream";
      Console ErrorLevel "[sensor-stream] WebSocket error:" (Some e);
      Console LogLevel "[sensor-stream] Retrying connection... attempt 1" None;
      TimeoutSet 0 5000;
      SocketClosed 0 ]
  ∧ stopped s 0
  ∧ subs s !! "sensor-stream" = Some (SubscriptionHandle 0)
  ∧ (∀ ev, registry_event ev = false → step ok_webhook s ev = s).
Proof.
  split_and!.
  - reflexivity.
  - eexists. split; reflexivity.
  - reflexivity.
  - intros ev Hev.
    destruct ev as [| | |r|r i reply|r msg|r e'|r|r|r|r data|r e'|r];
      try discriminate; destruct r as [|r]; reflexivity.
Qed.

(** ** The theorems at sample inputs *)

(** C1, on a polling stream whose first fetch is answered with status 500. *)
Lemma poll_fetch_failure_ends_stream_witness :
  let s := polling_state None in
  let x := polling_resource None [HttpPending] in
  let e := HttpStatusError 500 "https://api.example.com/data" "Internal Server Error" in
  (resources s !! 0 = Some x ∧ closed x = false
   ∧ activity x = PollStream [HttpPending]
   ∧ [HttpPending] !! 0 = Some HttpPending
   ∧ failed_reply (default "" (sourceUrl (config x))) server_error e)
  ∧ let s1 := step ok_webhook s (FetchDone 0 0 server_error) in
    trace s1 = trace s ++
      [ Console ErrorLevel ("[" +:+ owner x +:+ "] Polling error:") (Some e);
        Console ErrorLevel ("[" +:+ owner x +:+ "] Stream error:") (Some e);
        IntervalCleared 0 ]
    ∧ stopped s1 0
    ∧ subs s1 = subs s
    ∧ sent s1 = sent s
    ∧ (∀ evs, step ok_webhook (run ok_webhook evs s1) (Tick 0) = run ok_webhook evs s1).
Proof.
  intros s x e.
  assert (failed_reply (default "" (sourceUrl (config x))) server_error e) as Hfail
    by (apply failed_status; reflexivity).
  split.
  - split_and!; [reflexivity | reflexivity | reflexivity | reflexivity | exact Hfail].
  - apply (poll_fetch_failure_ends_stream ok_webhook s 0 x [HttpPending] 0 server_error e);
      [reflexivity | reflexivity | reflexivity | reflexivity | exact Hfail].
Defined.



(** C4, on a custom stream whose transform throws. *)
Lemma pipeline_error_is_contained_witness :
  let s := custom_state in
  let x := custom_resource in
  (resources s !! 1 = Some x ∧ closed x = false)
  ∧ ∃ s',
      subscriber_next ok_webhook 1 reading s = (s', Return tt)
      ∧ subs s' = subs s
      ∧ resources s' = resources s
      ∧ (∀ s1 e,
           process_body ok_webhook (owner x) (config x) reading s = (s1, Throw e) →
           trace s' = trace s1 ++
             [Console ErrorLevel ("[" +:+ owner x +:+ "] Error processing data:") (Some e)])
      ∧ (∀ data',
           subscriber_next ok_webhook 1 data' s' =
           process_event ok_webhook (owner x) (config x) data' s').
Proof.
  intros s x. split; [split; reflexivity|].
  apply (pipeline_error_is_contained ok_webhook s 1 x reading); reflexivity.
Defined.


(** C7, on a socket that receives a frame that does not parse. *)
Lemma bad_frame_closes_connection_witness :
  let s := socket_state in
  let x := socket_resource in
  (resources s !! 0 = Some x ∧ closed x = false
   ∧ activity x = SocketStream Connected 0
   ∧ bad_frame Malformed SyntaxError)
  ∧ let s1 := step ok_webhook s (Frame 0 Malformed) in
    (0 < retry_count →
       trace s1 = trace s ++
         [ Console ErrorLevel ("[" +:+ owner x +:+ "] WebSocket parse error:")
             (Some SyntaxError);
           Console ErrorLevel ("[" +:+ owner x +:+ "] WebSocket error:") (Some SyntaxError);
           Console LogLevel
             ("[" +:+ owner x +:+ "] Retrying connection... attempt " +:+ pretty 1) None;
           TimeoutSet 0 retry_delay_ms;
           SocketClosed 0 ]
       ∧ resources s1 = <[0 := with_activity (SocketStream AwaitingRetry 1) x]> (resources s))
    ∧ subs s1 = subs s
    ∧ sent s1 = sent s
    ∧ (∀ msg', step ok_webhook s1 (Frame 0 msg') = s1).
Proof.
  intros s x. split.
  - split_and!; [reflexivity | reflexivity | reflexivity | constructor].
  - destruct (bad_frame_closes_connection ok_webhook s 0 x 0 Malformed SyntaxError)
      as (_ & H2 & _ & H4 & H5 & H6);
      [reflexivity | reflexivity | reflexivity | constructor |].
    split_and!; assumption.
Defined.


(** C10, on a polling stream behind a gate that always answers true, whose
    first fetch is answered with a reading, and on one behind a gate that
    fires once. *)
Lemma poll_gate_evaluated_twice_witness :
  let s := run ok_webhook [CallSubscribe "api-poll" (poll_config (Some always_gate))]
             (new_forwarder 0) in
  let x := polling_resource (Some always_gate) [] in
  let s1 := step ok_webhook s (Tick 0) in
  let s2 := step ok_webhook s1 (FetchDone 0 0 ok_reply) in
  let evs := [CallSubscribe "api-poll" (poll_config (Some once_gate));
              Tick 0; FetchDone 0 0 ok_reply; Tick 0; FetchDone 0 0 ok_reply] in
  (resources s !! 0 = Some x ∧ closed x = false ∧ activity x = PollStream []
   ∧ shouldFetch (config x) = Some always_gate ∧ gate_context (config x) JUndefined
   ∧ running s1 0 ∧ inflight_of s1 0 !! 0 = Some HttpPending
   ∧ fetch_outcome (default "" (sourceUrl (config x))) HttpPending ok_reply
     = Fulfilled reading
   ∧ sent s2 ≠ sent s1 ∧ length (@nil InFlight) ≤ 0
   ∧ private_fetch (poll_config (Some once_gate))
   ∧ only_config (poll_config (Some once_gate)) evs)
  ∧ (gate_calls (trace s1) = 1 + gate_calls (trace s)
     ∧ sent s1 = sent s
     ∧ gate_calls (trace s2) = 2 + gate_calls (trace s)
     ∧ (always_gate JUndefined (user s1)).1 = Fulfilled true
     ∧ (always_gate JUndefined (user s)).1 = Fulfilled true)
  ∧ sent (run ok_webhook evs (new_forwarder 0)) = 0.
Proof.
  intros s x s1 s2 evs.
  assert (gate_context (config x) JUndefined) as Hctx
    by (apply gate_context_absent; reflexivity).
  assert (only_config (poll_config (Some once_gate)) evs) as Hevs.
  { repeat constructor; intros id c H; try discriminate H. by injection H as _ <-. }
  assert (private_fetch (poll_config (Some once_gate))) as Hpriv
    by (intros f Hf; discriminate Hf).
  assert (running s1 0) as Hrun by (eexists; split; reflexivity).
  assert (sent s2 ≠ sent s1) as Hsent by discriminate.
  split; [|split].
  - split_and!; [reflexivity | reflexivity | reflexivity | reflexivity
                 | exact Hctx | exact Hrun | reflexivity | reflexivity
                 | exact Hsent | reflexivity | exact Hpriv | exact Hevs].
  - destruct (proj1 poll_gate_evaluated_twice nat ok_webhook s 0 x [] always_gate
                JUndefined eq_refl eq_refl eq_refl eq_refl Hctx)
      as (Htick & _ & Hsame & _ & _ & Hdelivery).
    destruct (Hdelivery 0 HttpPending ok_reply reading Hrun eq_refl eq_refl)
      as (Htwice & _ & Hsecond & Hfirst).
    split_and!; [exact Htick | exact Hsame | exact Htwice | exact (Hsecond Hsent)
                 | exact (Hfirst (le_n 0))].
  - apply (proj2 poll_gate_evaluated_twice ok_webhook (poll_config (Some once_gate)) evs);
      [reflexivity | reflexivity | exact Hpriv | exact Hevs].
Defined.

(** ** Where the code departs from the specification's wording *)

(** C1 as worded fails: after a fetch answered with status 500 the polling
    stream is not running any more. *)
Lemma fetch_failure_stops_polling :
  ¬ survives_fetch_failure ok_webhook (polling_state None) 0 0 server_error.
Proof.
  intros [(x & Hx & Hc) _]. vm_compute in Hx. injection Hx as <-. discriminate Hc.
Qed.




(** C7 as worded fails: after a frame that does not parse, the socket is
    not connected any more. *)
Lemma malformed_frame_drops_connection :
  ¬ stays_open_after_frame ok_webhook socket_state 0 Malformed.
Proof.
  intros (x & soFar & Hx & Hc & Ha). vm_compute in Hx. injection Hx as <-.
  discriminate Ha.
Qed.


(** * The further properties, at sample inputs *)

(** A reading that passes an open gate is wrapped by the transform and
    posted. *)
Lemma pipeline_forwards_event_witness :
  let s := new_forwarder 0 in
  let cfg := gated_transform_config in
  let s0 := set_user 1 (add_trace (GateCalled JUndefined) s) in
  let out := JObj [("reading", reading)] in
  (shouldProcessEvent "custom-source" cfg s = (s0, Return true)
   ∧ wrap_transform reading (user s0) = (Fulfilled out, 1)
   ∧ ok_webhook (sent s0) (webhookUrl cfg) out =
       HttpResponse 200 "ok" (Json (JObj [("status", JStr "ok")]))
   ∧ ok 200 = true)
  ∧ let result := process_event ok_webhook "custom-source" cfg reading s in
    result.2 = Return tt
    ∧ trace result.1 =
        [ GateCalled JUndefined; TransformCalled reading;
          HttpPost "https://api.example.com/webhook" out ]
    ∧ sent result.1 = 1
    ∧ user result.1 = 1.
Proof.
  intros s cfg s0 out. split; [split_and!; reflexivity|].
  destruct (pipeline_forwards_event ok_webhook s s0 "custom-source" cfg reading out 1
              200 "ok" (Json (JObj [("status", JStr "ok")])))
    as (H1 & H2 & H3 & H4 & _); [reflexivity | reflexivity | reflexivity | reflexivity |].
  split_and!; assumption.
Defined.

(** The entry of a socket subscription whose connection has ended stays. *)
Lemma entries_outlive_their_streams_witness :
  api_call (U := nat) (SocketEnded 0) = false
  ∧ (is_Some (subs socket_state !! "sensor-stream") →
     is_Some (subs (step ok_webhook socket_state (SocketEnded 0)) !! "sensor-stream"))
  ∧ ((∀ r, SocketEnded (U := nat) 0 ≠ Settled r) →
     subs (step ok_webhook socket_state (SocketEnded 0)) = subs socket_state).
Proof.
  split; [reflexivity|].
  apply (entries_outlive_their_streams ok_webhook socket_state (SocketEnded 0)
           "sensor-stream").
  reflexivity.
Defined.

(** A fetch answered after its polling stream has been unsubscribed. *)
Lemma stopped_resource_is_inert_witness :
  let s := run ok_webhook
             [CallSubscribe "api-poll" (poll_config None); Tick 0;
              CallUnsubscribe "api-poll"] (new_forwarder 0) in
  let ev : @Event nat := FetchDone 0 0 ok_reply in
  (stopped s 0 ∧ event_resource ev = Some 0)
  ∧ let s' := step ok_webhook s ev in
    subs s' = subs s ∧ user s' = user s ∧ sent s' = sent s
    ∧ (∃ t, trace s' = trace s ++ t ∧ Forall (λ e, is_console e = true) t)
    ∧ stopped s' 0.
Proof.
  intros s ev.
  assert (stopped s 0) as Hst by (eexists; split; reflexivity).
  split; [split; [exact Hst | reflexivity]|].
  destruct (stopped_resource_is_inert ok_webhook s 0 ev Hst eq_refl)
    as (H1 & H2 & H3 & H4 & H5 & _).
  split_and!; assumption.
Defined.


(** Three ticks of a polling stream, none of them answered. *)
Lemma ticks_do_not_wait_for_answers_witness :
  let s := subscribed "api-poll" (poll_config None) in
  let x := first_resource "api-poll" (poll_config None) (PollStream []) in
  (resources s !! 0 = Some x ∧ closed x = false ∧ activity x = PollStream []
   ∧ shouldFetch (config x) = None ∧ customFetch (config x) = None
   ∧ can_request (config x))
  ∧ let s' := run ok_webhook (replicate 3 (Tick 0)) s in
    inflight_of s' 0 = [] ++ replicate 3 HttpPending
    ∧ requests (trace s') = 3 + requests (trace s)
    ∧ running s' 0
    ∧ sent s' = sent s
    ∧ subs s' = subs s.
Proof.
  intros s x.
  assert (can_request (config x)) as Hreq
    by (split; [reflexivity | intros e H; discriminate H]).
  split; [split_and!; try reflexivity; exact Hreq|].
  apply (ticks_do_not_wait_for_answers ok_webhook 3 s 0 x []);
    [reflexivity | reflexivity | reflexivity | reflexivity | reflexivity | exact Hreq].
Defined.

(** One polling cycle: a tick, then an answer with a reading. *)
Lemma poll_cycle_forwards_answer_witness :
  let s := subscribed "api-poll" (poll_config None) in
  let x := first_resource "api-poll" (poll_config None) (PollStream []) in
  (resources s !! 0 = Some x ∧ closed x = false ∧ activity x = PollStream []
   ∧ shouldFetch (config x) = None ∧ customFetch (config x) = None
   ∧ transform (config x) = None ∧ can_request (config x)
   ∧ ok 200 = true ∧ truthy reading = true
   ∧ ok_webhook (sent s) (webhookUrl (config x)) reading =
       HttpResponse 200 "ok" (Json (JObj [("status", JStr "ok")])))
  ∧ let s1 := step ok_webhook s (Tick 0) in
    let s2 := step ok_webhook s1 (FetchDone 0 0 ok_reply) in
    (∃ meth hdrs payload,
       trace s2 = trace s ++
         [ HttpRequest meth "https://api.example.com/data" hdrs payload;
           HttpPost "https://api.example.com/webhook" reading ])
    ∧ sent s1 = sent s
    ∧ sent s2 = S (sent s)
    ∧ resources s2 = resources s
    ∧ subs s2 = subs s
    ∧ user s2 = user s.
Proof.
  intros s x.
  assert (can_request (config x)) as Hreq
    by (split; [reflexivity | intros e H; discriminate H]).
  split; [split_and!; try reflexivity; exact Hreq|].
  apply (poll_cycle_forwards_answer ok_webhook s 0 x [] 200 "" reading
           200 "ok" (Json (JObj [("status", JStr "ok")])));
    [reflexivity | reflexivity | reflexivity | reflexivity | reflexivity | reflexivity
    | exact Hreq | reflexivity | reflexivity | reflexivity | reflexivity].
Defined.

(** A polling stream behind a gate whose promise rejects. *)
Lemma gate_failure_ends_polling_witness :
  let s := subscribed "api-poll" (poll_config (Some failing_gate)) in
  let x := first_resource "api-poll" (poll_config (Some failing_gate)) (PollStream []) in
  let e := UserError "gate down" in
  (resources s !! 0 = Some x ∧ closed x = false ∧ activity x = PollStream []
   ∧ shouldFetch (config x) = Some failing_gate ∧ gate_context (config x) JUndefined
   ∧ failing_gate JUndefined (user s) = (RejectedWith e, 1))
  ∧ let s1 := step ok_webhook s (Tick 0) in
    trace s1 = trace s ++
      [ GateCalled JUndefined;
        Console ErrorLevel ("[" +:+ owner x +:+ "] Polling error:") (Some e);
        Console ErrorLevel ("[" +:+ owner x +:+ "] Stream error:") (Some e);
        IntervalCleared 0 ]
    ∧ stopped s1 0
    ∧ subs s1 = subs s
    ∧ sent s1 = sent s
    ∧ user s1 = 1
    ∧ (∀ evs, step ok_webhook (run ok_webhook evs s1) (Tick 0) = run ok_webhook evs s1).
Proof.
  intros s x e.
  assert (gate_context (config x) JUndefined) as Hctx
    by (apply gate_context_absent; reflexivity).
  split; [split_and!; try reflexivity; exact Hctx|].
  apply (gate_failure_ends_polling ok_webhook s 0 x [] failing_gate JUndefined e 1);
    [reflexivity | reflexivity | reflexivity | reflexivity | exact Hctx | reflexivity].
Defined.

(** A polling stream behind a gate that answers false. *)
Lemma closed_gate_skips_the_fetch_witness :
  let s := subscribed "api-poll" (poll_config (Some never_gate)) in
  let x := first_resource "api-poll" (poll_config (Some never_gate)) (PollStream []) in
  (resources s !! 0 = Some x ∧ closed x = false ∧ activity x = PollStream []
   ∧ shouldFetch (config x) = Some never_gate ∧ gate_context (config x) JUndefined
   ∧ never_gate JUndefined (user s) = (Fulfilled false, 1))
  ∧ let s1 := step ok_webhook s (Tick 0) in
    trace s1 = trace s ++
      [ GateCalled JUndefined;
        Console LogLevel
          ("[" +:+ owner x +:+ "] Skipping event processing based on shouldFetch condition")
          None;
        Console LogLevel
          ("[" +:+ owner x +:+ "] Skipping fetch based on shouldFetch condition") None ]
    ∧ resources s1 = resources s
    ∧ subs s1 = subs s
    ∧ sent s1 = sent s
    ∧ user s1 = 1
    ∧ step ok_webhook s1 (Tick 0) = (poll_tick 0 x s1).1.
Proof.
  intros s x.
  assert (gate_context (config x) JUndefined) as Hctx
    by (apply gate_context_absent; reflexivity).
  split; [split_and!; try reflexivity; exact Hctx|].
  apply (closed_gate_skips_the_fetch ok_webhook s 0 x [] never_gate JUndefined 1);
    [reflexivity | reflexivity | reflexivity | reflexivity | exact Hctx | reflexivity].
Defined.

(** A polling stream whose request body is a promise that rejects. *)
Lemma rejected_body_ends_polling_witness :
  let s := subscribed "api-poll" rejected_body_config in
  let x := first_resource "api-poll" rejected_body_config (PollStream []) in
  let e := UserError "no token" in
  (resources s !! 0 = Some x ∧ closed x = false ∧ activity x = PollStream []
   ∧ request_body (config x) = Some (Promise (RejectedWith e))
   ∧ (is_Some (shouldFetch (config x)) ∨ customFetch (config x) = None)
   ∧ falsy_string (sourceUrl (config x)) = false)
  ∧ let s1 := step ok_webhook s (Tick 0) in
    trace s1 = trace s ++
      [ Console ErrorLevel ("[" +:+ owner x +:+ "] Polling error:") (Some e);
        Console ErrorLevel ("[" +:+ owner x +:+ "] Stream error:") (Some e);
        IntervalCleared 0 ]
    ∧ stopped s1 0
    ∧ subs s1 = subs s
    ∧ sent s1 = sent s
    ∧ user s1 = user s
    ∧ (∀ evs, step ok_webhook (run ok_webhook evs s1) (Tick 0) = run ok_webhook evs s1).
Proof.
  intros s x e.
  split; [split_and!; try reflexivity; right; reflexivity|].
  apply (rejected_body_ends_polling ok_webhook s 0 x [] e);
    [reflexivity | reflexivity | reflexivity | reflexivity | right; reflexivity
    | reflexivity].
Defined.

(** A polling stream whose fetch is answered with status 200 and the body
    null. *)
Lemma unusable_answer_ends_polling_witness :
  let s := polling_state None in
  let x := polling_resource None [HttpPending] in
  let reply := HttpResponse 200 "null" (Json JNull) in
  let e := Error "Invalid input data" in
  (resources s !! 0 = Some x ∧ closed x = false
   ∧ activity x = PollStream [HttpPending]
   ∧ [HttpPending] !! 0 = Some HttpPending
   ∧ unusable_result HttpPending reply e)
  ∧ let s1 := step ok_webhook s (FetchDone 0 0 reply) in
    trace s1 = trace s ++
      [ Console ErrorLevel ("[" +:+ owner x +:+ "] Polling error:") (Some e);
        Console ErrorLevel ("[" +:+ owner x +:+ "] Stream error:") (Some e);
        IntervalCleared 0 ]
    ∧ stopped s1 0
    ∧ subs s1 = subs s
    ∧ sent s1 = sent s
    ∧ user s1 = user s
    ∧ (∀ evs, step ok_webhook (run ok_webhook evs s1) (Tick 0) = run ok_webhook evs s1).
Proof.
  intros s x reply e.
  assert (unusable_result HttpPending reply e) as Hbad
    by (apply unusable_falsy; reflexivity).
  split; [split_and!; try reflexivity; exact Hbad|].
  apply (unusable_answer_ends_polling ok_webhook s 0 x [HttpPending] 0 HttpPending reply e);
    [reflexivity | reflexivity | reflexivity | reflexivity | exact Hbad].
Defined.


(** A socket that receives a reading. *)
Lemma good_frame_reaches_pipeline_witness :
  let s := socket_state in
  let x := socket_resource in
  (resources s !! 0 = Some x ∧ closed x = false
   ∧ activity x = SocketStream Connected 0 ∧ truthy reading = true)
  ∧ let s' := step ok_webhook s (Frame 0 (Json reading)) in
    s' = (process_event ok_webhook (owner x) (config x) reading s).1
    ∧ resources s' = resources s
    ∧ subs s' = subs s
    ∧ (∀ v', truthy v' = true →
         step ok_webhook s' (Frame 0 (Json v')) =
         (process_event ok_webhook (owner x) (config x) v' s').1).
Proof.
  intros s x. split; [split_and!; reflexivity|].
  apply (good_frame_reaches_pipeline ok_webhook s 0 x 0 reading); reflexivity.
Defined.

(** Subscribing to a socket source, and to a polling source. *)
Lemma subscribe_starts_the_source_witness :
  let s := new_forwarder 0 in
  (ordinary "sensor-stream" ∧ ordinary "api-poll"
   ∧ subs s !! "sensor-stream" = None
   ∧ sourceUrl socket_config = Some "wss://sensors.example.com/stream"
   ∧ sourceUrl (poll_config None) = Some "https://api.example.com/data"
   ∧ pollInterval (poll_config None) = Some 5000%Z)
  ∧ trace (subscribe_key "sensor-stream" socket_config s).1 =
      trace s ++ [SocketOpened 0 "wss://sensors.example.com/stream"]
  ∧ trace (subscribe_key "api-poll" (poll_config None) s).1 =
      trace s ++ [IntervalStarted 0 5000]
  ∧ resources (subscribe_key "api-poll" (poll_config None) s).1 =
      resources s ++ [first_resource "api-poll" (poll_config None) (PollStream [])].
Proof.
  intros s. split; [split_and!; reflexivity|].
  destruct (subscribe_starts_the_source s "sensor-stream" socket_config
              "wss://sensors.example.com/stream") as [Hsocket _];
    [reflexivity | reflexivity | reflexivity | discriminate |].
  destruct (subscribe_starts_the_source s "api-poll" (poll_config None)
              "https://api.example.com/data") as [_ Hpoll];
    [reflexivity | reflexivity | reflexivity | discriminate |].
  destruct (Hsocket eq_refl) as (H1 & _).
  destruct (Hpoll 5000%Z eq_refl eq_refl ltac:(discriminate)) as (H2 & _ & H3 & _).
  split_and!; assumption.
Defined.



(** The private method and [subscribe] on a custom source whose factory
    returns a promise. *)
Lemma createCustomStream_matches_subscribe_witness :
  let s := new_forwarder 0 in
  let cfg := custom_config empty_stream None in
  (ordinary "custom-source" ∧ type cfg = custom ∧ subs s !! "custom-source" = None)
  ∧ subscribe_key "custom-source" cfg s =
      (set_subs <[ "custom-source" := SubscriptionHandle 0 ]>
         (set_resources
            (λ l, l ++ [first_resource "custom-source" cfg (FactorySetup empty_stream)])
            (createCustomStream cfg s).1),
       Return "custom-source").
Proof.
  intros s cfg. split; [split_and!; reflexivity|].
  exact (createCustomStream_matches_subscribe s "custom-source" cfg eq_refl eq_refl eq_refl).
Defined.




(** A custom stream whose observable fails. *)
Lemma source_failure_ends_custom_stream_witness :
  let s := custom_state in
  let x := custom_resource in
  let e := UserError "device lost" in
  (resources s !! 1 = Some x ∧ closed x = false ∧ activity x = CustomStream)
  ∧ let s1 := step ok_webhook s (SourceFailed 1 e) in
    trace s1 = trace s ++
      [ Console ErrorLevel ("[" +:+ owner x +:+ "] Stream error:") (Some e);
        SourceUnsubscribed 1 ]
    ∧ stopped s1 1
    ∧ subs s1 = subs s
    ∧ sent s1 = sent s
    ∧ user s1 = user s
    ∧ (∀ data, step ok_webhook s1 (Emitted 1 data) = s1).
Proof.
  intros s x e. split; [split_and!; reflexivity|].
  apply (source_failure_ends_custom_stream ok_webhook s 1 x e); reflexivity.
Defined.

(** A socket subscription whose connection failed and whose retry timer
    fired has opened one connection. *)
Lemma socket_connects_once_witness :
  let s := run ok_webhook [SocketFailed 0 (TransportError "reset"); RetryTimer 0;
                           Frame 0 (Json reading)] socket_state in
  reachable ok_webhook s ∧ connections 0 (trace s) ≤ 1.
Proof.
  intros s.
  assert (reachable ok_webhook s) as Hreach.
  { exists 0, [CallSubscribe "sensor-stream" socket_config;
               SocketFailed 0 (TransportError "reset"); RetryTimer 0;
               Frame 0 (Json reading)].
    reflexivity. }
  split; [exact Hreach|].
  apply (socket_connects_once ok_webhook s 0 Hreach).
Defined.

(** Two subscriptions, a polling one whose fetch fails and a socket one. *)
Lemma streams_do_not_interfere_witness :
  let s := run ok_webhook
             [CallSubscribe "api-poll" (poll_config None);
              CallSubscribe "sensor-stream" socket_config; Tick 0]
             (new_forwarder 0) in
  let ev : @Event nat := FetchDone 0 0 server_error in
  event_resource ev = Some 0
  ∧ let s' := step ok_webhook s ev in
    stopped s' 0
    ∧ resources s' !! 1 = resources s !! 1
    ∧ subs s' !! "sensor-stream" = subs s !! "sensor-stream".
Proof.
  intros s ev. split; [reflexivity|].
  destruct (streams_do_not_interfere ok_webhook s ev 0 eq_refl) as [Hres Hsubs].
  split_and!.
  - eexists. split; reflexivity.
  - apply Hres; [lia | vm_compute; lia].
  - apply Hsubs. intros x Hx. vm_compute in Hx. injection Hx as <-. discriminate.
Defined.

(** Unsubscribing, and replacing, a polling subscription next to a socket
    subscription. *)
Lemma api_spares_other_keys_witness :
  let s := run ok_webhook
             [CallSubscribe "api-poll" (poll_config None);
              CallSubscribe "sensor-stream" socket_config]
             (new_forwarder 0) in
  let x := first_resource "sensor-stream" socket_config (SocketStream Connected 0) in
  (reachable ok_webhook s ∧ resources s !! 1 = Some x ∧ owner x ≠ "api-poll")
  ∧ resources (unsubscribe "api-poll" s).1 !! 1 = Some x
  ∧ resources (subscribe "api-poll" socket_config s).1 !! 1 = Some x.
Proof.
  intros s x.
  assert (reachable ok_webhook s) as Hreach.
  { exists 0, [CallSubscribe "api-poll" (poll_config None);
               CallSubscribe "sensor-stream" socket_config].
    reflexivity. }
  assert (owner x ≠ "api-poll") as Ho by discriminate.
  split; [split_and!; [exact Hreach | reflexivity | exact Ho]|].
  destruct (api_spares_other_keys ok_webhook s "api-poll" socket_config 1 x
              Hreach eq_refl Ho) as (H1 & H2 & _).
  split; assumption.
Defined.
